(** * nm_lib: a shallow embedding of the time-integration engine

    The Python module [nm_lib.py] advances one-dimensional advection and
    Burgers fields with numpy.  This development embeds the functions the
    specification talks about and proves (or refutes) its statements.

    Conventions
    - A numpy [float64] is a [num]: an exact rational or one of the IEEE
      special values.  Rounding, overflow, underflow and the sign of zero are
      abstracted away; everything else follows IEEE-754 as numpy applies it
      (division by zero gives an infinity or a NaN and never raises).  A
      theorem about control flow, shapes, errors or the propagation of
      infinities and NaNs is untouched by the abstraction.  A theorem about
      computed values is a statement of exact arithmetic: a float64 run can
      differ from it by rounding, and by overflow or underflow at the ends
      of the float range.  Where such a theorem is meant for float64 runs as
      they are, it bounds its inputs ([in_float_range],
      [grid_in_float_range]) so that no operation it goes through overflows,
      and rests on nothing that rounding changes.
    - The one place where the float range decides the control flow is the
      power [ratio**2] of Python floats in [hyman], which raises
      [OverflowError]; there the range is modelled ([py_div], [py_square]).
    - numpy is version 1.25 or later.  Versions 1.x and 2.x differ in
      [np.any(None)], on which [hyman] depends: [numpy_version].
    - A Python exception is a [Raise e] in the error monad [res].
    - A one-dimensional array is a [list num]; elementwise operators follow
      numpy's broadcasting rule and raise [ValueError] on a shape mismatch.
    - The snapshot matrix [unnt] of shape [(N, nt)] is the list of its [nt]
      columns, so that [unnt[:, i]] is [unnt !! i].  The Jacobian is the list
      of its rows. *)

From Stdlib Require Import QArith Qcanon Lia.
From stdpp Require Import base list.


(** ** Exceptions and the error monad *)

Inductive exn :=
  | ValueError | IndexError | ZeroDivisionError | TypeError
  | UnboundLocalError | LinAlgError | OverflowError.

Inductive res (A : Type) :=
  | Ok (a : A)
  | Raise (e : exn).
Arguments Ok {A} a.
Arguments Raise {A} e.

#[global] Instance res_ret : MRet res := @Ok.
#[global] Instance res_bind : MBind res := fun A B f m =>
  match m with Ok a => f a | Raise e => Raise e end.

(** ** Numbers *)

#[local] Open Scope Qc_scope.

Inductive num :=
  | Fin (q : Qc)
  | PInf
  | NInf
  | NaN.

Definition qc (n : Z) (d : positive) : Qc := Q2Qc (n # d).
Definition fin (n : Z) (d : positive) : num := Fin (qc n d).
Definition zero : num := fin 0 1.
Definition one : num := fin 1 1.
Definition two : num := fin 2 1.
Definition three : num := fin 3 1.
Definition half : num := fin 1 2.

Definition is_finite (x : num) : bool :=
  match x with Fin _ => true | _ => false end.

Definition num_eqb (x y : num) : bool :=
  match x, y with
  | Fin a, Fin b => Qc_eq_bool a b
  | PInf, PInf | NInf, NInf | NaN, NaN => true
  | _, _ => false
  end.

Definition nopp (x : num) : num :=
  match x with
  | Fin q => Fin (- q)
  | PInf => NInf
  | NInf => PInf
  | NaN => NaN
  end.

Definition nadd (x y : num) : num :=
  match x, y with
  | NaN, _ | _, NaN => NaN
  | Fin a, Fin b => Fin (a + b)
  | PInf, NInf | NInf, PInf => NaN
  | PInf, _ | _, PInf => PInf
  | NInf, _ | _, NInf => NInf
  end.

Definition nsub (x y : num) : num := nadd x (nopp y).

(** The infinity whose sign is that of [q]; [0 * inf] is a NaN. *)
Definition signed_inf (q : Qc) : num :=
  match q ?= 0 with Gt => PInf | Lt => NInf | Eq => NaN end.

Definition nmul (x y : num) : num :=
  match x, y with
  | NaN, _ | _, NaN => NaN
  | Fin a, Fin b => Fin (a * b)
  | Fin a, PInf | PInf, Fin a => signed_inf a
  | Fin a, NInf | NInf, Fin a => signed_inf (- a)
  | PInf, PInf | NInf, NInf => PInf
  | PInf, NInf | NInf, PInf => NInf
  end.

(** numpy division: a zero divisor gives a signed infinity, [0/0] a NaN. *)
Definition ndiv (x y : num) : num :=
  match x, y with
  | NaN, _ | _, NaN => NaN
  | Fin a, Fin b => if Qc_eq_bool b 0 then signed_inf a else Fin (a / b)
  | Fin _, _ => zero
  | PInf, Fin b => match b ?= 0 with Lt => NInf | _ => PInf end
  | NInf, Fin b => match b ?= 0 with Lt => PInf | _ => NInf end
  | _, _ => NaN
  end.

Definition nabs (x : num) : num :=
  match x with
  | Fin q => match q ?= 0 with Lt => Fin (- q) | _ => Fin q end
  | PInf | NInf => PInf
  | NaN => NaN
  end.

(** [x <= y] as IEEE decides it: false as soon as a NaN is involved. *)
Definition nle (x y : num) : bool :=
  match x, y with
  | NaN, _ | _, NaN => false
  | NInf, _ | _, PInf => true
  | Fin a, Fin b => match a ?= b with Gt => false | _ => true end
  | _, _ => false
  end.

Definition nge (x y : num) : bool := nle y x.
Definition nlt (x y : num) : bool :=
  match x, y with
  | NaN, _ | _, NaN => false
  | _, _ => negb (nle y x)
  end.

(** [np.maximum] and the step of [np.min] / [np.max]: a NaN propagates. *)
Definition nmaximum (x y : num) : num :=
  match x, y with
  | NaN, _ | _, NaN => NaN
  | _, _ => if nle x y then y else x
  end.

Definition nminimum (x y : num) : num :=
  match x, y with
  | NaN, _ | _, NaN => NaN
  | _, _ => if nle x y then x else y
  end.

#[local] Close Scope Qc_scope.

Declare Scope num_scope.
Delimit Scope num_scope with num.
Bind Scope num_scope with num.
Infix "+" := nadd : num_scope.
Infix "-" := nsub : num_scope.
Infix "*" := nmul : num_scope.
Infix "/" := ndiv : num_scope.
Notation "- x" := (nopp x) : num_scope.

(** ** Arrays *)

Abbreviation array := (list num).

#[global] Instance num_inhabited : Inhabited num := populate NaN.
#[global] Instance Qc_inhabited : Inhabited Qc := populate (Q2Qc 0).

Definition list_eqb {A} (eqb : A → A → bool) (u v : list A) : bool :=
  (length u =? length v) && forallb (fun p => eqb p.1 p.2) (zip u v).

Definition array_eqb : array → array → bool := list_eqb num_eqb.

(** Elementwise binary operator on two arrays, with numpy's broadcasting. *)
Definition broadcast2 (op : num → num → num) (x y : array) : res array :=
  if (length x =? length y) then Ok (zip_with op x y)
  else match x, y with
       | [a], _ => Ok (map (op a) y)
       | _, [b] => Ok (map (fun a => op a b) x)
       | _, _ => Raise ValueError
       end.

(** [np.roll(a, shift)]: entry [i] of the result is [a[(i - shift) mod n]]. *)
Definition np_roll {A} (a : list A) (shift : Z) : list A :=
  rotate (Z.to_nat ((- shift) mod Z.of_nat (length a))) a.

(** [a[k]] for a non-negative index. *)
Definition getitem (a : array) (k : nat) : res num :=
  match a !! k with Some x => Ok x | None => Raise IndexError end.

(** [np.min] and [np.max] of a one-dimensional array. *)
Definition np_min (a : array) : res num :=
  match a with
  | [] => Raise ValueError
  | x :: a' => Ok (fold_left nminimum a' x)
  end.

Definition np_max (a : array) : res num :=
  match a with
  | [] => Raise ValueError
  | x :: a' => Ok (fold_left nmaximum a' x)
  end.

(** [np.sum]. *)
Definition np_sum (a : array) : num := foldr nadd zero a.

(** [np.gradient(x)] with unit spacing: one-sided differences at the two
    ends, centred differences halved inside; fewer than two points raise. *)
Definition np_gradient (x : array) : res array :=
  let n := length x in
  if (n <? 2) then Raise ValueError
  else Ok (map (fun i =>
                  if (i =? 0) then (x !!! 1 - x !!! 0)%num
                  else if (i =? n - 1) then (x !!! (n - 1)%nat - x !!! (n - 2)%nat)%num
                  else ((x !!! (i + 1)%nat - x !!! (i - 1)%nat) / two)%num)
               (seq 0 n)).

(** Array expressions.  Python evaluates the operands left to right and the
    first exception wins; [vadd] and its siblings do the same on [res array]. *)
#[global] Instance res_fmap : FMap res := fun A B f m =>
  match m with Ok a => Ok (f a) | Raise e => Raise e end.

Definition lift2 (op : num → num → num) (x y : res array) : res array :=
  a ← x; b ← y; broadcast2 op a b.

Definition vadd := lift2 nadd.
Definition vsub := lift2 nsub.
Definition vmul := lift2 nmul.
Definition vdiv := lift2 ndiv.
(** scalar on the left, scalar on the right *)
Definition sv (op : num → num → num) (c : num) (x : res array) : res array :=
  map (op c) <$> x.
Definition vs (op : num → num → num) (x : res array) (c : num) : res array :=
  map (fun v => op v c) <$> x.
Definition vopp (x : res array) : res array := map nopp <$> x.
Definition vabs (x : res array) : res array := map nabs <$> x.
(** [x**2] *)
Definition vsquare (x : res array) : res array := map (fun v => (v * v)%num) <$> x.

(** A coefficient is a Python scalar or a per-point array. *)
Inductive coef :=
  | Scalar (c : num)
  | PerPoint (cs : array).

Definition coef_map (f : num → num) (a : coef) : coef :=
  match a with Scalar c => Scalar (f c) | PerPoint cs => PerPoint (map f cs) end.

(** [x op a] and [a op x] for an array [x] and a coefficient [a] *)
Definition v_coef (op : num → num → num) (x : res array) (a : coef) : res array :=
  match a with Scalar c => vs op x c | PerPoint cs => lift2 op x (Ok cs) end.
Definition coef_v (op : num → num → num) (a : coef) (x : res array) : res array :=
  match a with Scalar c => sv op c x | PerPoint cs => lift2 op (Ok cs) x end.

(** ** Boundary policy

    Every stepper ends a step with the same four lines:
<<
        if bnd_limits[1] > 0:
            u_next_temp = u_next[bnd_limits[0] : -bnd_limits[1]]
        else:
            u_next_temp = u_next[bnd_limits[0] :]
        unnt[:, i+1] = np.pad(u_next_temp, bnd_limits, bnd_type)
>>
    Margin widths are natural numbers (numpy rejects negative ones). *)

Inductive bnd_type := Wrap | Edge | Constant.

(** The retained slice. *)
Definition slice_margins (u : array) (bnd_limits : nat * nat) : array :=
  if 0 <? bnd_limits.2
  then drop bnd_limits.1 (take (length u - bnd_limits.2) u)
  else drop bnd_limits.1 u.

(** Position in the retained slice (of length [n]) that 'wrap' copies to
    position [k] of the padded array. *)
Definition wrap_index (l n k : nat) : nat :=
  Z.to_nat ((Z.of_nat k - Z.of_nat l) mod Z.of_nat n).

(** [np.pad(a, (l, r), mode)] for the three modes of the specification.
    'constant' fills with zeros (no fill value is ever passed); 'wrap' and
    'edge' cannot extend an empty array; 'wrap' continues the array
    periodically on both sides (for a margin wider than the array this is
    numpy's behaviour from version 1.25 on). *)
Definition np_pad (a : array) (bnd_limits : nat * nat) (mode : bnd_type) : res array :=
  let '(l, r) := bnd_limits in
  match mode with
  | Constant => Ok (replicate l zero ++ a ++ replicate r zero)
  | Edge =>
      match a with
      | [] => if l + r =? 0 then Ok [] else Raise ValueError
      | x :: _ => Ok (replicate l x ++ a ++ replicate r (List.last a x))
      end
  | Wrap =>
      match a with
      | [] => if l + r =? 0 then Ok [] else Raise ValueError
      | _ :: _ => Ok (map (fun k => a !!! wrap_index l (length a) k)
                          (seq 0 (l + length a + r)))
      end
  end.

Definition fix_boundaries (u : array) (bnd_limits : nat * nat) (mode : bnd_type)
  : res array :=
  np_pad (slice_margins u bnd_limits) bnd_limits mode.

(** ** Derivative operators *)

(** A derivative operator is the caller's [ddx] lambda. *)
Definition deriv_op := array → array → res array.

Definition deriv_dnw : deriv_op := fun xx hh =>
  vdiv (vsub (Ok (np_roll hh (-1))) (Ok hh)) (vsub (Ok (np_roll xx (-1))) (Ok xx)).

Definition deriv_upw : deriv_op := fun xx hh =>
  vdiv (vsub (Ok hh) (Ok (np_roll hh 1))) (vsub (Ok xx) (Ok (np_roll xx 1))).

Definition deriv_cent : deriv_op := fun xx hh =>
  vdiv (vsub (Ok (np_roll hh (-1))) (Ok (np_roll hh 1)))
       (vsub (Ok (np_roll xx (-1))) (Ok (np_roll xx 1))).

(** ** CFL estimators *)

Definition cfl_adv_burger (a : coef) (x : array) : res num :=
  dx ← np_gradient x;
  q ← v_coef ndiv (Ok dx) (coef_map nabs a);
  np_min q.

Definition cfl_diff_burger (a : coef) (x : array) : res num :=
  dx ← np_gradient x;
  q ← v_coef ndiv (vsquare (Ok dx)) (coef_map (nmul two) (coef_map nabs a));
  np_min q.

(** ** Right-hand sides *)

Definition step_adv_burgers (xx hh : array) (a : coef) (cfl_cut : num) (ddx : deriv_op)
  : res (num * array) :=
  c ← cfl_adv_burger a xx;
  let dt := (c * cfl_cut)%num in
  rhs ← coef_v nmul (coef_map nopp a) (ddx xx hh);
  Ok (dt, rhs).

Definition step_uadv_burgers (xx hh : array) (cfl_cut : num) (ddx : deriv_op)
  : res (num * array) :=
  let a := hh in
  dt ← cfl_adv_burger (PerPoint a) xx;
  rhs ← vmul (vopp (Ok a)) (ddx xx hh);
  Ok (dt, rhs).

(** ** The time-marching loop *)

(** [for i in range: s = body(i, s)] *)
Fixpoint for_range {S : Type} (body : nat → S → res S) (range : list nat) (s : S)
  : res S :=
  match range with
  | [] => Ok s
  | i :: range' => s' ← body i s; for_range body range' s'
  end.

(** [np.zeros(n)] and [np.zeros((N, nt))] *)
Definition np_zeros (n : nat) : array := replicate n zero.
Definition np_zeros2 (N nt : nat) : list array := replicate nt (np_zeros N).

(** [t[i] = v] *)
Definition setitem (t : array) (i : nat) (v : num) : res array :=
  if i <? length t then Ok (<[i := v]> t) else Raise IndexError.

(** [unnt[:, i]] *)
Definition get_col (unnt : list array) (i : nat) : res array :=
  match unnt !! i with Some c => Ok c | None => Raise IndexError end.

(** The value stored by an assignment to a length-[N] slice: [v] itself, or
    its single entry repeated. *)
Definition broadcast_to (N : nat) (v : array) : res array :=
  if length v =? N then Ok v
  else match v with
       | [x] => Ok (replicate N x)
       | _ => Raise ValueError
       end.

(** [unnt[:, i] = v] for a matrix with [N] rows *)
Definition set_col (N : nat) (unnt : list array) (i : nat) (v : array) : res (list array) :=
  if i <? length unnt
  then v' ← broadcast_to N v; Ok (<[i := v']> unnt)
  else Raise IndexError.

(** The tail of every explicit step: fix the boundaries of the candidate,
    store it as column [i+1] and advance the time. *)
Definition store_step (N : nat) (bnd_type : bnd_type) (bnd_limits : nat * nat)
    (i : nat) (t : array) (unnt : list array) (u_next : array) (dt : num)
  : res (array * list array) :=
  padded ← fix_boundaries u_next bnd_limits bnd_type;
  unnt ← set_col N unnt (i + 1) padded;
  ti ← getitem t i;
  t ← setitem t (i + 1) (ti + dt)%num;
  Ok (t, unnt).

(** The head of every stepper,
<<
    t = np.zeros((nt))
    unnt = np.zeros((len(xx), nt))
    unnt[:, 0] = hh
>>
    and its loop [for i in range(0, nt-1)], in which [step] stands for the
    lines that lead from column [i] to the step size and the candidate. *)
Definition init_series (N nt : nat) (hh : array) : res (array * list array) :=
  let t := np_zeros nt in
  let unnt := np_zeros2 N nt in
  unnt ← set_col N unnt 0 hh;
  Ok (t, unnt).

Definition march (N nt : nat) (bnd_type : bnd_type) (bnd_limits : nat * nat)
    (step : array → res (num * array)) (s : array * list array)
  : res (array * list array) :=
  for_range (fun i '(t, unnt) =>
      u ← get_col unnt i;
      '(dt, u_next) ← step u;
      store_step N bnd_type bnd_limits i t unnt u_next dt)
    (seq 0 (nt - 1)) s.

(** [u_next = unnt[:, i] + rhs * dt] *)
Definition adv_u_next (xx : array) (a : coef) (cfl_cut : num) (ddx : deriv_op)
    (u : array) : res (num * array) :=
  '(dt, rhs) ← step_adv_burgers xx u a cfl_cut ddx;
  u_next ← vadd (Ok u) (vs nmul (Ok rhs) dt);
  Ok (dt, u_next).

Definition evolv_adv_burgers (xx hh : array) (nt : nat) (a : coef) (cfl_cut : num)
    (ddx : deriv_op) (bnd_type : bnd_type) (bnd_limits : nat * nat)
  : res (array * list array) :=
  s ← init_series (length xx) nt hh;
  march (length xx) nt bnd_type bnd_limits (adv_u_next xx a cfl_cut ddx) s.

(** The candidate of the Lax method:
<<
        u_next = 0.5 * (np.roll(u, -1) + np.roll(u, 1)) \
            - u * dt / (np.roll(xx, -1) - np.roll(xx, 1)) \
            * (np.roll(u, -1) - np.roll(u, 1))
>> *)
Definition Lax_u_next (xx u : array) (dt : num) : res array :=
  vsub (sv nmul half (vadd (Ok (np_roll u (-1))) (Ok (np_roll u 1))))
       (vmul (vdiv (vs nmul (Ok u) dt)
                   (vsub (Ok (np_roll xx (-1))) (Ok (np_roll xx 1))))
             (vsub (Ok (np_roll u (-1))) (Ok (np_roll u 1)))).

(** The right-hand side is computed with [ddx] and then left unused. *)
Definition Lax_uadv_step (xx : array) (cfl_cut : num) (ddx : deriv_op) (u : array)
  : res (num * array) :=
  '(dt, rhs) ← step_uadv_burgers xx u cfl_cut ddx;
  u_next ← Lax_u_next xx u dt;
  Ok (dt, u_next).

Definition evolv_Lax_uadv_burgers (xx hh : array) (nt : nat) (cfl_cut : num)
    (ddx : deriv_op) (bnd_type : bnd_type) (bnd_limits : nat * nat)
  : res (array * list array) :=
  s ← init_series (length xx) nt hh;
  march (length xx) nt bnd_type bnd_limits (Lax_uadv_step xx cfl_cut ddx) s.

(** One step of the Rusanov scheme up to the candidate: the step size and
    [u_next], from the grid, the spacing [dx = xx[1] - xx[0]] and column [u]. *)
Definition Rie_u_next (xx : array) (dx : num) (u : array) : res (num * array) :=
  let u_L := np_roll u 0 in
  let u_R := np_roll u (-1) in
  F_L ← sv nmul half (vsquare (Ok u_L));
  F_R ← sv nmul half (vsquare (Ok u_R));
  v_a ← lift2 nmaximum (vabs (Ok u_L)) (vabs (Ok u_R));
  F_plus05 ← vsub (sv nmul half (vadd (Ok F_L) (Ok F_R)))
                  (vmul (sv nmul half (Ok v_a)) (vsub (Ok u_R) (Ok u_L)));
  F_int ← vs ndiv (vsub (Ok F_plus05) (Ok (np_roll F_plus05 1))) dx;
  dt ← cfl_adv_burger (PerPoint v_a) xx;
  u_next ← vsub (Ok u) (sv nmul dt (Ok F_int));
  Ok (dt, u_next).

(** [cfl_cut] and [ddx] are parameters of the function that its body never
    reads. *)
Definition evolv_Rie_uadv_burgers (xx hh : array) (nt : nat) (cfl_cut : num)
    (ddx : deriv_op) (bnd_type : bnd_type) (bnd_limits : nat * nat)
  : res (array * list array) :=
  s ← init_series (length xx) nt hh;
  x1 ← getitem xx 1;
  x0 ← getitem xx 0;
  let dx := (x1 - x0)%num in
  march (length xx) nt bnd_type bnd_limits (Rie_u_next xx dx) s.

(** Decidable equality of results, for closed evaluations. *)
Definition series_eqb (p q : array * list array) : bool :=
  array_eqb p.1 q.1 && list_eqb array_eqb p.2 q.2.

Definition returns {A} (eqb : A → A → bool) (m : res A) (a : A) : bool :=
  match m with Ok b => eqb b a | Raise _ => false end.

(** ** Implicit diffusion solver

    [jacobian] stores [1 + dt * 2 * a / dx**2] in a matrix entry, so the
    coefficient [a] of the solver is a scalar.  The number of time steps and
    the iteration cap are natural numbers. *)

Abbreviation matrix := (list array).

(** [J[i, k] = v] *)
Definition setitem2 (J : matrix) (i k : nat) (v : num) : res matrix :=
  match J !! i with
  | Some row => row' ← setitem row k v; Ok (<[i := row']> J)
  | None => Raise IndexError
  end.

Definition NR_f (xx un uo : array) (a dt : num) : res array :=
  x1 ← getitem xx 1;
  x0 ← getitem xx 0;
  let dx := (x1 - x0)%num in
  vsub (vsub (Ok un) (Ok uo))
       (vs ndiv
           (vs nmul
               (sv nmul a (vadd (vsub (Ok (np_roll un (-1))) (sv nmul two (Ok un)))
                                (Ok (np_roll un 1))))
               dt)
           (dx * dx)%num).

(** The body of the loop that fills the Jacobian; [coeff i] is the
    coefficient used on row [i]. *)
Definition jacobian_row (n : nat) (dx dt : num) (coeff : nat → res num)
    (i : nat) (J : matrix) : res matrix :=
  c ← coeff i;
  J ← setitem2 J i i (one + dt * two * c / (dx * dx))%num;
  J ← (if i <? n - 1 then
         c ← coeff i; setitem2 J i (i + 1) (- dt * c / (dx * dx))%num
       else Ok J);
  if 1 <? i then
    c ← coeff i; setitem2 J i (i - 1) (- dt * c / (dx * dx))%num
  else Ok J.

Definition jacobian (xx un : array) (a dt : num) : res matrix :=
  x1 ← getitem xx 1;
  x0 ← getitem xx 0;
  let dx := (x1 - x0)%num in
  let n := length xx in
  for_range (jacobian_row n dx dt (fun _ => Ok a)) (seq 0 n) (np_zeros2 n n).

Definition NR_f_u (xx un uo : array) (dt : num) : res array :=
  x1 ← getitem xx 1;
  x0 ← getitem xx 0;
  let dx := (x1 - x0)%num in
  vsub (vsub (Ok un) (Ok uo))
       (vs ndiv
           (vs nmul
               (vmul (Ok un)
                     (vadd (vsub (Ok (np_roll un (-1))) (sv nmul two (Ok un)))
                           (Ok (np_roll un 1))))
               dt)
           (dx * dx)%num).

Definition jacobian_u (xx un : array) (dt : num) : res matrix :=
  x1 ← getitem xx 1;
  x0 ← getitem xx 0;
  let dx := (x1 - x0)%num in
  let n := length xx in
  for_range (jacobian_row n dx dt (getitem un)) (seq 0 n) (np_zeros2 n n).

(** [np.matmul(M, v)] for a matrix and a one-dimensional array *)
Definition np_matmul (M : matrix) (v : array) : res array :=
  if forallb (fun row => length row =? length v) M
  then Ok (map (fun row => np_sum (zip_with nmul row v)) M)
  else Raise ValueError.

(** What the solver carries from one line to the next: the result arrays,
    the guess [ug], the last iterate [un] (unbound until the first Newton
    iteration of the run), the error and the iteration counter. *)
Record nr_state := {
  nr_t : array;
  nr_unnt : list array;
  nr_errt : array;
  nr_countt : list nat;
  nr_ug : array;
  nr_un : option array;
  nr_err : num;
  nr_count : nat
}.

Section Newton.
(** [np.linalg.inv] is LAPACK's; the solver is embedded over any inverse
    routine. *)
Variable linalg_inv : matrix → res matrix.

Section Scheme.
(** [jac ug] and [ff ug uo] are [jacobian] and [NR_f], or [jacobian_u]
    and [NR_f_u], closed over the grid and the step size. *)
Variable jac : array → res matrix.
Variable ff : array → array → res array.
Variables (N : nat) (toll : num) (ncount : nat).
Variables (bnd_type : bnd_type) (bnd_limits : nat * nat).

(** One Newton iteration of time step [it]. *)
Definition NR_iteration (it : nat) (uo : array) (s : nr_state) : res nr_state :=
  let ug := nr_ug s in
  J ← jac ug;
  ff1 ← ff ug uo;
  Jinv ← linalg_inv J;
  un ← vsub (Ok ug) (np_matmul Jinv ff1);
  e ← vdiv (vabs (vsub (Ok un) (Ok ug))) (vs nadd (vabs (Ok un)) toll);
  err ← np_max e;
  errt ← setitem (nr_errt s) it err;
  let count := nr_count s + 1 in
  countt ← (if it <? length (nr_countt s)
            then Ok (<[it := count]> (nr_countt s)) else Raise IndexError);
  un ← fix_boundaries un bnd_limits bnd_type;
  Ok {| nr_t := nr_t s; nr_unnt := nr_unnt s; nr_errt := errt;
        nr_countt := countt; nr_ug := un; nr_un := Some un;
        nr_err := err; nr_count := count |}.

(** [while (err >= toll) and (count < ncount)], with
    [remaining = ncount - count]. *)
Fixpoint NR_while (it : nat) (uo : array) (remaining : nat) (s : nr_state)
  : res nr_state :=
  match remaining with
  | 0 => Ok s
  | S remaining' =>
      if nge (nr_err s) toll
      then s' ← NR_iteration it uo s; NR_while it uo remaining' s'
      else Ok s
  end.

(** One pass of the loop over time. *)
Definition NR_time_step (dt : num) (it : nat) (s : nr_state) : res nr_state :=
  uo ← get_col (nr_unnt s) (it - 1);
  ug ← get_col (nr_unnt s) (it - 1);
  s ← NR_while it uo ncount
        {| nr_t := nr_t s; nr_unnt := nr_unnt s; nr_errt := nr_errt s;
           nr_countt := nr_countt s; nr_ug := ug; nr_un := nr_un s;
           nr_err := nr_err s; nr_count := 0 |};
  tprev ← getitem (nr_t s) (it - 1);
  t ← setitem (nr_t s) it (tprev + dt)%num;
  un ← (match nr_un s with Some un => Ok un | None => Raise UnboundLocalError end);
  unnt ← set_col N (nr_unnt s) it un;
  Ok {| nr_t := t; nr_unnt := unnt; nr_errt := nr_errt s;
        nr_countt := nr_countt s; nr_ug := nr_ug s; nr_un := nr_un s;
        nr_err := one; nr_count := nr_count s |}.

Definition NR_run (hh : array) (dt : num) (nt : nat)
  : res (array * list array * array * list nat) :=
  unnt ← set_col N (np_zeros2 N nt) 0 hh;
  s ← for_range (NR_time_step dt) (seq 1 (nt - 1))
        {| nr_t := np_zeros nt; nr_unnt := unnt; nr_errt := np_zeros nt;
           nr_countt := replicate nt 0; nr_ug := []; nr_un := None;
           nr_err := one; nr_count := 0 |};
  Ok (nr_t s, nr_unnt s, nr_errt s, nr_countt s).
End Scheme.

Definition Newton_Raphson (xx hh : array) (a dt : num) (nt : nat) (toll : num)
    (ncount : nat) (bnd_type : bnd_type) (bnd_limits : nat * nat) :=
  NR_run (fun ug => jacobian xx ug a dt) (fun ug uo => NR_f xx ug uo a dt)
         (length xx) toll ncount bnd_type bnd_limits hh dt nt.

Definition Newton_Raphson_u (xx hh : array) (dt : num) (nt : nat) (toll : num)
    (ncount : nat) (bnd_type : bnd_type) (bnd_limits : nat * nat) :=
  NR_run (fun ug => jacobian_u xx ug dt) (fun ug uo => NR_f_u xx ug uo dt)
         (length xx) toll ncount bnd_type bnd_limits hh dt nt.
End Newton.

(** ** Hyman predictor-corrector *)

(** The least magnitude that rounds to an infinity in float64,
    [2^1024 - 2^970], and a magnitude that stays inside the float range with
    room for the rounding of the operands, [2^1023]. *)
Definition float_overflow : Qc := Q2Qc (inject_Z (2 ^ 1024 - 2 ^ 970)).
Definition float_safe : Qc := Q2Qc (inject_Z (2 ^ 1023)).

(** A finite value that leaves the float range becomes the infinity of its
    sign. *)
Definition to_float (x : num) : num :=
  match x with
  | Fin q => if nle (Fin float_overflow) (nabs x) then signed_inf q else x
  | _ => x
  end.

(** Division of two Python floats: a zero divisor raises; a quotient that
    leaves the float range is an infinity and raises nothing. *)
Definition py_div (x y : num) : res num :=
  if num_eqb y zero then Raise ZeroDivisionError else Ok (to_float (x / y))%num.

(** [x**2] for a Python float: a finite [x] whose square leaves the float
    range raises; an infinity or a NaN passes through. *)
Definition py_square (x : num) : res num :=
  match x with
  | Fin q => if nle (Fin float_overflow) (Fin (q * q)%Qc) then Raise OverflowError
             else Ok (x * x)%num
  | _ => Ok (x * x)%num
  end.

(** The numpy generations: 1.x (from 1.25 on) and 2.x. *)
Inductive numpy_version := Numpy_1 | Numpy_2.

Definition hyman_corr (f fsav dfdt : array) (c2 : num) : res array :=
  vadd (Ok fsav) (sv nmul c2 (Ok dfdt)).

Definition hyman_pred (f fold dfdt : array) (a1 b1 a2 b2 : num)
  : res (array * array * array) :=
  let fsav := f in
  tempvar ← vadd (vadd (Ok f) (sv nmul a1 (vsub (Ok fold) (Ok f))))
                 (sv nmul b1 (Ok dfdt));
  let fold := fsav in
  fsav ← vadd (vadd (Ok tempvar) (sv nmul a2 (vsub (Ok fsav) (Ok tempvar))))
              (sv nmul b2 (Ok dfdt));
  let f := tempvar in
  Ok (f, fold, fsav).

(** [fold] and [dtold] default to [None].  The test [np.any(fold) == None]
    fails for every array.  For [fold = None] it depends on numpy: in 1.x
    [np.any(None)] is [None] and the test holds; in 2.x [np.any(None)] raises
    [TypeError].  The first call to [step_adv_burgers] leaves [cfl_cut] at
    its default 0.98, the second passes [hyman]'s own.  [dth] and [dtold]
    are Python floats: a division by zero and the square of a finite ratio
    that overflows raise. *)
Definition hyman (numpy : numpy_version) (xx f : array) (dth : num) (a : coef)
    (fold : option array) (dtold : option num) (cfl_cut : num)
    (ddx : deriv_op) (bnd_type : bnd_type) (bnd_limits : nat * nat)
  : res (array * array * num) :=
  '(dt, u1_temp) ← step_adv_burgers xx f a (fin 49 50) ddx;
  '(f, fold) ←
    match fold with
    | None =>
        match numpy with
        | Numpy_2 => Raise TypeError
        | Numpy_1 =>
            let fold := f in
            f ← vadd (vs ndiv (vadd (Ok (np_roll f 1)) (Ok (np_roll f (-1)))) two)
                     (vs nmul (Ok u1_temp) dth);
            Ok (f, fold)
        end
    | Some fold =>
        dtold ← (match dtold with Some d => Ok d | None => Raise TypeError end);
        ratio ← py_div dth dtold;
        a1 ← py_square ratio;
        let b1 := (dth * (one + ratio))%num in
        a2 ← py_div (two * (one + ratio))%num (two + three * ratio)%num;
        r2 ← py_square ratio;
        b2 ← py_div (dth * (one + r2))%num (two + three * ratio)%num;
        c2 ← py_div (dth * (one + ratio))%num (two + three * ratio)%num;
        '(f, fold, fsav) ← hyman_pred f fold u1_temp a1 b1 a2 b2;
        f ← fix_boundaries f bnd_limits bnd_type;
        '(dt, u1_temp) ← step_adv_burgers xx f a cfl_cut ddx;
        f ← hyman_corr f fsav u1_temp c2;
        Ok (f, fold)
    end;
  f ← fix_boundaries f bnd_limits bnd_type;
  let dtold := dth in
  Ok (f, fold, dtold).

(** ** Predicates of the statements *)

Definition npos (v : num) : bool := nlt zero v.

(** A grid as the specification wants it: finite and strictly increasing. *)
Fixpoint increasing (x : array) : bool :=
  match x with
  | a :: (b :: _) as tl => nlt a b && increasing tl
  | _ => true
  end.

Definition finite_array (x : array) : bool := forallb is_finite x.

(** Step [i] of a run, as the result arrays record it: column [i] went
    through [step], the candidate through the boundary fix, and the outcome
    sits in column [i+1] with the time advanced by the step size. *)
Definition step_recorded (step : array → res (num * array)) (bnd_type : bnd_type)
    (bnd_limits : nat * nat) (t : array) (unnt : list array) (i : nat) : Prop :=
  ∃ u dt u_next padded ti,
    unnt !! i = Some u ∧
    step u = Ok (dt, u_next) ∧
    fix_boundaries u_next bnd_limits bnd_type = Ok padded ∧
    unnt !! (i + 1) = Some padded ∧
    t !! i = Some ti ∧
    t !! (i + 1) = Some (ti + dt)%num.

(** A derivative operator that, like the three stencils, raises nothing and
    returns one value per grid point. *)
Definition well_shaped (ddx : deriv_op) : Prop :=
  ∀ xx hh, length hh = length xx →
           ∃ r, ddx xx hh = Ok r ∧ length r = length xx.

(** A coefficient that broadcasts against [N] grid points. *)
Definition coef_fits (N : nat) (a : coef) : Prop :=
  match a with Scalar _ => True | PerPoint cs => length cs = N end.

(** Sample inputs: the grid [0, 1, 2] and the field [1, 2, 3]. *)
Definition grid3 : array := [zero; one; two].
Definition field3 : array := [one; two; three].

(** Rational counterparts of the operations on finite numbers. *)
Definition qabs (q : Qc) : Qc :=
  match (q ?= 0)%Qc with Lt => (- q)%Qc | _ => q end.
Definition qmax (p q : Qc) : Qc :=
  match (p ?= q)%Qc with Gt => p | _ => q end.
Definition qsum (l : list Qc) : Qc := foldr Qcplus (Q2Qc 0) l.

(** The wave speeds and the flux differences of [Rie_u_next] on a column of
    rationals [us], for a spacing [d0]. *)
Definition Rie_v_a_q (us : list Qc) : list Qc :=
  zip_with qmax (map qabs us) (map qabs (np_roll us (-1))).

Definition Rie_F_plus05_q (us : list Qc) : list Qc :=
  let sq := fun q : Qc => (q * q)%Qc in
  let F_L := map (Qcmult (qc 1 2)) (map sq us) in
  let F_R := map (Qcmult (qc 1 2)) (map sq (np_roll us (-1))) in
  zip_with Qcminus
    (map (Qcmult (qc 1 2)) (zip_with Qcplus F_L F_R))
    (zip_with Qcmult (map (Qcmult (qc 1 2)) (Rie_v_a_q us))
                     (zip_with Qcminus (np_roll us (-1)) us)).

Definition Rie_F_int_q (d0 : Qc) (us : list Qc) : list Qc :=
  map (fun q => (q / d0)%Qc)
      (zip_with Qcminus (Rie_F_plus05_q us) (np_roll (Rie_F_plus05_q us) 1)).

(** An [N] by [N] matrix. *)
Definition is_square (N : nat) (M : matrix) : Prop :=
  length M = N ∧ Forall (fun row => length row = N) M.

(** What [np.linalg.inv] is assumed to do: the inverse of a square matrix
    has the same shape, and the only exception is [LinAlgError]. *)
Definition inv_routine (linalg_inv : matrix → res matrix) : Prop :=
  ∀ N M, is_square N M →
    linalg_inv M = Raise LinAlgError ∨ ∃ M', linalg_inv M = Ok M' ∧ is_square N M'.

(** One Newton iteration, as a relation: from the previous column [uo] and
    the guess [ug] it computes the error [e] and, after the boundary fix,
    the next iterate [padded]. *)
Definition newton_update (linalg_inv : matrix → res matrix)
    (jac : array → res matrix) (ff : array → array → res array) (toll : num)
    (bnd_type : bnd_type) (bnd_limits : nat * nat)
    (uo ug : array) (e : num) (padded : array) : Prop :=
  ∃ J ff1 Jinv un errs,
    jac ug = Ok J ∧ ff ug uo = Ok ff1 ∧ linalg_inv J = Ok Jinv ∧
    vsub (Ok ug) (np_matmul Jinv ff1) = Ok un ∧
    vdiv (vabs (vsub (Ok un) (Ok ug))) (vs nadd (vabs (Ok un)) toll) = Ok errs ∧
    np_max errs = Ok e ∧
    fix_boundaries un bnd_limits bnd_type = Ok padded.

(** Time step [it] of the solver, as the result arrays record it: [k]
    Newton iterations were run, at least one and at most [ncount]; the last
    of them produced the column stored in [unnt[:, it]] and the error stored
    in [errt[it]]; the loop stopped because the cap was reached or the error
    fell below [toll]; and the time advanced by [dt]. *)
Definition NR_step_recorded (linalg_inv : matrix → res matrix)
    (jac : array → res matrix) (ff : array → array → res array) (toll : num)
    (ncount : nat) (bnd_type : bnd_type) (bnd_limits : nat * nat) (dt : num)
    (t : array) (unnt : list array) (errt : array) (countt : list nat)
    (it : nat) : Prop :=
  ∃ uo ug e padded k tp,
    unnt !! (it - 1) = Some uo ∧
    newton_update linalg_inv jac ff toll bnd_type bnd_limits uo ug e padded ∧
    unnt !! it = Some padded ∧
    errt !! it = Some e ∧
    countt !! it = Some k ∧ 1 ≤ k ≤ ncount ∧
    (k = ncount ∨ nge e toll = false) ∧
    t !! (it - 1) = Some tp ∧ t !! it = Some (tp + dt)%num.

(** A run of the solver either stops on a singular Jacobian or returns the
    four arrays, of length [nt], in which every time step [1 .. nt-1] is
    recorded. *)
Definition NR_diagnostics (linalg_inv : matrix → res matrix)
    (jac : array → res matrix) (ff : array → array → res array) (N : nat)
    (toll : num) (ncount : nat) (bnd_type : bnd_type) (bnd_limits : nat * nat)
    (dt : num) (nt : nat) (result : res (array * list array * array * list nat))
  : Prop :=
  result = Raise LinAlgError ∨
  ∃ t unnt errt countt,
    result = Ok (t, unnt, errt, countt) ∧
    length t = nt ∧ length unnt = nt ∧ length errt = nt ∧ length countt = nt ∧
    Forall (fun c => length c = N) unnt ∧
    ∀ it, 1 ≤ it < nt →
      NR_step_recorded linalg_inv jac ff toll ncount bnd_type bnd_limits dt
                       t unnt errt countt it.

(** An inverse routine for closed evaluations: Gauss-Jordan elimination on
    the matrix extended by the identity, with the first usable pivot; a
    matrix without a pivot is singular. *)
Definition unit_row (n i : nat) : array :=
  map (fun k => if k =? i then one else zero) (seq 0 n).

Fixpoint find_pivot (col : nat) (rows : matrix) (i : nat) : option nat :=
  match rows with
  | [] => None
  | row :: rows' =>
      if (col <=? i) && negb (num_eqb (row !!! col) zero) then Some i
      else find_pivot col rows' (S i)
  end.

Definition eliminate (col : nat) (M : matrix) : option matrix :=
  p ← find_pivot col M 0;
  let M := <[col := M !!! p]> (<[p := M !!! col]> M) in
  let pivot_row := M !!! col in
  let pivot_row := map (fun x => (x / pivot_row !!! col)%num) pivot_row in
  Some (imap (fun i row =>
                if i =? col then pivot_row
                else zip_with (fun x y => (x - row !!! col * y)%num) row pivot_row)
             M).

Definition gauss_jordan (M : matrix) : option matrix :=
  let n := length M in
  M ← foldl (fun acc col => M ← acc; eliminate col M)
            (Some (imap (fun i row => row ++ unit_row n i) M)) (seq 0 n);
  Some (map (drop n) M).

Definition gauss_inv (M : matrix) : res matrix :=
  match gauss_jordan M with
  | Some M' =>
      if (length M' =? length M) && forallb (fun row => length row =? length M) M'
      then Ok M' else Raise LinAlgError
  | None => Raise LinAlgError
  end.

(** A uniform grid: [N] points from [x0] with spacing [h]. *)
Fixpoint nat_to_Qc (n : nat) : Qc :=
  match n with 0 => Q2Qc 0 | S k => (nat_to_Qc k + Q2Qc 1)%Qc end.

Definition uniform_grid (x0 h : Qc) (N : nat) : array :=
  map (fun i => Fin (x0 + nat_to_Qc i * h)%Qc) (seq 0 N).

(** ** Further steppers
    The remaining explicit steppers share the head and the loop of
    [evolv_adv_burgers]; inside the loop the column read [unnt[:, i]] cannot
    fail, so a [step] that evaluates [xx[1] - xx[0]] first raises what the
    loop body raises. *)

(** [u_next = unnt[:, i] + rhs * dt], the field being its own coefficient. *)
Definition uadv_u_next (xx : array) (cfl_cut : num) (ddx : deriv_op) (u : array)
  : res (num * array) :=
  '(dt, rhs) ← step_uadv_burgers xx u cfl_cut ddx;
  u_next ← vadd (Ok u) (vs nmul (Ok rhs) dt);
  Ok (dt, u_next).

Definition evolv_uadv_burgers (xx hh : array) (nt : nat) (cfl_cut : num)
    (ddx : deriv_op) (bnd_type : bnd_type) (bnd_limits : nat * nat)
  : res (array * list array) :=
  s ← init_series (length xx) nt hh;
  march (length xx) nt bnd_type bnd_limits (uadv_u_next xx cfl_cut ddx) s.

(** [u_next = 0.5 * (np.roll(u, -1) + np.roll(u, 1)) + rhs * dt] *)
Definition Lax_adv_step (xx : array) (a : coef) (cfl_cut : num) (ddx : deriv_op)
    (u : array) : res (num * array) :=
  '(dt, rhs) ← step_adv_burgers xx u a cfl_cut ddx;
  u_next ← vadd (sv nmul half (vadd (Ok (np_roll u (-1))) (Ok (np_roll u 1))))
                (vs nmul (Ok rhs) dt);
  Ok (dt, u_next).

Definition evolv_Lax_adv_burgers (xx hh : array) (nt : nat) (a : coef)
    (cfl_cut : num) (ddx : deriv_op) (bnd_type : bnd_type) (bnd_limits : nat * nat)
  : res (array * list array) :=
  s ← init_series (length xx) nt hh;
  march (length xx) nt bnd_type bnd_limits (Lax_adv_step xx a cfl_cut ddx) s.

(** The diffusive right-hand side,
<<
    dx = xx[1] - xx[0]
    rhs = a * (np.roll(hh, -1) - 2 * hh + np.roll(hh, 1)) / dx**2
>>
    [ddx] is a parameter that the body never reads. *)
Definition step_diff_burgers (xx hh : array) (a : coef) (ddx : deriv_op)
  : res array :=
  x1 ← getitem xx 1;
  x0 ← getitem xx 0;
  let dx := (x1 - x0)%num in
  vs ndiv (coef_v nmul a
             (vadd (vsub (Ok (np_roll hh (-1))) (sv nmul two (Ok hh)))
                   (Ok (np_roll hh 1))))
          (dx * dx)%num.

(** One pass of the loop of [evolve] up to the candidate: the unused
    [dx], the right-hand side, [dt = cfl_diff_burger(a, xx) * cfl_cut] and
    [u_next = unnt[:, i] + rhs * dt]. *)
Definition diff_u_next (xx : array) (a : coef) (cfl_cut : num) (u : array)
  : res (num * array) :=
  x1 ← getitem xx 1;
  x0 ← getitem xx 0;
  rhs ← step_diff_burgers xx u a deriv_cent;
  c ← cfl_diff_burger a xx;
  let dt := (c * cfl_cut)%num in
  u_next ← vadd (Ok u) (vs nmul (Ok rhs) dt);
  Ok (dt, u_next).

Definition evolve (xx hh : array) (a : coef) (nt : nat) (cfl_cut : num)
    (bnd_type : bnd_type) (bnd_limits : nat * nat)
  : res (array * list array) :=
  s ← init_series (length xx) nt hh;
  march (length xx) nt bnd_type bnd_limits (diff_u_next xx a cfl_cut) s.

(** ** Operator splitting *)

(** The Lax update that the splitting steppers write out by hand,
<<
    0.5 * (np.roll(u, -1) + np.roll(u, 1))
      - ((c*dt) / den * (np.roll(u, -1) - np.roll(u, 1)))
>>
    for a coefficient [c] and a denominator [den] ([2*dx] or [4*dx]). *)
Definition LL_half_step (c : coef) (dt den : num) (u : array) : res array :=
  vsub (sv nmul half (vadd (Ok (np_roll u (-1))) (Ok (np_roll u 1))))
       (coef_v nmul (coef_map (fun x => (x * dt / den)%num) c)
                    (vsub (Ok (np_roll u (-1))) (Ok (np_roll u 1)))).

(** One pass of the loop of [ops_Lax_LL_Add] up to the candidate.  The two
    right-hand sides are computed and left unused. *)
Definition Add_u_next (xx : array) (a b : coef) (cfl_cut : num) (ddx : deriv_op)
    (u : array) : res (num * array) :=
  '(dt_u, rhs_u) ← step_adv_burgers xx u a cfl_cut ddx;
  '(dt_v, rhs_v) ← step_adv_burgers xx u b cfl_cut ddx;
  m ← np_min [dt_v; dt_u];
  let dt := (m * half)%num in
  x1 ← getitem xx 1;
  x0 ← getitem xx 0;
  let dx := (x1 - x0)%num in
  unn ← LL_half_step a dt (two * dx)%num u;
  vnn ← LL_half_step b dt (two * dx)%num u;
  u_next ← vsub (vadd (Ok unn) (Ok vnn))
                (vadd (sv nmul half (Ok (np_roll u (-1))))
                      (sv nmul half (Ok (np_roll u 1))));
  Ok (dt, u_next).

Definition ops_Lax_LL_Add (xx hh : array) (nt : nat) (a b : coef) (cfl_cut : num)
    (ddx : deriv_op) (bnd_type : bnd_type) (bnd_limits : nat * nat)
  : res (array * list array) :=
  s ← init_series (length xx) nt hh;
  march (length xx) nt bnd_type bnd_limits (Add_u_next xx a b cfl_cut ddx) s.

(** The two Lax updates of one pass of [ops_Lax_LL_Lie], the second applied
    to the outcome of the first. *)
Definition Lie_u_next (a b : coef) (dt den : num) (v : array) : res array :=
  un ← LL_half_step a dt den v;
  LL_half_step b dt den un.

(** One pass of the loop of [ops_Lax_LL_Lie].  The pass overwrites column
    [i] of both matrices before it fills column [i+1] of [vnnt]:
<<
        unnt[:, i] = 0.5 * (np.roll(vnnt[:, i], -1) + ...) - ...
        vnnt[:, i] = 0.5 * (np.roll(unnt[:, i], -1) + ...) - ...
        u_next = vnnt[:, i]
        ...
        vnnt[:, i+1] = np.pad(u_next_temp, bnd_limits, bnd_type)
>> *)
Definition Lie_body (xx : array) (a b : coef) (cfl_cut : num)
    (bnd_type : bnd_type) (bnd_limits : nat * nat)
    (i : nat) (s : array * list array * list array)
  : res (array * list array * list array) :=
  let '(t, unnt, vnnt) := s in
  ca ← cfl_adv_burger a xx;
  let dt_u := (ca * cfl_cut)%num in
  cb ← cfl_adv_burger b xx;
  let dt_v := (cb * cfl_cut)%num in
  m ← np_min [dt_u; dt_v];
  let dt := (m * half)%num in
  x1 ← getitem xx 1;
  x0 ← getitem xx 0;
  let dx := (x1 - x0)%num in
  v ← get_col vnnt i;
  un ← LL_half_step a dt (two * dx)%num v;
  unnt ← set_col (length xx) unnt i un;
  u ← get_col unnt i;
  vn ← LL_half_step b dt (two * dx)%num u;
  vnnt ← set_col (length xx) vnnt i vn;
  u_next ← get_col vnnt i;
  padded ← fix_boundaries u_next bnd_limits bnd_type;
  vnnt ← set_col (length xx) vnnt (i + 1) padded;
  ti ← getitem t i;
  t ← setitem t (i + 1) (ti + dt)%num;
  Ok (t, unnt, vnnt).

(** [ddx] is a parameter that the body never reads; the function returns
    [t] and [vnnt]. *)
Definition ops_Lax_LL_Lie (xx hh : array) (nt : nat) (a b : coef) (cfl_cut : num)
    (ddx : deriv_op) (bnd_type : bnd_type) (bnd_limits : nat * nat)
  : res (array * list array) :=
  let t := np_zeros nt in
  unnt ← set_col (length xx) (np_zeros2 (length xx) nt) 0 hh;
  vnnt ← set_col (length xx) (np_zeros2 (length xx) nt) 0 hh;
  '(t, unnt, vnnt) ← for_range (Lie_body xx a b cfl_cut bnd_type bnd_limits)
                               (seq 0 (nt - 1)) (t, unnt, vnnt);
  Ok (t, vnnt).

(** ** Flux-limited scheme *)

(** One row of [mins] in [flux_limiter]:
    [np.min((np.min(theta * r), np.min((1. + r)/2.), theta))]. *)
Definition flux_limiter_row (theta : num) (r : array) : res num :=
  m1 ← np_min (map (nmul theta) r);
  m2 ← np_min (map (fun x => ((one + x) / two)%num) r);
  np_min [m1; m2; theta].

(** [flux_limiter], the closure of [evolve_Lax_Rie_uadv_burgers]: each of the
    two rows of [mins] is filled with one number, and
    [phi = np.max((0, np.max(mins)))]. *)
Definition flux_limiter (r : array) : res num :=
  row0 ← flux_limiter_row one r;
  row1 ← flux_limiter_row two r;
  mx ← np_max (replicate (length r) row0 ++ replicate (length r) row1);
  np_max [zero; mx].

(** One pass of the loop of [evolve_Lax_Rie_uadv_burgers] up to the
    candidate. *)
Definition Lax_Rie_u_next (xx : array) (dx : num) (u : array) : res (num * array) :=
  let u_L := np_roll u 0 in
  let u_R := np_roll u (-1) in
  F_L ← sv nmul half (vsquare (Ok u_L));
  F_R ← sv nmul half (vsquare (Ok u_R));
  v_a ← lift2 nmaximum (vabs (Ok u_L)) (vabs (Ok u_R));
  dt ← cfl_adv_burger (PerPoint v_a) xx;
  F_Rie ← vsub (sv nmul half (vadd (Ok F_L) (Ok F_R)))
               (vmul (sv nmul half (Ok v_a)) (vsub (Ok u_R) (Ok u_L)));
  F_Lax ← Lax_u_next xx u dt;
  r ← vdiv (vsub (Ok u_L) (Ok (np_roll u 1))) (vadd (Ok u_R) (Ok u_L));
  phi ← flux_limiter r;
  F_Lax_Rie ← vadd (Ok F_Rie) (sv nmul phi (vsub (Ok F_Lax) (Ok F_Rie)));
  u_next ← vsub (Ok u)
                (vs ndiv (sv nmul dt (vsub (Ok F_Lax_Rie) (Ok (np_roll F_Lax_Rie 1))))
                         dx);
  Ok (dt, u_next).

(** [cfl_cut] and [ddx] are parameters that the body never reads. *)
Definition evolve_Lax_Rie_uadv_burgers (xx hh : array) (nt : nat) (cfl_cut : num)
    (ddx : deriv_op) (bnd_type : bnd_type) (bnd_limits : nat * nat)
  : res (array * list array) :=
  s ← init_series (length xx) nt hh;
  x1 ← getitem xx 1;
  x0 ← getitem xx 0;
  let dx := (x1 - x0)%num in
  march (length xx) nt bnd_type bnd_limits (Lax_Rie_u_next xx dx) s.

(** No entry is a NaN. *)
Definition nan_free (u : array) : bool :=
  forallb (fun v => negb (num_eqb v NaN)) u.

(** Every entry is a finite number between [m] and [M]. *)
Definition within (m M : Qc) (u : array) : bool :=
  forallb (fun v => nle (Fin m) v && nle v (Fin M)) u.

(** A value of magnitude at most [2^1023]: a float64 operation whose exact
    result is such a value stays finite, whatever the rounding of its
    operands. *)
Definition in_float_range (v : num) : bool := nle (nabs v) (Fin float_safe).

(** A grid on which no difference of two points overflows: twice every
    point is in the float range. *)
Definition grid_in_float_range (xx : array) : bool :=
  forallb (fun x => in_float_range (x + x)) xx.

(** * Verification *)

(** Arithmetic stays folded under [simpl]. *)
#[global] Arguments nadd : simpl never.
#[global] Arguments nsub : simpl never.
#[global] Arguments nmul : simpl never.
#[global] Arguments ndiv : simpl never.
#[global] Arguments nopp : simpl never.
#[global] Arguments nabs : simpl never.
#[global] Arguments nmaximum : simpl never.
#[global] Arguments nminimum : simpl never.
#[global] Arguments nle : simpl never.
#[global] Arguments nlt : simpl never.
#[global] Arguments npos : simpl never.
#[global] Arguments zero : simpl never.
#[global] Arguments one : simpl never.
#[global] Arguments two : simpl never.
#[global] Arguments three : simpl never.
#[global] Arguments half : simpl never.
#[global] Arguments fin : simpl never.
#[global] Arguments np_roll : simpl never.
#[global] Arguments wrap_index : simpl never.

Lemma Qc_eq_bool_refl (q : Qc) : Qc_eq_bool q q = true.
Proof. unfold Qc_eq_bool. destruct (Qcanon.Qc_eq_dec q q); [reflexivity | contradiction]. Qed.

Lemma num_eqb_eq (x y : num) : num_eqb x y = true ↔ x = y.
Proof.
  split.
  - destruct x, y; simpl; try discriminate; try reflexivity.
    intros H. f_equal. by apply Qc_eq_bool_correct.
  - intros ->. destruct y; simpl; auto using Qc_eq_bool_refl.
Qed.

Lemma list_eqb_eq {A} (eqb : A → A → bool) (u v : list A) :
  (∀ x y, eqb x y = true ↔ x = y) → list_eqb eqb u v = true ↔ u = v.
Proof.
  intros Heqb. unfold list_eqb. revert v.
  induction u as [|x u IH]; intros [|y v]; simpl; try done.
  rewrite andb_true_iff, Nat.eqb_eq, andb_true_iff, Heqb.
  specialize (IH v). rewrite andb_true_iff, Nat.eqb_eq in IH. split.
  - intros (Hl & -> & Hf). f_equal. apply IH. split; [lia | done].
  - intros [= -> ->]. split; [done|]. split; [done|]. by apply IH.
Qed.

Lemma array_eqb_eq (u v : array) : array_eqb u v = true ↔ u = v.
Proof. apply list_eqb_eq, num_eqb_eq. Qed.

Lemma series_eqb_eq (p q : array * list array) : series_eqb p q = true ↔ p = q.
Proof.
  unfold series_eqb. rewrite andb_true_iff, array_eqb_eq.
  rewrite (list_eqb_eq array_eqb) by apply array_eqb_eq.
  destruct p, q; simpl. split; [by intros [-> ->] | by intros [= -> ->]].
Qed.

Lemma returns_eq {A} (eqb : A → A → bool) (m : res A) (a : A) :
  (∀ x y, eqb x y = true ↔ x = y) → returns eqb m a = true → m = Ok a.
Proof. intros Heqb. destruct m; simpl; [|done]. by intros ->%Heqb. Qed.

Lemma slice_margins_length u l r :
  length (slice_margins u (l, r)) = length u - r - l.
Proof.
  unfold slice_margins; simpl. destruct (0 <? r) eqn:E.
  - rewrite length_drop, length_take. lia.
  - apply Nat.ltb_ge in E. rewrite length_drop. lia.
Qed.

Lemma slice_margins_lookup u l r j :
  j < length u - r - l → slice_margins u (l, r) !! j = u !! (l + j).
Proof.
  intros Hj. unfold slice_margins; simpl. destruct (0 <? r).
  - rewrite lookup_drop, lookup_take_lt by lia. done.
  - by rewrite lookup_drop.
Qed.

Lemma wrap_index_lt l n k : 0 < n → wrap_index l n k < n.
Proof. intros Hn. unfold wrap_index. 
  pose proof (Z.mod_pos_bound (Z.of_nat k - Z.of_nat l) (Z.of_nat n)). lia. Qed.

Lemma wrap_index_inner l n k : l ≤ k < l + n → wrap_index l n k = k - l.
Proof. intros Hk. unfold wrap_index. rewrite Z.mod_small by lia. lia. Qed.

Lemma np_pad_wrap_spec a l r :
  a ≠ [] →
  ∃ v, np_pad a (l, r) Wrap = Ok v ∧ length v = l + length a + r ∧
       ∀ k, k < l + length a + r → v !! k = a !! wrap_index l (length a) k.
Proof.
  intros Ha. destruct a as [|x a']; [done|]. simpl np_pad.
  eexists; split; [reflexivity|]. split.
  - by rewrite length_map, length_seq.
  - intros k Hk. rewrite list_lookup_fmap, lookup_seq_lt by done. simpl.
    f_equal. symmetry. apply list_lookup_lookup_total_lt.
    apply wrap_index_lt. simpl. lia.
Qed.

(** ** Boundary policy (claim C8) *)

(** C8, as stated, fails: a margin of at least half the width is not
    rejected.  With [N = 4] and margins [(2, 0)] the boundary fix returns an
    array of width 4. *)
Lemma fix_boundaries_accepts_half_width_margin :
  4 / 2 ≤ 2 ∧
  fix_boundaries [one; two; three; fin 4 1] (2, 0) Wrap
  = Ok [three; fin 4 1; three; fin 4 1].
Proof. split; [simpl; lia | reflexivity]. Qed.

(** C8, amended: for every candidate array of full width [N] and every
    margin pair [(l, r)] with [l + r < N], the boundary fix in 'wrap' mode
    raises nothing and returns an array of width exactly [N]; entry [k] of
    the result is entry [(k - l) mod (N - l - r)] of the retained slice
    [u[l : N - r]], so the retained entries stay in place and the margins
    continue them cyclically. *)
Theorem fix_boundaries_wrap_width (u : array) (l r : nat) :
  l + r < length u →
  ∃ v, fix_boundaries u (l, r) Wrap = Ok v ∧
       length v = length u ∧
       (∀ k, k < length u →
             v !! k = u !! (l + wrap_index l (length u - r - l) k)) ∧
       (∀ k, l ≤ k < length u - r → v !! k = u !! k).
Proof.
  intros Hlr. unfold fix_boundaries.
  pose proof (slice_margins_length u l r) as Hlen.
  destruct (np_pad_wrap_spec (slice_margins u (l, r)) l r) as (v & Hv & Hvl & Hvk).
  { intros E. rewrite E in Hlen. simpl in Hlen. lia. }
  exists v. split; [done|]. rewrite Hlen in Hvl, Hvk.
  assert (Hk : ∀ k, k < length u →
             v !! k = u !! (l + wrap_index l (length u - r - l) k)).
  { intros k Hk. rewrite Hvk by lia. apply slice_margins_lookup.
    apply wrap_index_lt. lia. }
  split; [lia|]. split; [done|].
  intros k Hk'. rewrite Hk by lia. rewrite wrap_index_inner by lia.
  f_equal. lia.
Qed.

Lemma fix_boundaries_wrap_width_witness :
  ∃ v, fix_boundaries [one; two; three; fin 4 1; fin 5 1] (1, 2) Wrap = Ok v ∧
       length v = 5 ∧
       (∀ k, k < 5 →
             v !! k = [one; two; three; fin 4 1; fin 5 1]
                        !! (1 + wrap_index 1 (5 - 2 - 1) k)) ∧
       (∀ k, 1 ≤ k < 5 - 2 → v !! k = [one; two; three; fin 4 1; fin 5 1] !! k).
Proof.
  apply (fix_boundaries_wrap_width [one; two; three; fin 4 1; fin 5 1] 1 2).
  simpl. lia.
Defined.

(** ** Order facts on [num] *)

Ltac num_refl := apply num_eqb_eq; vm_compute; reflexivity.

Lemma nlt_Fin (a b : Qc) : nlt (Fin a) (Fin b) = true ↔ (a < b)%Qc.
Proof.
  unfold nlt, nle. rewrite Qclt_alt, negb_true_iff.
  unfold Qccompare. rewrite <- (Qcompare_antisym a b).
  destruct (Qcompare a b); simpl; split; congruence.
Qed.

Lemma npos_Fin (q : Qc) : npos (Fin q) = true ↔ (0 < q)%Qc.
Proof. unfold npos, zero, fin, qc. apply nlt_Fin. Qed.

Lemma npos_cases v : npos v = true → v = PInf ∨ ∃ q, v = Fin q ∧ (0 < q)%Qc.
Proof.
  destruct v as [q| | |]; try discriminate; [|by left].
  intros H. right. exists q. split; [done|]. by apply npos_Fin.
Qed.

Lemma Qc_pos_compare (q : Qc) : (0 < q)%Qc → (q ?= 0)%Qc = Gt.
Proof. intros H. by apply Qcgt_alt. Qed.

Lemma ndiv_pos_zero v : npos v = true → (v / zero)%num = PInf.
Proof.
  intros [->|(q & -> & Hq)]%npos_cases; [reflexivity|].
  unfold ndiv, zero, fin, qc. rewrite Qc_eq_bool_refl.
  unfold signed_inf. by rewrite Qc_pos_compare.
Qed.

Lemma nsub_pos a b : is_finite a = true → is_finite b = true →
  nlt a b = true → npos (b - a) = true.
Proof.
  destruct a as [p| | |], b as [q| | |]; try discriminate. intros _ _ H.
  apply nlt_Fin in H. apply npos_Fin. by apply Qclt_minus_iff in H.
Qed.

Lemma Qc_half_pos : (0 < / qc 2 1)%Qc.
Proof. reflexivity. Qed.

Lemma ndiv_two_pos v : npos v = true → npos (v / two) = true.
Proof.
  intros [->|(q & -> & Hq)]%npos_cases; [reflexivity|].
  unfold ndiv, two, fin. replace (Qc_eq_bool (qc 2 1) 0) with false by reflexivity.
  apply npos_Fin. unfold Qcdiv.
  rewrite <- (Qcmult_0_l (/ qc 2 1)). apply Qcmult_lt_compat_r; [apply Qc_half_pos | done].
Qed.


Lemma nlt_trans a b c : is_finite b = true →
  nlt a b = true → nlt b c = true → nlt a c = true.
Proof.
  destruct b as [q| | |]; try discriminate. intros _.
  destruct a as [p| | |], c as [r| | |]; try discriminate; try reflexivity.
  rewrite !nlt_Fin. apply Qclt_trans.
Qed.

Lemma increasing_head a x k b :
  finite_array (a :: x) = true → increasing (a :: x) = true →
  x !! k = Some b → nlt a b = true.
Proof.
  revert a k. induction x as [|c x IH]; intros a k Hf Hi Hk; [done|].
  simpl in Hf, Hi. apply andb_prop in Hi as [Hac Hi].
  apply andb_prop in Hf as [Ha Hf].
  destruct k as [|k]; simpl in Hk.
  - by injection Hk as <-.
  - apply nlt_trans with c; [by apply andb_prop in Hf as [? _] | done |].
    by apply (IH c k).
Qed.

Lemma increasing_lookup x i j a b :
  finite_array x = true → increasing x = true → i < j →
  x !! i = Some a → x !! j = Some b → nlt a b = true.
Proof.
  revert i j. induction x as [|c x IH]; intros i j Hf Hi Hij Ha Hb; [done|].
  destruct j as [|j]; [lia|]. destruct i as [|i]; simpl in Ha, Hb.
  - injection Ha as <-. by apply (increasing_head c x j).
  - apply (IH i j); try done; try lia.
    + simpl in Hf. by apply andb_prop in Hf as [_ ?].
    + destruct x; [done|]. simpl in Hi. by apply andb_prop in Hi as [_ ?].
Qed.

Lemma finite_array_lookup x i a :
  finite_array x = true → x !! i = Some a → is_finite a = true.
Proof.
  unfold finite_array. rewrite forallb_forall. intros H Hi.
  apply H. apply list_elem_of_In. by eapply list_elem_of_lookup_2.
Qed.

Lemma grid_diff_pos x i j :
  finite_array x = true → increasing x = true → i < j < length x →
  npos (x !!! j - x !!! i) = true.
Proof.
  intros Hf Hi Hij.
  destruct (lookup_lt_is_Some_2 x i) as [a Ha]; [lia|].
  destruct (lookup_lt_is_Some_2 x j) as [b Hb]; [lia|].
  rewrite (list_lookup_total_correct _ _ _ Ha), (list_lookup_total_correct _ _ _ Hb).
  apply nsub_pos; [by eapply finite_array_lookup..|].
  apply (increasing_lookup x i j); [done | done | lia | done | done].
Qed.

Lemma np_gradient_pos x :
  finite_array x = true → increasing x = true → 2 ≤ length x →
  ∃ dx, np_gradient x = Ok dx ∧ length dx = length x ∧
        Forall (fun v => npos v = true) dx.
Proof.
  intros Hf Hi Hn. unfold np_gradient.
  destruct (length x <? 2) eqn:E; [apply Nat.ltb_lt in E; lia|].
  eexists; split; [reflexivity|]. split; [by rewrite length_map, length_seq|].
  apply Forall_fmap, Forall_seq. intros i Hlt. simpl.
  destruct (i =? 0) eqn:E0; [apply grid_diff_pos; try done; lia|].
  apply Nat.eqb_neq in E0.
  destruct (i =? length x - 1) eqn:E1; [apply grid_diff_pos; try done; lia|].
  apply Nat.eqb_neq in E1.
  apply ndiv_two_pos, grid_diff_pos; try done; lia.
Qed.

(** ** CFL estimators (claims C7 and C3) *)

Lemma broadcast2_same op (x y : array) :
  length x = length y → broadcast2 op x y = Ok (zip_with op x y).
Proof. intros H. unfold broadcast2. by rewrite H, Nat.eqb_refl. Qed.

Lemma np_min_all_PInf (l : array) :
  l ≠ [] → Forall (fun v => v = PInf) l → np_min l = Ok PInf.
Proof.
  destruct l as [|x l]; [done|]. intros _ H. apply Forall_cons in H as [-> H].
  simpl. f_equal. induction H as [|y l -> _ IH]; [done|]. simpl. apply IH.
Qed.

Lemma nabs_zero : nabs zero = zero.
Proof. num_refl. Qed.





(** ** The time-marching loop *)

Lemma bind_Ok {A B} (f : A → res B) (a : A) : (Ok a ≫= f) = f a.
Proof. reflexivity. Qed.

Lemma np_pad_ok (a : array) l r mode :
  a ≠ [] → ∃ v, np_pad a (l, r) mode = Ok v ∧ length v = l + length a + r.
Proof.
  intros Ha. destruct mode.
  - destruct (np_pad_wrap_spec a l r Ha) as (v & ? & ? & _). eauto.
  - destruct a as [|x a']; [done|]. eexists; split; [reflexivity|].
    rewrite !length_app, !length_replicate. lia.
  - eexists; split; [reflexivity|].
    rewrite !length_app, !length_replicate. lia.
Qed.

Lemma fix_boundaries_ok (u : array) l r mode :
  l + r < length u →
  ∃ v, fix_boundaries u (l, r) mode = Ok v ∧ length v = length u.
Proof.
  intros Hlr. unfold fix_boundaries.
  pose proof (slice_margins_length u l r) as Hlen.
  destruct (np_pad_ok (slice_margins u (l, r)) l r mode) as (v & Hv & Hvl).
  { intros E. rewrite E in Hlen. simpl in Hlen. lia. }
  exists v. split; [done | lia].
Qed.

Lemma broadcast_to_same N (v : array) : length v = N → broadcast_to N v = Ok v.
Proof. intros H. unfold broadcast_to. by rewrite H, Nat.eqb_refl. Qed.

Lemma broadcast_to_length N (v w : array) : broadcast_to N v = Ok w → length w = N.
Proof.
  unfold broadcast_to. destruct (length v =? N) eqn:E.
  - apply Nat.eqb_eq in E. by intros [= <-].
  - destruct v as [|x [|??]]; try discriminate. intros [= <-]. apply length_replicate.
Qed.

Lemma for_range_seq {St : Type} (P : nat → St → Prop) (body : nat → St → res St) a m s :
  P a s →
  (∀ i s, a ≤ i < a + m → P i s → ∃ s', body i s = Ok s' ∧ P (i + 1) s') →
  ∃ s', for_range body (seq a m) s = Ok s' ∧ P (a + m) s'.
Proof.
  revert a s. induction m as [|m IH]; intros a s Hs Hbody; simpl.
  - exists s. by rewrite Nat.add_0_r.
  - destruct (Hbody a s) as (s1 & -> & Hs1); [lia | done |]. rewrite bind_Ok.
    destruct (IH (a + 1) s1) as (s' & Hs' & HP).
    + done.
    + intros i s2 Hi. apply Hbody. lia.
    + exists s'. rewrite Nat.add_1_r in Hs'. split; [done|].
      by replace (a + S m) with (a + 1 + m) by lia.
Qed.

Section March.
Variables (N nt : nat) (bnd_type : bnd_type) (l r : nat).
Variable step : array → res (num * array).
Hypothesis margins_fit : l + r < N.
Hypothesis step_total :
  ∀ u, length u = N → ∃ dt v, step u = Ok (dt, v) ∧ length v = N.

(** What holds of the arrays once steps [0 .. k-1] are done. *)
Let series_inv (hh : array) (k : nat) (s : array * list array) : Prop :=
  length s.1 = nt ∧ length s.2 = nt ∧
  Forall (fun c => length c = N) s.2 ∧
  s.1 !! 0 = Some zero ∧ s.2 !! 0 = Some hh ∧
  ∀ i, i < k → step_recorded step bnd_type (l, r) s.1 s.2 i.

Lemma init_series_spec hh :
  length hh = N → 1 ≤ nt →
  ∃ s, init_series N nt hh = Ok s ∧ series_inv hh 0 s.
Proof.
  intros Hh Hnt. unfold init_series, set_col, np_zeros2, np_zeros.
  rewrite length_replicate. destruct (0 <? nt) eqn:E; [|apply Nat.ltb_ge in E; lia].
  rewrite broadcast_to_same by done. simpl. eexists; split; [reflexivity|].
  repeat split; simpl.
  - apply length_replicate.
  - by rewrite length_insert, length_replicate.
  - apply Forall_insert; [|done]. apply Forall_replicate, length_replicate.
  - apply lookup_replicate_2. lia.
  - apply list_lookup_insert_eq. rewrite length_replicate. lia.
  - intros i Hi. lia.
Qed.

Lemma march_body_spec hh k s :
  k + 1 < nt → series_inv hh k s →
  ∃ s', (let '(t, unnt) := s in
         u ← get_col unnt k;
         '(dt, u_next) ← step u;
         store_step N bnd_type (l, r) k t unnt u_next dt) = Ok s' ∧
        series_inv hh (k + 1) s'.
Proof.
  intros Hk. destruct s as [t unnt].
  intros (Ht & Hu & Hall & Ht0 & Hu0 & Hrec). simpl in *.
  destruct (lookup_lt_is_Some_2 unnt k) as [u Huk]; [lia|].
  assert (Hlu : length u = N)
    by exact (Forall_lookup_1 (fun c : array => length c = N) unnt k u Hall Huk).
  destruct (step_total u Hlu) as (dt & v & Hstep & Hlv).
  destruct (fix_boundaries_ok v l r bnd_type) as (p & Hp & Hlp); [lia|].
  destruct (lookup_lt_is_Some_2 t k) as [tk Htk]; [lia|].
  unfold get_col. rewrite Huk, bind_Ok, Hstep, bind_Ok.
  unfold store_step. rewrite Hp, bind_Ok. unfold set_col.
  destruct (k + 1 <? length unnt) eqn:E1; [|apply Nat.ltb_ge in E1; lia].
  rewrite broadcast_to_same by lia. rewrite !bind_Ok.
  unfold getitem. rewrite Htk, bind_Ok. unfold setitem.
  destruct (k + 1 <? length t) eqn:E2; [|apply Nat.ltb_ge in E2; lia].
  rewrite bind_Ok. eexists; split; [reflexivity|].
  repeat split; simpl.
  - by rewrite length_insert.
  - by rewrite length_insert.
  - apply Forall_insert; [done | lia].
  - rewrite list_lookup_insert_ne by lia. done.
  - rewrite list_lookup_insert_ne by lia. done.
  - intros i Hi. destruct (decide (i = k)) as [->|Hne].
    + exists u, dt, v, p, tk.
      rewrite !list_lookup_insert_eq by lia.
      rewrite !list_lookup_insert_ne by lia. done.
    + destruct (Hrec i) as (u' & dt' & v' & p' & ti & ? & ? & ? & ? & ? & ?); [lia|].
      exists u', dt', v', p', ti.
      rewrite !list_lookup_insert_ne by lia. done.
Qed.

Lemma march_spec hh :
  length hh = N → 1 ≤ nt →
  ∃ t unnt,
    (s ← init_series N nt hh; march N nt bnd_type (l, r) step s) = Ok (t, unnt) ∧
    length t = nt ∧ length unnt = nt ∧
    Forall (fun c => length c = N) unnt ∧
    t !! 0 = Some zero ∧ unnt !! 0 = Some hh ∧
    ∀ i, i + 1 < nt → step_recorded step bnd_type (l, r) t unnt i.
Proof.
  intros Hh Hnt.
  destruct (init_series_spec hh Hh Hnt) as (s0 & -> & H0). rewrite bind_Ok.
  destruct (for_range_seq (series_inv hh)
              (fun i '(t, unnt) =>
                 u ← get_col unnt i;
                 '(dt, u_next) ← step u;
                 store_step N bnd_type (l, r) i t unnt u_next dt)
              0 (nt - 1) s0 H0) as ([t unnt] & Hrun & Hinv).
  { intros i s Hi. apply march_body_spec. lia. }
  exists t, unnt. split; [exact Hrun|].
  destruct Hinv as (? & ? & ? & ? & ? & Hrec). simpl in *.
  repeat split; try done. intros i Hi. apply Hrec. lia.
Qed.
End March.

(** ** Shapes of array expressions *)

Lemma length_np_roll {A} (a : list A) s : length (np_roll a s) = length a.
Proof. unfold np_roll. apply length_rotate. Qed.

Create Rewrite HintDb len.
#[global] Hint Rewrite @length_map @length_zip_with @length_replicate @length_seq
  @length_insert @length_np_roll @length_app @length_fmap : len.

Ltac solve_len := autorewrite with len in *; simpl in *; lia.

(** Unfold an array expression whose operands are known and agree in shape. *)
Ltac arr_step :=
  unfold vadd, vsub, vmul, vdiv, sv, vs, vopp, vabs, vsquare, lift2,
         v_coef, coef_v, coef_map in *;
  simpl fmap; rewrite ?bind_Ok;
  rewrite ?broadcast2_same by solve_len.

Lemma deriv_dnw_well_shaped : well_shaped deriv_dnw.
Proof.
  intros xx hh H. unfold deriv_dnw. repeat arr_step.
  eexists; split; [reflexivity | solve_len].
Qed.

Lemma deriv_upw_well_shaped : well_shaped deriv_upw.
Proof.
  intros xx hh H. unfold deriv_upw. repeat arr_step.
  eexists; split; [reflexivity | solve_len].
Qed.

Lemma deriv_cent_well_shaped : well_shaped deriv_cent.
Proof.
  intros xx hh H. unfold deriv_cent. repeat arr_step.
  eexists; split; [reflexivity | solve_len].
Qed.

Lemma np_gradient_ok (x : array) :
  2 ≤ length x → ∃ dx, np_gradient x = Ok dx ∧ length dx = length x.
Proof.
  intros H. unfold np_gradient.
  destruct (length x <? 2) eqn:E; [apply Nat.ltb_lt in E; lia|].
  eexists; split; [reflexivity | solve_len].
Qed.

Lemma np_min_ok (a : array) : a ≠ [] → ∃ m, np_min a = Ok m.
Proof. destruct a; [done|]. intros _. eexists; reflexivity. Qed.

Lemma cfl_adv_burger_ok (a : coef) (x : array) :
  2 ≤ length x → coef_fits (length x) a → ∃ c, cfl_adv_burger a x = Ok c.
Proof.
  intros Hn Ha. unfold cfl_adv_burger.
  destruct (np_gradient_ok x Hn) as (dx & -> & Hdx). rewrite bind_Ok.
  destruct a as [c|cs]; simpl in Ha; repeat arr_step.
  - apply np_min_ok. destruct dx; [simpl in Hdx; lia | done].
  - apply np_min_ok. destruct dx, cs; simpl in *; try lia; done.
Qed.

Lemma step_adv_burgers_ok xx hh a cfl_cut ddx :
  2 ≤ length xx → length hh = length xx → coef_fits (length xx) a →
  well_shaped ddx →
  ∃ dt rhs, step_adv_burgers xx hh a cfl_cut ddx = Ok (dt, rhs) ∧
            length rhs = length xx.
Proof.
  intros Hn Hh Ha Hd. unfold step_adv_burgers.
  destruct (cfl_adv_burger_ok a xx Hn Ha) as (c & ->). rewrite bind_Ok.
  destruct (Hd xx hh Hh) as (d & -> & Hld).
  destruct a as [c0|cs]; simpl in Ha; repeat arr_step;
    (eexists _, _; split; [reflexivity | solve_len]).
Qed.

Lemma adv_u_next_ok xx a cfl_cut ddx u :
  2 ≤ length xx → coef_fits (length xx) a → well_shaped ddx →
  length u = length xx →
  ∃ dt v, adv_u_next xx a cfl_cut ddx u = Ok (dt, v) ∧ length v = length xx.
Proof.
  intros Hn Ha Hd Hu. unfold adv_u_next.
  destruct (step_adv_burgers_ok xx u a cfl_cut ddx) as (dt & rhs & -> & Hr); try done.
  rewrite bind_Ok. repeat arr_step.
  eexists _, _; split; [reflexivity | solve_len].
Qed.

Lemma adv_u_next_inv xx a cfl_cut ddx u dt u_next :
  adv_u_next xx a cfl_cut ddx u = Ok (dt, u_next) →
  ∃ rhs, step_adv_burgers xx u a cfl_cut ddx = Ok (dt, rhs) ∧
         vadd (Ok u) (vs nmul (Ok rhs) dt) = Ok u_next.
Proof.
  unfold adv_u_next.
  destruct (step_adv_burgers xx u a cfl_cut ddx) as [[dt' rhs]|e]; [|discriminate].
  rewrite bind_Ok.
  destruct (vadd (Ok u) (vs nmul (Ok rhs) dt')) as [v|e] eqn:E; [|discriminate].
  rewrite bind_Ok. intros [= <- <-]. by exists rhs.
Qed.

(** ** The explicit advection stepper (claim C2) *)

(** C2: on a grid of [N >= 2] points with an initial field of the same
    length, [evolv_adv_burgers] returns; the time array has length [nt] and
    starts at 0, the snapshot matrix has [nt] columns of [N] entries and its
    column 0 is the initial field; and each of the [nt - 1] steps
    [i = 0 .. nt-2] is carried out: column [i+1] is the boundary-padded
    candidate [unnt[:, i] + rhs * dt], with [(dt, rhs)] the output of
    [step_adv_burgers] at column [i], and [t[i+1] = t[i] + dt]. *)
Theorem evolv_adv_burgers_runs_every_step
    (xx hh : array) (nt : nat) (a : coef) (cfl_cut : num) (ddx : deriv_op)
    (bnd_type : bnd_type) (l r : nat) :
  2 ≤ length xx → length hh = length xx → coef_fits (length xx) a →
  well_shaped ddx → l + r < length xx → 2 ≤ nt →
  ∃ t unnt,
    evolv_adv_burgers xx hh nt a cfl_cut ddx bnd_type (l, r) = Ok (t, unnt) ∧
    length t = nt ∧ length unnt = nt ∧
    Forall (fun c => length c = length xx) unnt ∧
    t !! 0 = Some zero ∧ unnt !! 0 = Some hh ∧
    ∀ i, i + 1 < nt →
      ∃ u dt rhs u_next padded ti,
        unnt !! i = Some u ∧
        step_adv_burgers xx u a cfl_cut ddx = Ok (dt, rhs) ∧
        vadd (Ok u) (vs nmul (Ok rhs) dt) = Ok u_next ∧
        fix_boundaries u_next (l, r) bnd_type = Ok padded ∧
        unnt !! (i + 1) = Some padded ∧
        t !! i = Some ti ∧ t !! (i + 1) = Some (ti + dt)%num.
Proof.
  intros Hn Hh Ha Hd Hlr Hnt.
  destruct (march_spec (length xx) nt bnd_type l r (adv_u_next xx a cfl_cut ddx)
              Hlr (fun u => adv_u_next_ok xx a cfl_cut ddx u Hn Ha Hd) hh Hh)
    as (t & unnt & Hrun & Ht & Hu & Hall & Ht0 & Hu0 & Hrec); [lia|].
  exists t, unnt. repeat split; try done.
  intros i Hi.
  destruct (Hrec i Hi) as (u & dt & v & p & ti & H1 & H2 & H3 & H4 & H5 & H6).
  destruct (adv_u_next_inv _ _ _ _ _ _ _ H2) as (rhs & Hs & Hv).
  by exists u, dt, rhs, v, p, ti.
Qed.

(** ** Periodic shifts *)

Lemma np_roll_0 (a : array) : np_roll a 0 = a.
Proof.
  unfold np_roll. simpl. rewrite Zmod_0_l. simpl.
  unfold rotate. rewrite Nat.Div0.mod_0_l. simpl. apply app_nil_r.
Qed.

(** [np.roll(a, -1)[i]] is [a[i+1]], periodically. *)
Lemma np_roll_next (a : array) i :
  i < length a → np_roll a (-1) !!! i = a !!! ((i + 1) mod length a).
Proof.
  intros Hi. unfold np_roll. rewrite !list_lookup_total_alt.
  rewrite lookup_rotate_r by done. do 2 f_equal.
  unfold rotate_nat_add.
  replace (- -1)%Z with 1%Z by lia.
  rewrite Z2Nat.id by (apply Z.mod_pos_bound; lia).
  rewrite Zplus_mod_idemp_l.
  replace (1 + Z.of_nat i)%Z with (Z.of_nat (i + 1)) by lia.
  rewrite <- Nat2Z.inj_mod. by rewrite Nat2Z.id.
Qed.

(** [np.roll(a, 1)[i]] is [a[i-1]], periodically. *)
Lemma np_roll_prev (a : array) i :
  i < length a → np_roll a 1 !!! i = a !!! ((i + length a - 1) mod length a).
Proof.
  intros Hi. unfold np_roll. rewrite !list_lookup_total_alt.
  rewrite lookup_rotate_r by done. do 2 f_equal.
  unfold rotate_nat_add.
  rewrite Z2Nat.id by (apply Z.mod_pos_bound; lia).
  rewrite Zplus_mod_idemp_l.
  replace (Z.opp 1 + Z.of_nat i)%Z with (Z.of_nat (i + length a - 1) + (-1) * Z.of_nat (length a))%Z by lia.
  rewrite Z_mod_plus_full. rewrite <- Nat2Z.inj_mod. by rewrite Nat2Z.id.
Qed.

(** ** The Lax method (claims C9 and C10) *)

Lemma nmul_comm (x y : num) : (x * y)%num = (y * x)%num.
Proof.
  destruct x, y; unfold nmul; try reflexivity. f_equal. apply Qcmult_comm.
Qed.

Lemma arr_lookup_zip_with (f : num → num → num) (l k : array) i :
  i < length l → i < length k → zip_with f l k !!! i = f (l !!! i) (k !!! i).
Proof. apply lookup_total_zip_with. Qed.

Lemma arr_lookup_map (f : num → num) (l : array) i :
  i < length l → map f l !!! i = f (l !!! i).
Proof. intros H. by apply (list_lookup_total_fmap f l i). Qed.

Lemma Lax_u_next_ok (xx u : array) (dt : num) :
  length u = length xx →
  ∃ u_next, Lax_u_next xx u dt = Ok u_next ∧ length u_next = length u ∧
    ∀ i, i < length u →
      u_next !!! i =
        (half * (u !!! ((i + 1) mod length u)
                 + u !!! ((i + length u - 1) mod length u))
         - dt * u !!! i
           / (xx !!! ((i + 1) mod length u) - xx !!! ((i + length u - 1) mod length u))
           * (u !!! ((i + 1) mod length u)
              - u !!! ((i + length u - 1) mod length u)))%num.
Proof.
  intros Hl. unfold Lax_u_next. repeat arr_step.
  eexists; split; [reflexivity|]. split; [solve_len|].
  intros i Hi.
  repeat first [ rewrite arr_lookup_zip_with by solve_len
               | rewrite arr_lookup_map by solve_len ].
  rewrite !np_roll_next, !np_roll_prev by lia.
  rewrite Hl. by rewrite (nmul_comm (u !!! i) dt).
Qed.

Lemma step_uadv_burgers_ok xx u cfl_cut ddx :
  2 ≤ length xx → length u = length xx → well_shaped ddx →
  ∃ dt rhs, step_uadv_burgers xx u cfl_cut ddx = Ok (dt, rhs) ∧
            cfl_adv_burger (PerPoint u) xx = Ok dt.
Proof.
  intros Hn Hu Hd. unfold step_uadv_burgers.
  destruct (cfl_adv_burger_ok (PerPoint u) xx Hn Hu) as (c & Hc).
  rewrite Hc, bind_Ok.
  destruct (Hd xx u Hu) as (d & -> & Hld). repeat arr_step.
  by eexists _, _.
Qed.

Lemma Lax_uadv_step_ok xx cfl_cut ddx u :
  2 ≤ length xx → well_shaped ddx → length u = length xx →
  ∃ dt v, Lax_uadv_step xx cfl_cut ddx u = Ok (dt, v) ∧ length v = length xx.
Proof.
  intros Hn Hd Hu. unfold Lax_uadv_step.
  destruct (step_uadv_burgers_ok xx u cfl_cut ddx) as (dt & rhs & -> & _); try done.
  rewrite bind_Ok.
  destruct (Lax_u_next_ok xx u dt Hu) as (v & -> & Hv & _). rewrite bind_Ok.
  exists dt, v. split; [done | lia].
Qed.

Lemma Lax_uadv_step_inv xx cfl_cut ddx u dt u_next :
  Lax_uadv_step xx cfl_cut ddx u = Ok (dt, u_next) → Lax_u_next xx u dt = Ok u_next.
Proof.
  unfold Lax_uadv_step.
  destruct (step_uadv_burgers xx u cfl_cut ddx) as [[dt' rhs]|e]; [|discriminate].
  rewrite bind_Ok.
  destruct (Lax_u_next xx u dt') as [v|e] eqn:E; [|discriminate].
  rewrite bind_Ok. by intros [= <- <-].
Qed.

(** C9: in every step of [evolv_Lax_uadv_burgers], the candidate [u_next]
    formed from column [u = unnt[:, i]] and the step size [dt], before the
    boundary fix, has at every index [j]
    [u_next[j] = 1/2 (u[j+1] + u[j-1])
                 - (dt u[j] / (x[j+1] - x[j-1])) (u[j+1] - u[j-1])],
    the indices [j+1] and [j-1] being taken modulo [N]. *)
Theorem evolv_Lax_uadv_burgers_candidate
    (xx hh : array) (nt : nat) (cfl_cut : num) (ddx : deriv_op)
    (bnd_type : bnd_type) (l r : nat) :
  2 ≤ length xx → length hh = length xx → well_shaped ddx →
  l + r < length xx → 1 ≤ nt →
  ∃ t unnt,
    evolv_Lax_uadv_burgers xx hh nt cfl_cut ddx bnd_type (l, r) = Ok (t, unnt) ∧
    ∀ i, i + 1 < nt →
      ∃ u dt u_next padded,
        unnt !! i = Some u ∧ length u = length xx ∧
        Lax_uadv_step xx cfl_cut ddx u = Ok (dt, u_next) ∧
        (∀ j, j < length xx →
           let jp := (j + 1) mod length xx in
           let jm := (j + length xx - 1) mod length xx in
           u_next !!! j =
             (half * (u !!! jp + u !!! jm)
              - dt * u !!! j / (xx !!! jp - xx !!! jm) * (u !!! jp - u !!! jm))%num) ∧
        fix_boundaries u_next (l, r) bnd_type = Ok padded ∧
        unnt !! (i + 1) = Some padded.
Proof.
  intros Hn Hh Hd Hlr Hnt.
  destruct (march_spec (length xx) nt bnd_type l r (Lax_uadv_step xx cfl_cut ddx)
              Hlr (fun u => Lax_uadv_step_ok xx cfl_cut ddx u Hn Hd) hh Hh Hnt)
    as (t & unnt & Hrun & Ht & Hu & Hall & Ht0 & Hu0 & Hrec).
  exists t, unnt. split; [exact Hrun|]. intros i Hi.
  destruct (Hrec i Hi) as (u & dt & v & p & ti & H1 & H2 & H3 & H4 & H5 & H6).
  assert (Hlu : length u = length xx)
    by exact (Forall_lookup_1 (fun c : array => length c = length xx) unnt i u Hall H1).
  exists u, dt, v, p. repeat split; try done.
  intros j Hj jp jm. subst jp jm.
  destruct (Lax_u_next_ok xx u dt Hlu) as (v' & Hv' & _ & Hform).
  rewrite (Lax_uadv_step_inv _ _ _ _ _ _ H2) in Hv'. injection Hv' as <-.
  rewrite <- Hlu. apply Hform. lia.
Qed.

Lemma evolv_Lax_uadv_burgers_candidate_witness :
  ∃ t unnt,
    evolv_Lax_uadv_burgers grid3 field3 3 (fin 49 50) deriv_cent Wrap (0, 1)
      = Ok (t, unnt) ∧
    ∀ i, i + 1 < 3 →
      ∃ u dt u_next padded,
        unnt !! i = Some u ∧ length u = length grid3 ∧
        Lax_uadv_step grid3 (fin 49 50) deriv_cent u = Ok (dt, u_next) ∧
        (∀ j, j < length grid3 →
           let jp := (j + 1) mod length grid3 in
           let jm := (j + length grid3 - 1) mod length grid3 in
           u_next !!! j =
             (half * (u !!! jp + u !!! jm)
              - dt * u !!! j / (grid3 !!! jp - grid3 !!! jm)
                * (u !!! jp - u !!! jm))%num) ∧
        fix_boundaries u_next (0, 1) Wrap = Ok padded ∧
        unnt !! (i + 1) = Some padded.
Proof.
  apply (evolv_Lax_uadv_burgers_candidate grid3 field3 3 (fin 49 50)
           deriv_cent Wrap 0 1).
  - simpl; lia.
  - reflexivity.
  - apply deriv_cent_well_shaped.
  - simpl; lia.
  - lia.
Defined.

Lemma for_range_ext {St : Type} (I : St → Prop) (body1 body2 : nat → St → res St)
    range s :
  I s →
  (∀ i s, I s → body1 i s = body2 i s) →
  (∀ i s s', I s → body1 i s = Ok s' → I s') →
  for_range body1 range s = for_range body2 range s.
Proof.
  intros Hs Heq Hpres. revert s Hs.
  induction range as [|i range IH]; intros s Hs; simpl; [done|].
  rewrite <- (Heq i s Hs). destruct (body1 i s) as [s'|e] eqn:E; [|done].
  rewrite !bind_Ok. apply IH. by eapply Hpres.
Qed.

Lemma set_col_columns N (unnt unnt' : list array) i v :
  Forall (fun c => length c = N) unnt → set_col N unnt i v = Ok unnt' →
  Forall (fun c => length c = N) unnt'.
Proof.
  intros Hall. unfold set_col. destruct (i <? length unnt); [|discriminate].
  destruct (broadcast_to N v) as [v'|e] eqn:E; [|discriminate].
  rewrite bind_Ok. intros [= <-]. apply Forall_insert; [done|].
  by eapply broadcast_to_length.
Qed.

Lemma store_step_columns N bt bl i t unnt u_next dt t' unnt' :
  Forall (fun c => length c = N) unnt →
  store_step N bt bl i t unnt u_next dt = Ok (t', unnt') →
  Forall (fun c => length c = N) unnt'.
Proof.
  intros Hall. unfold store_step.
  destruct (fix_boundaries u_next bl bt) as [p|e]; [|discriminate]. rewrite bind_Ok.
  destruct (set_col N unnt (i + 1) p) as [u1|e] eqn:E; [|discriminate]. rewrite bind_Ok.
  destruct (getitem t i) as [ti|e]; [|discriminate]. rewrite bind_Ok.
  destruct (setitem t (i + 1) (ti + dt)) as [t1|e]; [|discriminate]. rewrite bind_Ok.
  intros [= <- <-]. by eapply set_col_columns.
Qed.

Lemma init_series_columns N nt hh t unnt :
  init_series N nt hh = Ok (t, unnt) → Forall (fun c => length c = N) unnt.
Proof.
  unfold init_series.
  destruct (set_col N (np_zeros2 N nt) 0 hh) as [u|e] eqn:E; [|discriminate].
  rewrite bind_Ok. intros [= <- <-]. eapply set_col_columns; [|exact E].
  apply Forall_replicate, length_replicate.
Qed.

(** Two step functions that agree on every column of [N] entries drive the
    loop to the same result. *)
Lemma march_ext N nt bt bl (step1 step2 : array → res (num * array)) s :
  Forall (fun c => length c = N) s.2 →
  (∀ u, length u = N → step1 u = step2 u) →
  march N nt bt bl step1 s = march N nt bt bl step2 s.
Proof.
  intros Hs Heq. unfold march.
  apply (for_range_ext (fun s => Forall (fun c : array => length c = N) s.2));
    [done | |].
  - intros i [t unnt] Hall. simpl in Hall. unfold get_col.
    destruct (unnt !! i) as [u|] eqn:E; [|done]. rewrite !bind_Ok.
    rewrite Heq; [done|].
    exact (Forall_lookup_1 (fun c : array => length c = N) unnt i u Hall E).
  - intros i [t unnt] [t' unnt'] Hall. simpl in *. unfold get_col.
    destruct (unnt !! i) as [u|]; [|discriminate]. rewrite bind_Ok.
    destruct (step1 u) as [[dt v]|e]; [|discriminate]. rewrite bind_Ok.
    by apply store_step_columns.
Qed.

Lemma Lax_uadv_step_ignores_ddx xx cfl_cut (d1 d2 : deriv_op) u :
  well_shaped d1 → well_shaped d2 → length u = length xx →
  Lax_uadv_step xx cfl_cut d1 u = Lax_uadv_step xx cfl_cut d2 u.
Proof.
  intros H1 H2 Hu. unfold Lax_uadv_step, step_uadv_burgers.
  destruct (cfl_adv_burger (PerPoint u) xx) as [dt|e]; [|done]. rewrite !bind_Ok.
  destruct (H1 xx u Hu) as (r1 & -> & Hr1). destruct (H2 xx u Hu) as (r2 & -> & Hr2).
  by repeat arr_step.
Qed.

(** C10: two runs of [evolv_Lax_uadv_burgers] that differ only in the
    derivative operator [ddx] return the same result, the same [t] and the
    same [unnt] (or raise alike): the right-hand side computed with [ddx] is
    never used, and the step size depends on the field and the grid alone.
    The operators are any two that, as the three stencils do, return one
    value per grid point. *)
Theorem evolv_Lax_uadv_burgers_ignores_ddx
    (xx hh : array) (nt : nat) (cfl_cut : num) (d1 d2 : deriv_op)
    (bnd_type : bnd_type) (bnd_limits : nat * nat) :
  well_shaped d1 → well_shaped d2 →
  evolv_Lax_uadv_burgers xx hh nt cfl_cut d1 bnd_type bnd_limits
  = evolv_Lax_uadv_burgers xx hh nt cfl_cut d2 bnd_type bnd_limits.
Proof.
  intros H1 H2. unfold evolv_Lax_uadv_burgers.
  destruct (init_series (length xx) nt hh) as [[t unnt]|e] eqn:E; [|done].
  rewrite !bind_Ok. apply march_ext.
  - simpl. by eapply init_series_columns.
  - intros u Hu. by apply Lax_uadv_step_ignores_ddx.
Qed.

Lemma evolv_Lax_uadv_burgers_ignores_ddx_witness :
  evolv_Lax_uadv_burgers grid3 field3 3 (fin 49 50) deriv_dnw Wrap (0, 1)
  = evolv_Lax_uadv_burgers grid3 field3 3 (fin 49 50) deriv_cent Wrap (0, 1).
Proof.
  apply (evolv_Lax_uadv_burgers_ignores_ddx grid3 field3 3 (fin 49 50)
           deriv_dnw deriv_cent Wrap (0, 1)).
  - apply deriv_dnw_well_shaped.
  - apply deriv_cent_well_shaped.
Defined.

Lemma evolv_adv_burgers_runs_every_step_witness :
  ∃ t unnt,
    evolv_adv_burgers grid3 field3 3 (Scalar (fin (-1) 1)) (fin 49 50)
                      deriv_dnw Wrap (0, 1) = Ok (t, unnt) ∧
    length t = 3 ∧ length unnt = 3 ∧
    Forall (fun c => length c = length grid3) unnt ∧
    t !! 0 = Some zero ∧ unnt !! 0 = Some field3 ∧
    ∀ i, i + 1 < 3 →
      ∃ u dt rhs u_next padded ti,
        unnt !! i = Some u ∧
        step_adv_burgers grid3 u (Scalar (fin (-1) 1)) (fin 49 50) deriv_dnw
          = Ok (dt, rhs) ∧
        vadd (Ok u) (vs nmul (Ok rhs) dt) = Ok u_next ∧
        fix_boundaries u_next (0, 1) Wrap = Ok padded ∧
        unnt !! (i + 1) = Some padded ∧
        t !! i = Some ti ∧ t !! (i + 1) = Some (ti + dt)%num.
Proof.
  apply (evolv_adv_burgers_runs_every_step grid3 field3 3 (Scalar (fin (-1) 1))
           (fin 49 50) deriv_dnw Wrap 0 1).
  - simpl; lia.
  - reflexivity.
  - exact I.
  - apply deriv_dnw_well_shaped.
  - simpl; lia.
  - lia.
Defined.

(** ** Finite arrays *)

Lemma finite_array_Fin (u : array) :
  finite_array u = true → ∃ qs, u = map Fin qs.
Proof.
  induction u as [|x u IH]; simpl; [by exists []|].
  intros [Hx Hu]%andb_prop. destruct (IH Hu) as (qs & ->).
  destruct x as [q| | |]; try discriminate. by exists (q :: qs).
Qed.

Lemma zip_with_Fin (op : num → num → num) (qop : Qc → Qc → Qc) (a b : list Qc) :
  (∀ p q, op (Fin p) (Fin q) = Fin (qop p q)) →
  zip_with op (map Fin a) (map Fin b) = map Fin (zip_with qop a b).
Proof.
  intros H. revert b. induction a as [|p a IH]; intros [|q b]; simpl; try done.
  by rewrite H, IH.
Qed.

Lemma map_Fin (f : num → num) (g : Qc → Qc) (a : list Qc) :
  (∀ p, f (Fin p) = Fin (g p)) → map f (map Fin a) = map Fin (map g a).
Proof.
  intros H. induction a as [|p a IH]; simpl; [done|]. by rewrite H, IH.
Qed.

Lemma np_roll_fmap {A B} (f : A → B) (a : list A) s :
  np_roll (map f a) s = map f (np_roll a s).
Proof.
  unfold np_roll, rotate. rewrite length_map.
  by rewrite map_app, skipn_map, firstn_map.
Qed.

Lemma nabs_Fin q : nabs (Fin q) = Fin (qabs q).
Proof. unfold nabs, qabs. by destruct (q ?= 0)%Qc. Qed.

Lemma nmaximum_Fin p q : nmaximum (Fin p) (Fin q) = Fin (qmax p q).
Proof.
  unfold nmaximum, nle, qmax. by destruct (p ?= q)%Qc.
Qed.

Lemma ndiv_Fin p q : q ≠ Q2Qc 0 → (Fin p / Fin q)%num = Fin (p / q)%Qc.
Proof.
  intros Hq. unfold ndiv, Qc_eq_bool.
  by destruct (Qcanon.Qc_eq_dec q (Q2Qc 0)).
Qed.

Lemma np_sum_Fin (qs : list Qc) : np_sum (map Fin qs) = Fin (qsum qs).
Proof.
  unfold np_sum, qsum. induction qs as [|q qs IH]; simpl; [done|].
  by rewrite IH.
Qed.

(** ** Sums of rationals *)

Lemma qsum_app (a b : list Qc) : qsum (a ++ b) = (qsum a + qsum b)%Qc.
Proof.
  unfold qsum. induction a as [|p a IH]; simpl.
  - by rewrite Qcplus_0_l.
  - rewrite IH. ring.
Qed.

Lemma qsum_roll (a : list Qc) s : qsum (np_roll a s) = qsum a.
Proof.
  unfold np_roll, rotate. rewrite qsum_app, Qcplus_comm, <- qsum_app.
  by rewrite take_drop.
Qed.

Lemma qsum_zip_minus (a b : list Qc) :
  length a = length b →
  qsum (zip_with Qcminus a b) = (qsum a - qsum b)%Qc.
Proof.
  revert b. induction a as [|p a IH]; intros [|q b] Hl; simpl in *; try lia.
  - unfold qsum; simpl. ring.
  - unfold qsum in *; simpl. rewrite IH by lia. ring.
Qed.

Lemma qsum_scale (f : Qc → Qc) (c : Qc) (a : list Qc) :
  (∀ q, f q = (q * c)%Qc) → qsum (map f a) = (qsum a * c)%Qc.
Proof.
  intros Hf. unfold qsum. induction a as [|p a IH]; simpl.
  - ring.
  - rewrite IH, Hf. ring.
Qed.

(** ** The Rusanov scheme (claims C1 and C3) *)

Ltac fin_lift d0 :=
  repeat first
    [ rewrite np_roll_fmap
    | rewrite (zip_with_Fin nadd Qcplus) by done
    | rewrite (zip_with_Fin nsub Qcminus) by done
    | rewrite (zip_with_Fin nmul Qcmult) by done
    | rewrite (zip_with_Fin nmaximum qmax) by exact nmaximum_Fin
    | rewrite (map_Fin nabs qabs) by exact nabs_Fin
    | rewrite (map_Fin (nmul half) (Qcmult (qc 1 2))) by done
    | rewrite (map_Fin (fun v => (v * v)%num) (fun q => (q * q)%Qc)) by done
    | rewrite (map_Fin (fun v => (v / Fin d0)%num) (fun q => (q / d0)%Qc))
        by (intros; by apply ndiv_Fin) ].

Lemma Rie_u_next_finite (xx : array) (d0 : Qc) (us : list Qc) :
  d0 ≠ Q2Qc 0 → length us = length xx →
  Rie_u_next xx (Fin d0) (map Fin us)
  = (dt ← cfl_adv_burger (PerPoint (map Fin (Rie_v_a_q us))) xx;
     Ok (dt, zip_with nsub (map Fin us)
                      (map (nmul dt) (map Fin (Rie_F_int_q d0 us))))).
Proof.
  intros Hd Hl. unfold Rie_u_next. rewrite np_roll_0.
  repeat arr_step. fin_lift d0.
  fold (Rie_v_a_q us). fold (Rie_F_plus05_q us). fold (Rie_F_int_q d0 us).
  destruct (cfl_adv_burger (PerPoint (map Fin (Rie_v_a_q us))) xx) as [dt|e]; [|done].
  rewrite !bind_Ok. repeat arr_step.
  rewrite broadcast2_same; [done|].
  unfold Rie_F_int_q, Rie_F_plus05_q, Rie_v_a_q. solve_len.
Qed.

Lemma Rie_F_int_q_length d0 us : length (Rie_F_int_q d0 us) = length us.
Proof. unfold Rie_F_int_q, Rie_F_plus05_q, Rie_v_a_q. solve_len. Qed.

(** Flux differences telescope around the periodic grid. *)
Lemma Rie_F_int_q_sum d0 us : qsum (Rie_F_int_q d0 us) = Q2Qc 0.
Proof.
  unfold Rie_F_int_q.
  rewrite (qsum_scale _ (/ d0)%Qc) by done.
  rewrite qsum_zip_minus by (by rewrite length_np_roll).
  rewrite qsum_roll. ring.
Qed.

Lemma Rie_u_next_ok (xx : array) (dx : num) (u : array) :
  2 ≤ length xx → length u = length xx →
  ∃ dt v, Rie_u_next xx dx u = Ok (dt, v) ∧ length v = length xx.
Proof.
  intros Hn Hu. unfold Rie_u_next. repeat arr_step.
  match goal with
  | |- context [cfl_adv_burger (PerPoint ?va) xx] =>
      destruct (cfl_adv_burger_ok (PerPoint va) xx Hn) as (dt & ->);
        [simpl; solve_len|]
  end.
  rewrite bind_Ok. repeat arr_step.
  eexists _, _. split; [reflexivity | solve_len].
Qed.

(** With margins [(1, 0)] the 'wrap' fix overwrites entry 0 with the last
    entry and keeps the others. *)
Lemma fix_boundaries_wrap_1_0 (v : array) :
  2 ≤ length v →
  fix_boundaries v (1, 0) Wrap = Ok (v !!! (length v - 1) :: drop 1 v).
Proof.
  intros Hn. unfold fix_boundaries.
  pose proof (slice_margins_length v 1 0) as Hlen.
  destruct (np_pad_wrap_spec (slice_margins v (1, 0)) 1 0) as (w & -> & Hwl & Hwk).
  { intros E. rewrite E in Hlen. simpl in Hlen. lia. }
  f_equal. rewrite Hlen in Hwl, Hwk. apply list_eq. intros k.
  destruct (decide (k < length v)) as [Hk|Hk].
  - rewrite Hwk by lia. destruct k as [|k].
    + simpl. rewrite slice_margins_lookup.
      2:{ apply wrap_index_lt. lia. }
      replace (wrap_index 1 (length v - 0 - 1) 0) with (length v - 2).
      * replace (1 + (length v - 2)) with (length v - 1) by lia.
        apply list_lookup_lookup_total_lt. lia.
      * unfold wrap_index.
        replace (Z.of_nat 0 - Z.of_nat 1)%Z
          with (Z.of_nat (length v - 2) + (-1) * Z.of_nat (length v - 0 - 1))%Z by lia.
        rewrite Z_mod_plus_full, Z.mod_small by lia. lia.
    + rewrite wrap_index_inner by lia. rewrite slice_margins_lookup by lia.
      simpl. rewrite lookup_drop. f_equal. lia.
  - rewrite !lookup_ge_None_2; [done | simpl; rewrite length_drop; lia | lia].
Qed.

Lemma qsum_cons q qs : qsum (q :: qs) = (q + qsum qs)%Qc.
Proof. reflexivity. Qed.

(** The sums before and after the boundary fix, for a finite candidate. *)
Lemma np_sum_wrap_1_0 (ws : list Qc) :
  2 ≤ length ws →
  np_sum (map Fin ws !!! (length ws - 1) :: drop 1 (map Fin ws))
  = (np_sum (map Fin ws) - map Fin ws !!! 0 + map Fin ws !!! (length ws - 1)%nat)%num.
Proof.
  intros Hn. rewrite !np_sum_Fin.
  assert (Hlast : map Fin ws !!! (length ws - 1) = Fin (ws !!! (length ws - 1))).
  { apply (list_lookup_total_fmap Fin ws). lia. }
  assert (Hfirst : map Fin ws !!! 0 = Fin (ws !!! 0)).
  { apply (list_lookup_total_fmap Fin ws). lia. }
  rewrite Hlast, Hfirst. rewrite skipn_map.
  change (Fin (ws !!! (length ws - 1)) :: map Fin (drop 1 ws))
    with (map Fin (ws !!! (length ws - 1) :: drop 1 ws)).
  rewrite np_sum_Fin. destruct ws as [|w0 ws']; [simpl in Hn; lia|].
  simpl drop. rewrite !qsum_cons.
  change ((w0 :: ws') !!! 0) with w0.
  unfold nsub, nadd, nopp. f_equal. rewrite drop_0.
  generalize ((w0 :: ws') !!! (length (w0 :: ws') - 1)). intros wl. ring.
Qed.

Lemma getitem_ok (a : array) k : k < length a → getitem a k = Ok (a !!! k).
Proof.
  intros Hk. unfold getitem.
  destruct (lookup_lt_is_Some_2 a k Hk) as [x Hx].
  by rewrite Hx, (list_lookup_total_correct _ _ _ Hx).
Qed.

Lemma grid_spacing (xx : array) :
  finite_array xx = true → increasing xx = true → 2 ≤ length xx →
  ∃ d0, (xx !!! 1 - xx !!! 0)%num = Fin d0 ∧ d0 ≠ Q2Qc 0.
Proof.
  intros Hf Hi Hn. destruct xx as [|a [|b tl]]; simpl in Hn; try lia.
  simpl in Hf, Hi. apply andb_prop in Hf as [Ha [Hb _]%andb_prop].
  apply andb_prop in Hi as [Hab _].
  destruct a as [p| | |], b as [q| | |]; try discriminate.
  apply nlt_Fin in Hab. exists (q + - p)%Qc. split; [reflexivity|].
  apply Qclt_minus_iff in Hab. intros E. rewrite E in Hab.
  by apply Qclt_not_eq in Hab.
Qed.

(** C1, as stated, fails: with the default 'wrap' policy and margins
    [[1, 0]] the boundary fix overwrites entry 0 of the candidate with its
    last entry, and the sum changes.  On the grid [0, 1, 2] and the field
    [1, 2, 3] the sums of columns 0 and 1 are 6 and 5. *)
Lemma evolv_Rie_uadv_burgers_sum_changes :
  evolv_Rie_uadv_burgers grid3 field3 2 (fin 49 50) deriv_upw Wrap (1, 0)
    = Ok ([zero; fin 1 3], [field3; [fin 7 4; fin 3 2; fin 7 4]]) ∧
  np_sum field3 = fin 6 1 ∧
  np_sum [fin 7 4; fin 3 2; fin 7 4] = fin 5 1 ∧
  fin 5 1 ≠ fin 6 1.
Proof.
  split; [|split; [|split]].
  - apply (returns_eq series_eqb); [apply series_eqb_eq | vm_compute; reflexivity].
  - num_refl.
  - num_refl.
  - intros H%num_eqb_eq. vm_compute in H. discriminate.
Qed.

(** C1, amended: on a finite, strictly increasing grid of at least two
    points [evolv_Rie_uadv_burgers] with the 'wrap' policy and margins
    [[1, 0]] returns, and at every step [i] in [[0, nt-2]] whose column and
    step size are finite, the flux-differencing candidate [u_next] has
    exactly the sum of column [i]; column [i+1] is [u_next] with entry 0
    replaced by entry [N-1], so its sum is that of column [i] minus
    [u_next[0]] plus [u_next[N-1]]. *)
Theorem evolv_Rie_uadv_burgers_sum
    (xx hh : array) (nt : nat) (cfl_cut : num) (ddx : deriv_op) :
  finite_array xx = true → increasing xx = true → 2 ≤ length xx →
  length hh = length xx → 1 ≤ nt →
  ∃ t unnt,
    evolv_Rie_uadv_burgers xx hh nt cfl_cut ddx Wrap (1, 0) = Ok (t, unnt) ∧
    ∀ i, i + 1 < nt →
      ∃ u dt u_next padded,
        unnt !! i = Some u ∧
        Rie_u_next xx (xx !!! 1 - xx !!! 0)%num u = Ok (dt, u_next) ∧
        padded = u_next !!! (length xx - 1) :: drop 1 u_next ∧
        unnt !! (i + 1) = Some padded ∧
        (finite_array u = true → is_finite dt = true →
         np_sum u_next = np_sum u ∧
         np_sum padded
         = (np_sum u - u_next !!! 0 + u_next !!! (length xx - 1)%nat)%num).
Proof.
  intros Hf Hi Hn Hh Hnt.
  destruct (grid_spacing xx Hf Hi Hn) as (d0 & Hdx & Hd0).
  assert (Hfit : 1 + 0 < length xx) by lia.
  destruct (march_spec (length xx) nt Wrap 1 0 (Rie_u_next xx (xx !!! 1 - xx !!! 0)%num)
              Hfit (fun u => Rie_u_next_ok xx _ u Hn) hh Hh Hnt)
    as (t & unnt & Hrun & Ht & Hu & Hall & Ht0 & Hu0 & Hrec).
  exists t, unnt. split.
  { unfold evolv_Rie_uadv_burgers.
    destruct (init_series (length xx) nt hh) as [s|e]; [|discriminate].
    rewrite bind_Ok in *. rewrite !getitem_ok by lia. by rewrite !bind_Ok. }
  intros i Hlt.
  destruct (Hrec i Hlt) as (u & dt & v & p & ti & H1 & H2 & H3 & H4 & H5 & H6).
  assert (Hlu : length u = length xx)
    by exact (Forall_lookup_1 (fun c : array => length c = length xx) unnt i u Hall H1).
  destruct (Rie_u_next_ok xx (xx !!! 1 - xx !!! 0)%num u Hn Hlu) as (dt' & v' & Hv' & Hlv).
  rewrite H2 in Hv'. injection Hv' as <- <-.
  rewrite fix_boundaries_wrap_1_0 in H3 by lia. injection H3 as <-.
  rewrite Hlv in H4.
  exists u, dt, v, (v !!! (length xx - 1) :: drop 1 v).
  do 4 (split; [done|]).
  intros Hfu Hfdt.
  destruct (finite_array_Fin u Hfu) as (us & ->).
  rewrite length_map in Hlu.
  rewrite Hdx, (Rie_u_next_finite xx d0 us Hd0 Hlu) in H2.
  destruct (cfl_adv_burger _ xx) as [dt0|e]; [|discriminate].
  rewrite bind_Ok in H2. injection H2 as -> <-.
  destruct dt as [d| | |]; try discriminate.
  rewrite (map_Fin (nmul (Fin d)) (Qcmult d)) by done.
  rewrite (zip_with_Fin nsub Qcminus) by done.
  assert (Hlen : length (zip_with Qcminus us (map (Qcmult d) (Rie_F_int_q d0 us)))
                 = length xx).
  { rewrite length_zip_with, length_map, Rie_F_int_q_length. lia. }
  assert (Hsum : qsum (zip_with Qcminus us (map (Qcmult d) (Rie_F_int_q d0 us)))
                 = qsum us).
  { rewrite qsum_zip_minus by (by rewrite length_map, Rie_F_int_q_length).
    rewrite (qsum_scale _ d) by (intros; ring).
    rewrite Rie_F_int_q_sum. ring. }
  split.
  - by rewrite !np_sum_Fin, Hsum.
  - rewrite <- Hlen. rewrite np_sum_wrap_1_0 by lia.
    by rewrite !np_sum_Fin, Hsum.
Qed.

Lemma evolv_Rie_uadv_burgers_sum_witness :
  ∃ t unnt,
    evolv_Rie_uadv_burgers grid3 field3 3 (fin 49 50) deriv_upw Wrap (1, 0)
      = Ok (t, unnt) ∧
    ∀ i, i + 1 < 3 →
      ∃ u dt u_next padded,
        unnt !! i = Some u ∧
        Rie_u_next grid3 (grid3 !!! 1 - grid3 !!! 0)%num u = Ok (dt, u_next) ∧
        padded = u_next !!! (length grid3 - 1) :: drop 1 u_next ∧
        unnt !! (i + 1) = Some padded ∧
        (finite_array u = true → is_finite dt = true →
         np_sum u_next = np_sum u ∧
         np_sum padded
         = (np_sum u - u_next !!! 0 + u_next !!! (length grid3 - 1)%nat)%num).
Proof.
  apply (evolv_Rie_uadv_burgers_sum grid3 field3 3 (fin 49 50) deriv_upw).
  - reflexivity.
  - reflexivity.
  - simpl; lia.
  - reflexivity.
  - lia.
Defined.

(** C3 fails on the code: [evolv_Rie_uadv_burgers] takes the safety factor
    [cfl_cut] and never applies it.  Its result is the same for every
    [cfl_cut]; on the grid [0, 1, 2] and the field [1, 2, 3] with
    [cfl_cut = 0.98] the local wave speeds are [2, 3, 3], the accepted step
    is the bare estimate [min(dx/|a|) = 1/3] and not [0.98/3], and
    [max(|a|) dt / dx] is 1, above the safety factor.  [step_uadv_burgers]
    drops [cfl_cut] in the same way, while [step_adv_burgers] multiplies by
    it. *)
Theorem evolv_Rie_uadv_burgers_step_not_scaled :
  (∀ xx hh nt c1 c2 ddx bnd_type bnd_limits,
     evolv_Rie_uadv_burgers xx hh nt c1 ddx bnd_type bnd_limits
     = evolv_Rie_uadv_burgers xx hh nt c2 ddx bnd_type bnd_limits) ∧
  (∀ xx hh c1 c2 ddx,
     step_uadv_burgers xx hh c1 ddx = step_uadv_burgers xx hh c2 ddx) ∧
  evolv_Rie_uadv_burgers grid3 field3 2 (fin 49 50) deriv_upw Wrap (1, 0)
    = Ok ([zero; fin 1 3], [field3; [fin 7 4; fin 3 2; fin 7 4]]) ∧
  cfl_adv_burger (PerPoint [two; three; three]) grid3 = Ok (fin 1 3) ∧
  (fin 1 3 * fin 49 50)%num = fin 49 150 ∧
  fin 1 3 ≠ fin 49 150 ∧
  (three * fin 1 3 / one)%num = one ∧
  nle one (fin 49 50) = false.
Proof.
  split; [done|]. split; [done|]. split; [|split; [|split; [|split; [|split]]]].
  - apply (returns_eq series_eqb); [apply series_eqb_eq | vm_compute; reflexivity].
  - apply (returns_eq num_eqb); [apply num_eqb_eq | vm_compute; reflexivity].
  - num_refl.
  - intros H%num_eqb_eq. vm_compute in H. discriminate.
  - num_refl.
  - vm_compute. reflexivity.
Qed.

(** ** The Jacobian (claim C4) *)

(** C4 fails on the code: the sub-diagonal is filled under the guard
    [i > 1], so row 1 gets no entry in column 0.  On the grid [0, 1, 2] with
    [a = 1] and [dt = 1] the claim wants [J[1, 0] = -1]; [jacobian] leaves 0
    there.  [jacobian_u] has the same guard: with [un = [1, 2, 3]] the claim
    wants [J[1, 0] = -2] and the code leaves 0. *)
Theorem jacobian_misses_first_subdiagonal_entry :
  jacobian grid3 field3 one one
    = Ok [[three; fin (-1) 1; zero];
          [zero; three; fin (-1) 1];
          [zero; fin (-1) 1; three]] ∧
  jacobian_u grid3 field3 one
    = Ok [[three; fin (-1) 1; zero];
          [zero; fin 5 1; fin (-2) 1];
          [zero; fin (-3) 1; fin 7 1]] ∧
  (- one * one / ((one - zero) * (one - zero)))%num = fin (-1) 1 ∧
  zero ≠ fin (-1) 1.
Proof.
  split; [|split; [|split]].
  - apply (returns_eq (list_eqb array_eqb));
      [intros; apply list_eqb_eq, array_eqb_eq | vm_compute; reflexivity].
  - apply (returns_eq (list_eqb array_eqb));
      [intros; apply list_eqb_eq, array_eqb_eq | vm_compute; reflexivity].
  - num_refl.
  - intros H%num_eqb_eq. vm_compute in H. discriminate.
Qed.

(** ** Hyman predictor-corrector (claim C6) *)


Lemma Qc_div_pos (p q : Qc) : (0 < p)%Qc → (0 < q)%Qc → (0 < p / q)%Qc.
Proof.
  intros Hp Hq. unfold Qcdiv.
  rewrite <- (Qcmult_0_l (/ q)). apply Qcmult_lt_compat_r; [|done].
  unfold Qclt, Qcinv, Q2Qc in *. simpl this in *. rewrite !Qred_correct in *.
  by apply Qinv_lt_0_compat.
Qed.



Lemma nle_Fin (a b : Qc) : nle (Fin a) (Fin b) = true ↔ (a <= b)%Qc.
Proof.
  unfold nle. rewrite Qcle_alt.
  destruct (a ?= b)%Qc; split; done.
Qed.





Section Hyman.
Variables (xx : array) (a : coef) (cfl_cut : num) (ddx : deriv_op).
Variables (bnd_type : bnd_type) (l r : nat).
Hypothesis grid_points : 2 ≤ length xx.
Hypothesis a_fits : coef_fits (length xx) a.
Hypothesis ddx_shaped : well_shaped ddx.
Hypothesis margins_fit : l + r < length xx.


End Hyman.




(** ** The implicit solver (claim C5) *)

Lemma setitem_ok (t : array) i v :
  i < length t → setitem t i v = Ok (<[i := v]> t).
Proof.
  intros H. unfold setitem. destruct (i <? length t) eqn:E; [done|].
  apply Nat.ltb_ge in E. lia.
Qed.

Lemma setitem2_ok N (J : matrix) i k v :
  is_square N J → i < N → k < N →
  ∃ J', setitem2 J i k v = Ok J' ∧ is_square N J'.
Proof.
  intros [HJ Hrows] Hi Hk. unfold setitem2.
  destruct (lookup_lt_is_Some_2 J i) as [row Hrow]; [lia|]. rewrite Hrow.
  assert (Hlr : length row = N)
    by exact (Forall_lookup_1 (fun r : array => length r = N) J i row Hrows Hrow).
  rewrite setitem_ok by lia. rewrite bind_Ok. eexists; split; [reflexivity|].
  split; [by rewrite length_insert|].
  apply Forall_insert; [done|]. by rewrite length_insert.
Qed.

Lemma jacobian_row_ok n dx dt (coeff : nat → res num) i (J : matrix) :
  (∀ j, j < n → ∃ c, coeff j = Ok c) → i < n → is_square n J →
  ∃ J', jacobian_row n dx dt coeff i J = Ok J' ∧ is_square n J'.
Proof.
  intros Hc Hi HJ. unfold jacobian_row.
  destruct (Hc i Hi) as (c & Hci). rewrite Hci, bind_Ok.
  destruct (setitem2_ok n J i i (one + dt * two * c / (dx * dx))%num HJ Hi Hi)
    as (J1 & -> & HJ1).
  rewrite !bind_Ok.
  assert (∃ J2, (if i <? n - 1
                 then setitem2 J1 i (i + 1) (- dt * c / (dx * dx))%num
                 else Ok J1) = Ok J2 ∧ is_square n J2) as (J2 & -> & HJ2).
  { destruct (i <? n - 1) eqn:E; [|by exists J1].
    apply Nat.ltb_lt in E. apply setitem2_ok; try done; lia. }
  rewrite !bind_Ok.
  destruct (1 <? i) eqn:E; [|by exists J2].
  apply setitem2_ok; try done; lia.
Qed.

Lemma jacobian_rows_ok n dx dt (coeff : nat → res num) :
  (∀ j, j < n → ∃ c, coeff j = Ok c) →
  ∃ J, for_range (jacobian_row n dx dt coeff) (seq 0 n) (np_zeros2 n n) = Ok J ∧
       is_square n J.
Proof.
  intros Hc.
  destruct (for_range_seq (fun _ J => is_square n J)
              (jacobian_row n dx dt coeff) 0 n (np_zeros2 n n)) as (J & HJ & Hsq).
  - split; [apply length_replicate|]. apply Forall_replicate, length_replicate.
  - intros i J Hi HJ. apply jacobian_row_ok; try done; lia.
  - by exists J.
Qed.

Lemma jacobian_ok xx un a dt :
  2 ≤ length xx → ∃ J, jacobian xx un a dt = Ok J ∧ is_square (length xx) J.
Proof.
  intros Hn. unfold jacobian. rewrite !getitem_ok by lia. rewrite !bind_Ok.
  apply jacobian_rows_ok. intros j _. by eexists.
Qed.

Lemma jacobian_u_ok xx un dt :
  2 ≤ length xx → length un = length xx →
  ∃ J, jacobian_u xx un dt = Ok J ∧ is_square (length xx) J.
Proof.
  intros Hn Hu. unfold jacobian_u. rewrite !getitem_ok by lia. rewrite !bind_Ok.
  apply jacobian_rows_ok. intros j Hj. rewrite getitem_ok by lia. by eexists.
Qed.

Lemma NR_f_ok xx un uo a dt :
  2 ≤ length xx → length un = length xx → length uo = length xx →
  ∃ v, NR_f xx un uo a dt = Ok v ∧ length v = length xx.
Proof.
  intros Hn Hu Ho. unfold NR_f. rewrite !getitem_ok by lia. rewrite !bind_Ok.
  repeat arr_step. eexists; split; [reflexivity | solve_len].
Qed.

Lemma NR_f_u_ok xx un uo dt :
  2 ≤ length xx → length un = length xx → length uo = length xx →
  ∃ v, NR_f_u xx un uo dt = Ok v ∧ length v = length xx.
Proof.
  intros Hn Hu Ho. unfold NR_f_u. rewrite !getitem_ok by lia. rewrite !bind_Ok.
  repeat arr_step. eexists; split; [reflexivity | solve_len].
Qed.

Lemma np_matmul_ok N (M : matrix) (v : array) :
  is_square N M → length v = N →
  ∃ w, np_matmul M v = Ok w ∧ length w = N.
Proof.
  intros [HM Hrows] Hv. unfold np_matmul.
  assert (forallb (fun row : array => length row =? length v) M = true) as ->.
  { apply forallb_forall. intros row Hin. apply Nat.eqb_eq.
    rewrite Forall_forall in Hrows. rewrite Hv. apply Hrows.
    by apply list_elem_of_In. }
  eexists; split; [reflexivity|]. by rewrite length_map.
Qed.

Lemma np_max_ok (a : array) : a ≠ [] → ∃ m, np_max a = Ok m.
Proof. destruct a; [done|]. intros _. eexists; reflexivity. Qed.

Lemma for_range_seq_or {St : Type} (P : nat → St → Prop) (body : nat → St → res St)
    (e : exn) a m s :
  P a s →
  (∀ i s, a ≤ i < a + m → P i s →
          body i s = Raise e ∨ ∃ s', body i s = Ok s' ∧ P (i + 1) s') →
  for_range body (seq a m) s = Raise e ∨
  ∃ s', for_range body (seq a m) s = Ok s' ∧ P (a + m) s'.
Proof.
  revert a s. induction m as [|m IH]; intros a s Hs Hbody; simpl.
  - right. exists s. by rewrite Nat.add_0_r.
  - destruct (Hbody a s) as [-> | (s1 & -> & Hs1)]; [lia | done | by left |].
    rewrite bind_Ok.
    destruct (IH (a + 1) s1) as [Hr | (s' & Hs' & HP)].
    + done.
    + intros i s2 Hi. apply Hbody. lia.
    + left. by rewrite Nat.add_1_r in Hr.
    + right. exists s'. rewrite Nat.add_1_r in Hs'. split; [done|].
      by replace (a + S m) with (a + 1 + m) by lia.
Qed.

Section Newton_run.
Variable linalg_inv : matrix → res matrix.
Variable jac : array → res matrix.
Variable ff : array → array → res array.
Variables (N nt : nat) (toll : num) (ncount : nat).
Variables (bnd_type : bnd_type) (l r : nat) (dt : num).
Hypothesis inv_ok : inv_routine linalg_inv.
Hypothesis jac_ok :
  ∀ ug, length ug = N → ∃ J, jac ug = Ok J ∧ is_square N J.
Hypothesis ff_ok :
  ∀ ug uo, length ug = N → length uo = N →
           ∃ v, ff ug uo = Ok v ∧ length v = N.
Hypothesis margins_fit : l + r < N.
Hypothesis toll_le_1 : nge one toll = true.
Hypothesis ncount_pos : 1 ≤ ncount.

(** The four result arrays have their lengths. *)
Let well_formed (s : nr_state) : Prop :=
  length (nr_t s) = nt ∧ length (nr_unnt s) = nt ∧
  length (nr_errt s) = nt ∧ length (nr_countt s) = nt ∧
  Forall (fun c => length c = N) (nr_unnt s).

Lemma NR_iteration_spec it uo s :
  it < nt → length uo = N → length (nr_ug s) = N → well_formed s →
  NR_iteration linalg_inv jac ff toll bnd_type (l, r) it uo s = Raise LinAlgError ∨
  ∃ e padded,
    NR_iteration linalg_inv jac ff toll bnd_type (l, r) it uo s
    = Ok {| nr_t := nr_t s; nr_unnt := nr_unnt s;
            nr_errt := <[it := e]> (nr_errt s);
            nr_countt := <[it := nr_count s + 1]> (nr_countt s);
            nr_ug := padded; nr_un := Some padded;
            nr_err := e; nr_count := nr_count s + 1 |} ∧
    length padded = N ∧
    newton_update linalg_inv jac ff toll bnd_type (l, r) uo (nr_ug s) e padded.
Proof.
  intros Hit Huo Hug (Ht & Hu & He & Hc & Hall). unfold NR_iteration.
  destruct (jac_ok (nr_ug s) Hug) as (J & HJ & Hsq). rewrite HJ, bind_Ok.
  destruct (ff_ok (nr_ug s) uo Hug Huo) as (ff1 & Hff & Hlff). rewrite Hff, bind_Ok.
  destruct (inv_ok N J Hsq) as [-> | (Jinv & HJinv & Hsq')]; [by left|].
  right. rewrite HJinv, bind_Ok.
  destruct (np_matmul_ok N Jinv ff1 Hsq' Hlff) as (w & Hw & Hlw).
  assert (Hun : vsub (Ok (nr_ug s)) (np_matmul Jinv ff1)
                = Ok (zip_with nsub (nr_ug s) w)).
  { rewrite Hw. by repeat arr_step. }
  rewrite Hun, bind_Ok.
  set (un := zip_with nsub (nr_ug s) w) in *.
  assert (Hlun : length un = N) by (subst un; solve_len).
  assert (∃ errs, vdiv (vabs (vsub (Ok un) (Ok (nr_ug s))))
                               (vs nadd (vabs (Ok un)) toll) = Ok errs ∧
                          length errs = N) as (errs & Herrs & Hlerrs).
  { repeat arr_step. eexists; split; [reflexivity | solve_len]. }
  rewrite Herrs, bind_Ok.
  destruct (np_max_ok errs) as (e & Hemax).
  { intros ->. simpl in Hlerrs. lia. }
  rewrite Hemax, bind_Ok. rewrite setitem_ok by lia. rewrite bind_Ok.
  destruct (it <? length (nr_countt s)) eqn:E; [|apply Nat.ltb_ge in E; lia].
  rewrite bind_Ok.
  destruct (fix_boundaries_ok un l r bnd_type) as (padded & Hp & Hlp); [lia|].
  rewrite Hp, bind_Ok. exists e, padded. split; [done|]. split; [lia|].
  by exists J, ff1, Jinv, un, errs.
Qed.

(** The inner loop, started at state [s0] with [remaining] iterations left
    before the cap: what it may have changed, how often it ran, why it
    stopped, and, if it ran at all, what its last iteration produced. *)
Let while_post (it : nat) (uo : array) (remaining : nat) (s0 s' : nr_state)
  : Prop :=
  nr_t s' = nr_t s0 ∧ nr_unnt s' = nr_unnt s0 ∧
  length (nr_errt s') = nt ∧ length (nr_countt s') = nt ∧
  (∀ j, j ≠ it → nr_errt s' !! j = nr_errt s0 !! j ∧
                 nr_countt s' !! j = nr_countt s0 !! j) ∧
  nr_count s0 ≤ nr_count s' ≤ nr_count s0 + remaining ∧
  (nr_count s' = nr_count s0 + remaining ∨ nge (nr_err s') toll = false) ∧
  (nr_count s' = nr_count s0 → s' = s0) ∧
  (nr_count s0 < nr_count s' →
   ∃ ug padded,
     newton_update linalg_inv jac ff toll bnd_type (l, r) uo ug (nr_err s') padded ∧
     nr_un s' = Some padded ∧ length padded = N ∧
     nr_errt s' !! it = Some (nr_err s') ∧
     nr_countt s' !! it = Some (nr_count s')).

Lemma NR_while_spec it uo remaining s :
  it < nt → length uo = N → length (nr_ug s) = N → well_formed s →
  NR_while linalg_inv jac ff toll bnd_type (l, r) it uo remaining s
    = Raise LinAlgError ∨
  ∃ s', NR_while linalg_inv jac ff toll bnd_type (l, r) it uo remaining s = Ok s' ∧
        while_post it uo remaining s s'.
Proof.
  intros Hit Huo. revert s.
  induction remaining as [|k IH]; intros s Hug Hwf; simpl.
  - right. exists s. split; [done|]. destruct Hwf as (? & ? & ? & ? & ?).
    repeat split; try done; try lia; try (left; lia).
  - destruct (nge (nr_err s) toll) eqn:Hguard.
    2:{ right. exists s. split; [done|]. destruct Hwf as (? & ? & ? & ? & ?).
        repeat split; try done; try lia; try (by right). }
    destruct (NR_iteration_spec it uo s Hit Huo Hug Hwf)
      as [-> | (e & padded & -> & Hlp & Hupd)]; [by left|].
    rewrite bind_Ok.
    set (s1 := {| nr_t := nr_t s; nr_unnt := nr_unnt s;
                  nr_errt := <[it := e]> (nr_errt s);
                  nr_countt := <[it := nr_count s + 1]> (nr_countt s);
                  nr_ug := padded; nr_un := Some padded;
                  nr_err := e; nr_count := nr_count s + 1 |}).
    destruct Hwf as (Ht & Hu & He & Hc & Hall).
    assert (Hwf1 : well_formed s1).
    { repeat split; simpl; try done; by rewrite length_insert. }
    destruct (IH s1 Hlp Hwf1)
      as [-> | (s' & -> & H1 & H2 & H3 & H4 & H5 & H6 & H7 & H8 & H9)]; [by left|].
    right. exists s'. split; [done|]. simpl in *.
    repeat split; try done; try lia.
    + destruct (H5 j) as [Hj _]; [done|]. rewrite Hj.
      by apply list_lookup_insert_ne.
    + destruct (H5 j) as [_ Hj]; [done|]. rewrite Hj.
      by apply list_lookup_insert_ne.
    + destruct H7 as [H7|H7]; [left; lia | by right].
    + intros _. destruct (decide (nr_count s' = nr_count s + 1)) as [Heq|Hne].
      * rewrite (H8 Heq). simpl. exists (nr_ug s), padded.
        repeat split; try done; by apply list_lookup_insert_eq; lia.
      * apply H9. lia.
Qed.

(** What holds when the loop over time reaches step [it]. *)
Let time_inv (it : nat) (s : nr_state) : Prop :=
  well_formed s ∧ nr_err s = one ∧
  ∀ j, 1 ≤ j < it →
    NR_step_recorded linalg_inv jac ff toll ncount bnd_type (l, r) dt
                     (nr_t s) (nr_unnt s) (nr_errt s) (nr_countt s) j.

Lemma NR_time_step_spec it s :
  1 ≤ it < nt → time_inv it s →
  NR_time_step linalg_inv jac ff N toll ncount bnd_type (l, r) dt it s
    = Raise LinAlgError ∨
  ∃ s', NR_time_step linalg_inv jac ff N toll ncount bnd_type (l, r) dt it s = Ok s' ∧
        time_inv (it + 1) s'.
Proof.
  intros Hit ((Ht & Hu & He & Hc & Hall) & Herr & Hrec). unfold NR_time_step.
  destruct (lookup_lt_is_Some_2 (nr_unnt s) (it - 1)) as [uo Huo]; [lia|].
  assert (Hluo : length uo = N)
    by exact (Forall_lookup_1 (fun c : array => length c = N) _ _ _ Hall Huo).
  unfold get_col. rewrite Huo, !bind_Ok.
  set (s0 := {| nr_t := nr_t s; nr_unnt := nr_unnt s; nr_errt := nr_errt s;
                nr_countt := nr_countt s; nr_ug := uo; nr_un := nr_un s;
                nr_err := nr_err s; nr_count := 0 |}).
  assert (Hwf0 : well_formed s0) by done.
  destruct (NR_while_spec it uo ncount s0) as
    [-> | (s' & -> & H1 & H2 & H3 & H4 & H5 & H6 & H7 & H8 & H9)];
    [lia | done | done | done | by left |].
  right. rewrite bind_Ok. simpl in *.
  assert (Hk : 0 < nr_count s').
  { destruct (decide (nr_count s' = 0)) as [Hz|]; [|lia].
    rewrite (H8 Hz) in H7. simpl in H7. rewrite Herr in H7.
    destruct H7 as [H7|H7]; [lia | congruence]. }
  destruct (H9 Hk) as (ug & padded & Hupd & Hun & Hlp & Herrt & Hcountt).
  destruct (lookup_lt_is_Some_2 (nr_t s) (it - 1)) as [tp Htp]; [lia|].
  unfold getitem. rewrite H1, Htp, bind_Ok. rewrite setitem_ok by lia.
  rewrite bind_Ok, Hun, bind_Ok. unfold set_col. rewrite H2.
  destruct (it <? length (nr_unnt s)) eqn:E; [|apply Nat.ltb_ge in E; lia].
  rewrite broadcast_to_same by done. rewrite !bind_Ok.
  eexists; split; [reflexivity|]. split; [|split; [done|]]; simpl.
  - unfold well_formed. simpl.
    split; [by rewrite length_insert|]. split; [by rewrite length_insert|].
    split; [done|]. split; [done|]. by apply Forall_insert.
  - intros j Hj. destruct (decide (j = it)) as [->|Hne].
    + exists uo, ug, (nr_err s'), padded, (nr_count s'), tp.
      rewrite !list_lookup_insert_eq by lia.
      rewrite !list_lookup_insert_ne by lia.
      repeat split; try done; try lia.
    + destruct (Hrec j) as (uo' & ug' & e' & p' & k' & tp' & R1 & R2 & R3 & R4 & R5 & R6 & R7 & R8 & R9);
        [lia|].
      exists uo', ug', e', p', k', tp'.
      rewrite !list_lookup_insert_ne by lia.
      destruct (H5 j Hne) as [-> ->]. done.
Qed.

Lemma NR_run_spec hh :
  length hh = N → 1 ≤ nt →
  NR_diagnostics linalg_inv jac ff N toll ncount bnd_type (l, r) dt nt
    (NR_run linalg_inv jac ff N toll ncount bnd_type (l, r) hh dt nt).
Proof.
  intros Hh Hnt. unfold NR_run, set_col, np_zeros2, np_zeros.
  rewrite length_replicate. destruct (0 <? nt) eqn:E; [|apply Nat.ltb_ge in E; lia].
  rewrite broadcast_to_same by done. rewrite !bind_Ok.
  match goal with
  | |- context [for_range _ _ ?s0] =>
      destruct (for_range_seq_or time_inv
                  (NR_time_step linalg_inv jac ff N toll ncount bnd_type (l, r) dt)
                  LinAlgError 1 (nt - 1) s0) as [-> | (s' & -> & Hinv)]
  end.
  - split; [|split; [done|intros; lia]]. repeat split; simpl.
    + apply length_replicate.
    + by rewrite length_insert, length_replicate.
    + apply length_replicate.
    + apply length_replicate.
    + apply Forall_insert; [|done]. apply Forall_replicate, length_replicate.
  - intros i s Hi. apply NR_time_step_spec. lia.
  - by left.
  - right. rewrite bind_Ok.
    destruct Hinv as ((Ht & Hu & He & Hc & Hall) & _ & Hrec).
    exists (nr_t s'), (nr_unnt s'), (nr_errt s'), (nr_countt s').
    repeat split; try done. intros it Hit. apply Hrec. lia.
Qed.
End Newton_run.

Lemma gauss_inv_routine : inv_routine gauss_inv.
Proof.
  intros N M [HM _]. unfold gauss_inv.
  destruct (gauss_jordan M) as [M'|]; [|by left].
  destruct ((length M' =? length M)
            && forallb (fun row : array => length row =? length M) M') eqn:E;
    [|by left].
  right. exists M'. split; [done|].
  apply andb_prop in E as [E1 E2]. apply Nat.eqb_eq in E1.
  split; [lia|]. apply Forall_forall. intros row Hin.
  rewrite forallb_forall in E2. specialize (E2 row).
  rewrite <- HM. apply Nat.eqb_eq, E2. by apply list_elem_of_In.
Qed.

(** C5, as stated, fails: the flag is reset to the constant 1.0, which
    counts as not converged only for a tolerance of at most 1.  With
    [toll = 2] (or with [ncount = 0]) the inner loop is skipped in the first
    time step, [un] is still unbound when it is stored, and the run
    aborts. *)
Lemma Newton_Raphson_skips_the_iteration :
  nge one two = false ∧
  Newton_Raphson gauss_inv grid3 field3 one (fin 1 10) 2 two 2 Wrap (1, 1)
    = Raise UnboundLocalError ∧
  Newton_Raphson_u gauss_inv grid3 field3 (fin 1 10) 2 two 2 Wrap (1, 1)
    = Raise UnboundLocalError ∧
  Newton_Raphson gauss_inv grid3 field3 one (fin 1 10) 2 (fin 1 100000) 0 Wrap (1, 1)
    = Raise UnboundLocalError.
Proof. repeat split; vm_compute; reflexivity. Qed.

(** C5, amended: for every run of [Newton_Raphson] and of
    [Newton_Raphson_u] with a tolerance [toll <= 1.0] and a cap
    [ncount >= 1] (on a grid of at least two points, with a field of the
    grid's length and margins that fit), unless the run stops on a singular
    Jacobian: every time step [it] in [[1, nt-1]] starts from [err = 1.0 >=
    toll] and runs at least one Newton iteration, [1 <= countt[it] <=
    ncount]; reaching the cap without reaching the tolerance does not abort
    the run; the iterate of the last iteration is stored in [unnt[:, it]],
    its error in [errt[it]], the number of iterations in [countt[it]],
    [t[it] = t[it-1] + dt], and all [nt - 1] steps are taken. *)
Theorem Newton_Raphson_every_step_iterates
    (linalg_inv : matrix → res matrix) (xx hh : array) (a dt : num) (nt : nat)
    (toll : num) (ncount : nat) (bnd_type : bnd_type) (l r : nat) :
  inv_routine linalg_inv →
  2 ≤ length xx → length hh = length xx → l + r < length xx → 1 ≤ nt →
  nge one toll = true → 1 ≤ ncount →
  NR_diagnostics linalg_inv
    (fun ug => jacobian xx ug a dt) (fun ug uo => NR_f xx ug uo a dt)
    (length xx) toll ncount bnd_type (l, r) dt nt
    (Newton_Raphson linalg_inv xx hh a dt nt toll ncount bnd_type (l, r)) ∧
  NR_diagnostics linalg_inv
    (fun ug => jacobian_u xx ug dt) (fun ug uo => NR_f_u xx ug uo dt)
    (length xx) toll ncount bnd_type (l, r) dt nt
    (Newton_Raphson_u linalg_inv xx hh dt nt toll ncount bnd_type (l, r)).
Proof.
  intros Hinv Hn Hh Hlr Hnt Htoll Hncount. split.
  - apply NR_run_spec; try done.
    + intros ug _. by apply jacobian_ok.
    + intros ug uo Hug Huo. by apply NR_f_ok.
  - apply NR_run_spec; try done.
    + intros ug Hug. by apply jacobian_u_ok.
    + intros ug uo Hug Huo. by apply NR_f_u_ok.
Qed.

Lemma Newton_Raphson_every_step_iterates_witness :
  NR_diagnostics gauss_inv
    (fun ug => jacobian grid3 ug one (fin 1 10))
    (fun ug uo => NR_f grid3 ug uo one (fin 1 10))
    (length grid3) (fin 1 100000) 2 Wrap (1, 1) (fin 1 10) 3
    (Newton_Raphson gauss_inv grid3 field3 one (fin 1 10) 3 (fin 1 100000) 2
                    Wrap (1, 1)) ∧
  NR_diagnostics gauss_inv
    (fun ug => jacobian_u grid3 ug (fin 1 10))
    (fun ug uo => NR_f_u grid3 ug uo (fin 1 10))
    (length grid3) (fin 1 100000) 2 Wrap (1, 1) (fin 1 10) 3
    (Newton_Raphson_u gauss_inv grid3 field3 (fin 1 10) 3 (fin 1 100000) 2
                      Wrap (1, 1)).
Proof.
  apply (Newton_Raphson_every_step_iterates gauss_inv grid3 field3 one (fin 1 10)
           3 (fin 1 100000) 2 Wrap 1 1).
  - apply gauss_inv_routine.
  - simpl; lia.
  - reflexivity.
  - simpl; lia.
  - lia.
  - reflexivity.
  - lia.
Defined.

(** A run in which the first time step uses up the cap of two iterations
    with an error above the tolerance, and which goes on to the second time
    step all the same. *)
Example Newton_Raphson_cap_reached :
  ∃ t unnt e1 e2,
    Newton_Raphson gauss_inv grid3 field3 one (fin 1 10) 3 (fin 1 100000) 2
                   Wrap (1, 1)
    = Ok (t, unnt, [zero; e1; e2], [0; 2; 1]) ∧
    nge e1 (fin 1 100000) = true ∧ length unnt = 3.
Proof.
  destruct (Newton_Raphson gauss_inv grid3 field3 one (fin 1 10) 3 (fin 1 100000) 2
              Wrap (1, 1)) as [[[[t unnt] errt] countt]|e] eqn:E;
    vm_compute in E; [|discriminate].
  injection E as <- <- <- <-.
  eexists _, _, _, _. split; [reflexivity|]. split; vm_compute; reflexivity.
Qed.

(** * Further properties of the code *)

(** ** Boundary fix *)

Lemma slice_margins_of_padded (v a : array) l r :
  length v = l + length a + r →
  (∀ j, j < length a → v !! (l + j) = a !! j) →
  slice_margins v (l, r) = a.
Proof.
  intros Hlen Hlook. apply list_eq. intros j.
  destruct (decide (j < length a)) as [Hj|Hj].
  - rewrite slice_margins_lookup by lia. by apply Hlook.
  - rewrite !lookup_ge_None_2; [done | lia | rewrite slice_margins_length; lia].
Qed.

Lemma np_pad_edge_cons (x : num) (a : array) l r :
  np_pad (x :: a) (l, r) Edge
  = Ok (replicate l x ++ (x :: a) ++ replicate r (List.last (x :: a) x)).
Proof. reflexivity. Qed.

Lemma np_pad_constant (a : array) l r :
  np_pad a (l, r) Constant = Ok (replicate l zero ++ a ++ replicate r zero).
Proof. reflexivity. Qed.

Lemma np_pad_keeps_slice (a : array) l r mode v :
  np_pad a (l, r) mode = Ok v → slice_margins v (l, r) = a.
Proof.
  intros Hv. destruct mode.
  - destruct a as [|x a'].
    + simpl in Hv. destruct (l + r =? 0) eqn:E; [|discriminate].
      injection Hv as <-. apply Nat.eqb_eq in E.
      apply slice_margins_of_padded; simpl; [lia | intros; lia].
    + destruct (np_pad_wrap_spec (x :: a') l r) as (w & Hw & Hl & Hk); [done|].
      rewrite Hv in Hw. injection Hw as <-.
      apply slice_margins_of_padded; [done|]. intros j Hj.
      rewrite Hk by lia. by rewrite wrap_index_inner, Nat.add_comm, Nat.add_sub by lia.
  - destruct a as [|x a'].
    + simpl in Hv. destruct (l + r =? 0) eqn:E; [|discriminate].
      injection Hv as <-.
      apply slice_margins_of_padded; simpl; [apply Nat.eqb_eq in E; lia | intros; lia].
    + rewrite np_pad_edge_cons in Hv. injection Hv as <-.
      apply slice_margins_of_padded.
      * autorewrite with len. simpl. autorewrite with len. lia.
      * intros j Hj. rewrite lookup_app_r by (rewrite length_replicate; lia).
        rewrite length_replicate, Nat.add_comm, Nat.add_sub.
        change (x :: a' ++ ?R) with ((x :: a') ++ R).
        by rewrite lookup_app_l by done.
  - rewrite np_pad_constant in Hv. injection Hv as <-.
    apply slice_margins_of_padded.
    + autorewrite with len. simpl. lia.
    + intros j Hj. rewrite lookup_app_r by (rewrite length_replicate; lia).
      rewrite length_replicate, Nat.add_comm, Nat.add_sub.
      by rewrite lookup_app_l by done.
Qed.

(** X1.  The boundary fix is idempotent: an array that came out of it goes
    through it unchanged, whatever the mode and the margins. *)
Theorem fix_boundaries_idempotent (u v : array) (l r : nat) (mode : bnd_type) :
  fix_boundaries u (l, r) mode = Ok v → fix_boundaries v (l, r) mode = Ok v.
Proof.
  unfold fix_boundaries. intros Hv.
  by rewrite (np_pad_keeps_slice _ _ _ _ _ Hv).
Qed.

Lemma fix_boundaries_idempotent_witness :
  fix_boundaries [fin 7 4; fin 3 2; fin 7 4] (1, 0) Wrap
  = Ok [fin 7 4; fin 3 2; fin 7 4].
Proof.
  apply (fix_boundaries_idempotent [fin 11 4; fin 3 2; fin 7 4]). reflexivity.
Defined.

Lemma slice_margins_nil_iff (u : array) l r :
  slice_margins u (l, r) = [] ↔ length u ≤ l + r.
Proof.
  pose proof (slice_margins_length u l r) as H. split.
  - intros E. rewrite E in H. simpl in H. lia.
  - intros Hle. apply length_zero_iff_nil. lia.
Qed.

(** X2.  When the boundary fix fails: in 'wrap' and 'edge' mode it raises
    [ValueError] exactly when the margins leave nothing of the array
    ([N <= l + r], with a non-zero margin); in every other case, and always in
    'constant' mode, it returns an array of [max N (l + r)] entries, which is
    longer than the input when the margins exceed it. *)
Theorem fix_boundaries_raises_iff (u : array) (l r : nat) (mode : bnd_type) :
  (fix_boundaries u (l, r) mode = Raise ValueError
   ↔ mode ≠ Constant ∧ length u ≤ l + r ∧ 0 < l + r) ∧
  (∀ v, fix_boundaries u (l, r) mode = Ok v →
        length v = max (length u) (l + r)).
Proof.
  unfold fix_boundaries.
  pose proof (slice_margins_length u l r) as Hlen.
  pose proof (slice_margins_nil_iff u l r) as Hnil.
  destruct (slice_margins u (l, r)) as [|x a] eqn:Ha.
  - assert (Hle : length u ≤ l + r) by (by apply Hnil).
    destruct mode; simpl.
    + destruct (l + r =? 0) eqn:E.
      * apply Nat.eqb_eq in E. split; [split; [done | lia]|].
        intros v [= <-]. simpl. lia.
      * apply Nat.eqb_neq in E. split; [split; [intros _; repeat split; [done|lia..] | done]|].
        intros v [=].
    + destruct (l + r =? 0) eqn:E.
      * apply Nat.eqb_eq in E. split; [split; [done | lia]|].
        intros v [= <-]. simpl. lia.
      * apply Nat.eqb_neq in E. split; [split; [intros _; repeat split; [done|lia..] | done]|].
        intros v [=].
    + split; [split; [done | by intros [? _]]|].
      intros v [= <-]. autorewrite with len. simpl. lia.
  - assert (Hgt : ¬ length u ≤ l + r).
    { intros Hle. apply Hnil in Hle. discriminate. }
    simpl in Hlen.
    destruct (np_pad_ok (x :: a) l r mode) as (v & Hv & Hlv); [done|].
    rewrite Hv. split; [split; [done | intros (_ & ? & _); lia]|].
    intros v' [= <-]. rewrite Hlv. simpl. lia.
Qed.

Lemma last_lookup (a : array) (d : num) :
  a ≠ [] → a !! (length a - 1) = Some (List.last a d).
Proof.
  induction a as [|x a IH]; [done|]. intros _.
  destruct a as [|y a']; [done|].
  change (List.last (x :: y :: a') d) with (List.last (y :: a') d).
  rewrite <- IH by done. simpl. by rewrite Nat.sub_0_r.
Qed.

(** X3.  What 'edge' and 'constant' put in the margins: with margins that fit
    ([l + r < N]) both modes return [N] entries and keep the retained entries
    [u[l .. N-r-1]] in place; 'edge' fills the left margin with [u[l]] and
    the right margin with [u[N-r-1]], 'constant' fills both with zeros. *)
Theorem fix_boundaries_edge_constant (u : array) (l r : nat) :
  l + r < length u →
  ∃ v w,
    fix_boundaries u (l, r) Edge = Ok v ∧
    fix_boundaries u (l, r) Constant = Ok w ∧
    length v = length u ∧ length w = length u ∧
    ∀ k, k < length u →
      v !! k = u !! (if k <? l then l
                     else if k <? length u - r then k else length u - r - 1) ∧
      w !! k = (if (l <=? k) && (k <? length u - r) then u !! k else Some zero).
Proof.
  intros Hlr. unfold fix_boundaries.
  pose proof (slice_margins_length u l r) as Hlen.
  assert (Hlook : ∀ j, j < length u - r - l →
                       slice_margins u (l, r) !! j = u !! (l + j))
    by (intros; by apply slice_margins_lookup).
  destruct (slice_margins u (l, r)) as [|x a] eqn:Ha; [simpl in Hlen; lia|].
  rewrite np_pad_edge_cons, np_pad_constant.
  pose proof (last_lookup (x :: a) x) as Hlast.
  rewrite Hlen, Hlook in Hlast by (done || lia).
  assert (Hx : u !! l = Some x).
  { pose proof (Hlook 0 ltac:(lia)) as H0. rewrite Nat.add_0_r in H0.
    by rewrite <- H0. }
  eexists _, _. split; [reflexivity|]. split; [reflexivity|].
  split; [autorewrite with len; lia|]. split; [autorewrite with len; lia|].
  intros k Hk. split.
  - destruct (k <? l) eqn:E1.
    + apply Nat.ltb_lt in E1.
      rewrite lookup_app_l by (rewrite length_replicate; lia).
      by rewrite lookup_replicate_2, Hx by lia.
    + apply Nat.ltb_ge in E1.
      rewrite lookup_app_r by (rewrite length_replicate; lia).
      rewrite length_replicate.
      destruct (k <? length u - r) eqn:E2.
      * apply Nat.ltb_lt in E2. rewrite lookup_app_l by lia.
        rewrite Hlook by lia. f_equal. lia.
      * apply Nat.ltb_ge in E2. rewrite lookup_app_r by lia.
        rewrite lookup_replicate_2 by lia. rewrite <- Hlast by done. f_equal. lia.
  - destruct (l <=? k) eqn:E1; cbn [andb].
    + apply Nat.leb_le in E1.
      rewrite lookup_app_r by (rewrite length_replicate; lia).
      rewrite length_replicate.
      destruct (k <? length u - r) eqn:E2.
      * apply Nat.ltb_lt in E2. rewrite lookup_app_l by lia.
        rewrite Hlook by lia. f_equal. lia.
      * apply Nat.ltb_ge in E2. rewrite lookup_app_r by lia.
        by rewrite lookup_replicate_2 by lia.
    + apply Nat.leb_gt in E1.
      rewrite lookup_app_l by (rewrite length_replicate; lia).
      by rewrite lookup_replicate_2 by lia.
Qed.

Lemma fix_boundaries_edge_constant_witness :
  ∃ v w,
    fix_boundaries [one; two; three; fin 4 1; fin 5 1] (1, 2) Edge = Ok v ∧
    fix_boundaries [one; two; three; fin 4 1; fin 5 1] (1, 2) Constant = Ok w ∧
    length v = 5 ∧ length w = 5 ∧
    ∀ k, k < 5 →
      v !! k = [one; two; three; fin 4 1; fin 5 1]
                 !! (if k <? 1 then 1 else if k <? 5 - 2 then k else 5 - 2 - 1) ∧
      w !! k = (if (1 <=? k) && (k <? 5 - 2)
                then [one; two; three; fin 4 1; fin 5 1] !! k else Some zero).
Proof.
  apply (fix_boundaries_edge_constant [one; two; three; fin 4 1; fin 5 1] 1 2).
  simpl. lia.
Defined.

(** ** Derivative operators *)

Lemma broadcast2_raises_iff (op : num → num → num) (x y : array) :
  broadcast2 op x y = Raise ValueError
  ↔ length x ≠ length y ∧ length x ≠ 1 ∧ length y ≠ 1.
Proof.
  unfold broadcast2. destruct (length x =? length y) eqn:E.
  - apply Nat.eqb_eq in E. split; [done | intros [? _]; lia].
  - apply Nat.eqb_neq in E.
    destruct x as [|a [|a' x']], y as [|b [|b' y']]; simpl in *;
      split; try done; try lia; intros (? & ? & ?); lia.
Qed.

(** X4.  The three stencils raise [ValueError] exactly when the field and
    the grid have different lengths and neither has length 1 (a single value
    is broadcast); they raise nothing else, division by zero included. *)
Theorem deriv_raises_iff (xx hh : array) :
  let mismatch :=
    length hh ≠ length xx ∧ length hh ≠ 1 ∧ length xx ≠ 1 in
  (deriv_dnw xx hh = Raise ValueError ↔ mismatch) ∧
  (deriv_upw xx hh = Raise ValueError ↔ mismatch) ∧
  (deriv_cent xx hh = Raise ValueError ↔ mismatch) ∧
  (∀ e, deriv_dnw xx hh = Raise e ∨ deriv_upw xx hh = Raise e
        ∨ deriv_cent xx hh = Raise e → e = ValueError).
Proof.
  intros mismatch. subst mismatch.
  unfold deriv_dnw, deriv_upw, deriv_cent, vdiv, vsub, lift2.
  rewrite !bind_Ok. rewrite !broadcast2_same by solve_len. rewrite !bind_Ok.
  split; [rewrite broadcast2_raises_iff; autorewrite with len; lia|].
  split; [rewrite broadcast2_raises_iff; autorewrite with len; lia|].
  split; [rewrite broadcast2_raises_iff; autorewrite with len; lia|].
  intros e [H|[H|H]]; unfold broadcast2 in H;
    destruct (_ =? _) in H; try discriminate;
    repeat (match type of H with context [match ?l with _ => _ end] =>
              destruct l; try discriminate end); congruence.
Qed.

Lemma np_roll_lookup {A} (a : list A) (s : Z) i :
  i < length a →
  np_roll a s !! i = a !! Z.to_nat ((Z.of_nat i - s) mod Z.of_nat (length a)).
Proof.
  intros Hi. unfold np_roll. rewrite lookup_rotate_r by done. f_equal.
  unfold rotate_nat_add.
  rewrite Z2Nat.id by (apply Z.mod_pos_bound; lia).
  rewrite Zplus_mod_idemp_l. f_equal. f_equal. lia.
Qed.

Lemma np_roll_zip_with {A B C} (f : A → B → C) (a : list A) (b : list B) s :
  length a = length b →
  np_roll (zip_with f a b) s = zip_with f (np_roll a s) (np_roll b s).
Proof.
  intros Hl. apply list_eq. intros i.
  destruct (decide (i < length a)) as [Hi|Hi].
  - rewrite np_roll_lookup by (rewrite length_zip_with; lia).
    rewrite !lookup_zip_with, !np_roll_lookup by lia.
    rewrite length_zip_with. rewrite <- Hl, Nat.min_id. done.
  - rewrite !lookup_ge_None_2; [done|..];
      rewrite ?length_zip_with, ?length_np_roll, ?length_zip_with; lia.
Qed.

Lemma np_roll_np_roll {A} (a : list A) (s t : Z) :
  np_roll (np_roll a s) t = np_roll a (s + t).
Proof.
  apply list_eq. intros i. destruct (decide (i < length a)) as [Hi|Hi].
  - rewrite !np_roll_lookup; rewrite ?length_np_roll; try lia.
    + rewrite Z2Nat.id by (apply Z.mod_pos_bound; lia).
      rewrite Zminus_mod_idemp_l. do 3 f_equal. lia.
    + pose proof (Z.mod_pos_bound (Z.of_nat i - t) (Z.of_nat (length a))). lia.
  - rewrite !lookup_ge_None_2; [done|..]; rewrite ?length_np_roll; lia.
Qed.

Lemma np_roll_zero {A} (a : list A) : np_roll a 0 = a.
Proof.
  unfold np_roll. simpl. rewrite Zmod_0_l. simpl.
  unfold rotate. rewrite Nat.Div0.mod_0_l. simpl. apply app_nil_r.
Qed.

(** X5.  The upwind derivative is the downwind derivative shifted by one
    point: [deriv_upw(xx, hh) = np.roll(deriv_dnw(xx, hh), 1)], entry for
    entry, special values included. *)
Theorem deriv_upw_is_rolled_dnw (xx hh : array) :
  length hh = length xx →
  deriv_upw xx hh = (fun d => np_roll d 1) <$> deriv_dnw xx hh.
Proof.
  intros Hl. unfold deriv_upw, deriv_dnw. repeat arr_step. simpl. f_equal.
  rewrite !np_roll_zip_with by solve_len.
  rewrite !np_roll_np_roll. change (-1 + 1)%Z with 0%Z.
  by rewrite !np_roll_zero.
Qed.

Lemma deriv_upw_is_rolled_dnw_witness :
  deriv_upw grid3 field3 = (fun d => np_roll d 1) <$> deriv_dnw grid3 field3.
Proof. apply (deriv_upw_is_rolled_dnw grid3 field3). reflexivity. Defined.

Lemma next_index (N i : nat) :
  i < N → (i + 1) mod N = if decide (i + 1 = N) then 0 else i + 1.
Proof.
  intros Hi. case_decide as E.
  - rewrite E. apply Nat.Div0.mod_same.
  - apply Nat.mod_small. lia.
Qed.

Lemma prev_index (N i : nat) :
  i < N → (i + N - 1) mod N = if decide (i = 0) then N - 1 else i - 1.
Proof.
  intros Hi. case_decide as E.
  - subst i. apply Nat.mod_small. lia.
  - replace (i + N - 1) with (i - 1 + 1 * N) by lia.
    rewrite Nat.Div0.mod_add. apply Nat.mod_small. lia.
Qed.

Lemma grid_distinct (xx : array) i j :
  finite_array xx = true → increasing xx = true →
  i < length xx → j < length xx → i ≠ j →
  ∃ p q, xx !!! i = Fin p ∧ xx !!! j = Fin q ∧ p ≠ q.
Proof.
  intros Hf Hi Hli Hlj Hne.
  destruct (lookup_lt_is_Some_2 xx i Hli) as [a Ha].
  destruct (lookup_lt_is_Some_2 xx j Hlj) as [b Hb].
  rewrite (list_lookup_total_correct _ _ _ Ha), (list_lookup_total_correct _ _ _ Hb).
  pose proof (finite_array_lookup _ _ _ Hf Ha) as Hfa.
  pose proof (finite_array_lookup _ _ _ Hf Hb) as Hfb.
  destruct a as [p| | |], b as [q| | |]; try discriminate.
  exists p, q. split; [done|]. split; [done|].
  destruct (decide (i < j)) as [Hlt|Hge].
  - pose proof (increasing_lookup xx i j _ _ Hf Hi Hlt Ha Hb) as H.
    apply nlt_Fin in H. by apply Qclt_not_eq.
  - assert (Hlt : j < i) by lia.
    pose proof (increasing_lookup xx j i _ _ Hf Hi Hlt Hb Ha) as H.
    apply nlt_Fin in H. by apply not_eq_sym, Qclt_not_eq.
Qed.

Lemma affine_quotient (c d p q : Qc) :
  p ≠ q →
  ((Fin c * Fin q + Fin d - (Fin c * Fin p + Fin d)) / (Fin q - Fin p))%num = Fin c.
Proof.
  intros Hne.
  change ((Fin c * Fin q + Fin d - (Fin c * Fin p + Fin d)) / (Fin q - Fin p))%num
    with (Fin (c * q + d + - (c * p + d)) / Fin (q + - p))%num.
  assert (Hd : (q + - p)%Qc ≠ Q2Qc 0).
  { intros E. apply Hne. symmetry.
    replace q with ((q + - p) + p)%Qc by ring. rewrite E. ring. }
  rewrite ndiv_Fin by done. f_equal. field. done.
Qed.

Lemma replicate_from_entries (l : array) (x : num) :
  (∀ i, i < length l → l !!! i = x) → l = replicate (length l) x.
Proof.
  intros H. apply list_eq. intros i.
  destruct (decide (i < length l)) as [Hi|Hi].
  - rewrite lookup_replicate_2 by done. rewrite <- (H i Hi).
    by apply list_lookup_lookup_total_lt.
  - rewrite !lookup_ge_None_2; [done | rewrite length_replicate; lia | lia].
Qed.

(** X6.  In exact arithmetic (the rounding of float64 set aside): on a
    finite, strictly increasing grid the downwind and the upwind stencil
    differentiate an affine field [c x + d] exactly at every point, the
    point where the index wraps around included; so does the centred stencil
    on a grid of at least three points.  A float64 run rounds the products,
    the differences and the quotient, and can miss [c] by the rounding
    error. *)
Theorem deriv_exact_on_affine (xx : array) (c d : Qc) :
  finite_array xx = true → increasing xx = true → 2 ≤ length xx →
  let hh := map (fun x => (Fin c * x + Fin d)%num) xx in
  deriv_dnw xx hh = Ok (replicate (length xx) (Fin c)) ∧
  deriv_upw xx hh = Ok (replicate (length xx) (Fin c)) ∧
  (3 ≤ length xx → deriv_cent xx hh = Ok (replicate (length xx) (Fin c))).
Proof.
  intros Hf Hi Hn hh.
  assert (Hlh : length hh = length xx) by (subst hh; apply length_map).
  assert (Hh : ∀ i, i < length xx → hh !!! i = (Fin c * xx !!! i + Fin d)%num).
  { intros i Hlt. subst hh. by rewrite arr_lookup_map. }
  assert (Hentry : ∀ i j, i < length xx → j < length xx → i ≠ j →
            ((hh !!! j - hh !!! i) / (xx !!! j - xx !!! i))%num = Fin c).
  { intros i j Hli Hlj Hne. rewrite !Hh by done.
    destruct (grid_distinct xx i j Hf Hi Hli Hlj Hne) as (p & q & -> & -> & Hpq).
    by apply affine_quotient. }
  unfold deriv_dnw, deriv_upw, deriv_cent. repeat arr_step.
  split; [|split; [|intros Hn3]]; f_equal.
  - match goal with |- ?l = _ =>
      transitivity (replicate (length l) (Fin c)); [|f_equal; solve_len] end.
    apply replicate_from_entries. intros i Hlt.
    assert (Hlt' : i < length xx) by solve_len.
    rewrite !arr_lookup_zip_with by solve_len.
    rewrite !np_roll_next by lia. rewrite Hlh.
    pose proof (next_index (length xx) i Hlt') as E.
    apply Hentry; [done | apply Nat.mod_upper_bound; lia |].
    rewrite E. case_decide; lia.
  - match goal with |- ?l = _ =>
      transitivity (replicate (length l) (Fin c)); [|f_equal; solve_len] end.
    apply replicate_from_entries. intros i Hlt.
    assert (Hlt' : i < length xx) by solve_len.
    rewrite !arr_lookup_zip_with by solve_len.
    rewrite !np_roll_prev by lia. rewrite Hlh.
    pose proof (prev_index (length xx) i Hlt') as E.
    apply Hentry; [apply Nat.mod_upper_bound; lia | done |].
    rewrite E. case_decide; lia.
  - match goal with |- ?l = _ =>
      transitivity (replicate (length l) (Fin c)); [|f_equal; solve_len] end.
    apply replicate_from_entries. intros i Hlt.
    assert (Hlt' : i < length xx) by solve_len.
    rewrite !arr_lookup_zip_with by solve_len.
    rewrite !np_roll_next, !np_roll_prev by lia. rewrite Hlh.
    pose proof (next_index (length xx) i Hlt') as E1.
    pose proof (prev_index (length xx) i Hlt') as E2.
    apply Hentry; [apply Nat.mod_upper_bound; lia..|].
    rewrite E1, E2. repeat case_decide; lia.
Qed.

Lemma deriv_exact_on_affine_witness :
  let hh := map (fun x => (Fin (qc 2 1) * x + Fin (qc 1 1))%num) grid3 in
  deriv_dnw grid3 hh = Ok (replicate (length grid3) (Fin (qc 2 1))) ∧
  deriv_upw grid3 hh = Ok (replicate (length grid3) (Fin (qc 2 1))) ∧
  (3 ≤ length grid3 →
   deriv_cent grid3 hh = Ok (replicate (length grid3) (Fin (qc 2 1)))).
Proof.
  apply (deriv_exact_on_affine grid3 (qc 2 1) (qc 1 1)).
  - reflexivity.
  - reflexivity.
  - simpl; lia.
Defined.

(** ** Step sizes *)

Lemma uniform_grid_length x0 h N : length (uniform_grid x0 h N) = N.
Proof. unfold uniform_grid. by rewrite length_map, length_seq. Qed.

Lemma uniform_grid_lookup x0 h N i :
  i < N → uniform_grid x0 h N !!! i = Fin (x0 + nat_to_Qc i * h)%Qc.
Proof.
  intros Hi. unfold uniform_grid.
  rewrite (list_lookup_total_fmap (fun i => Fin (x0 + nat_to_Qc i * h)%Qc))
    by (rewrite length_seq; lia).
  by rewrite lookup_total_seq_lt by done.
Qed.

Lemma Qc_two_nonzero : qc 2 1 ≠ Q2Qc 0.
Proof. intros H. discriminate H. Qed.

Lemma Qc_two_sum : qc 2 1 = (Q2Qc 1 + Q2Qc 1)%Qc.
Proof. apply Qc_is_canon. reflexivity. Qed.

Lemma np_gradient_uniform x0 h N :
  2 ≤ N → np_gradient (uniform_grid x0 h N) = Ok (replicate N (Fin h)).
Proof.
  intros HN. unfold np_gradient. rewrite uniform_grid_length.
  destruct (N <? 2) eqn:E; [apply Nat.ltb_lt in E; lia|]. f_equal.
  match goal with |- ?l = _ =>
    transitivity (replicate (length l) (Fin h)); [|f_equal; solve_len] end.
  apply replicate_from_entries. intros i Hi.
  rewrite length_map, length_seq in Hi.
  rewrite (list_lookup_total_fmap _ (seq 0 N) i) by (rewrite length_seq; lia).
  rewrite lookup_total_seq_lt by done. simpl.
  destruct (i =? 0) eqn:E0.
  - rewrite !uniform_grid_lookup by lia. simpl.
    unfold nsub, nadd, nopp. f_equal. ring.
  - apply Nat.eqb_neq in E0. destruct (i =? N - 1) eqn:E1.
    + rewrite !uniform_grid_lookup by lia.
      replace (N - 1) with (S (N - 2)) by lia. simpl.
      unfold nsub, nadd, nopp. f_equal. ring.
    + rewrite !uniform_grid_lookup by (apply Nat.eqb_neq in E1; lia).
      destruct i as [|k]; [done|].
      replace (S k + 1) with (S (S k)) by lia.
      replace (S k - 1) with k by lia. simpl.
      change ((Fin ?a - Fin ?b) / two)%num with (Fin (a + - b) / Fin (qc 2 1))%num.
      rewrite ndiv_Fin by apply Qc_two_nonzero. f_equal.
      rewrite Qc_two_sum. field. intros H. discriminate H.
Qed.

Lemma map_replicate {A B} (f : A → B) n (x : A) :
  map f (replicate n x) = replicate n (f x).
Proof. induction n as [|n IH]; simpl; [done | by rewrite IH]. Qed.

Lemma np_min_replicate (x : num) n : np_min (replicate (S n) x) = Ok x.
Proof.
  simpl. f_equal. induction n as [|n IH]; simpl; [done|].
  replace (nminimum x x) with x; [done|].
  unfold nminimum. destruct x; try done. by destruct (nle _ _).
Qed.

Lemma qabs_nonzero (c : Qc) : c ≠ Q2Qc 0 → qabs c ≠ Q2Qc 0.
Proof.
  intros Hc. unfold qabs. destruct (c ?= 0)%Qc; try done.
  intros E. apply Hc. rewrite <- (Qcopp_involutive c), E. ring.
Qed.

Lemma cfl_adv_burger_uniform (x0 h c : Qc) (N : nat) :
  2 ≤ N → c ≠ Q2Qc 0 →
  cfl_adv_burger (Scalar (Fin c)) (uniform_grid x0 h N) = Ok (Fin (h / qabs c)%Qc).
Proof.
  intros HN Hc. unfold cfl_adv_burger. rewrite np_gradient_uniform by done.
  rewrite bind_Ok. repeat arr_step. rewrite ?bind_Ok.
  rewrite nabs_Fin. rewrite (map_replicate (fun v => (v / Fin (qabs c))%num)).
  rewrite ndiv_Fin by (by apply qabs_nonzero).
  destruct N as [|n]; [lia|]. apply np_min_replicate.
Qed.

Lemma cfl_diff_burger_uniform (x0 h c : Qc) (N : nat) :
  2 ≤ N → c ≠ Q2Qc 0 →
  cfl_diff_burger (Scalar (Fin c)) (uniform_grid x0 h N)
  = Ok (Fin (h * h / (qc 2 1 * qabs c))%Qc).
Proof.
  intros HN Hc. unfold cfl_diff_burger. rewrite np_gradient_uniform by done.
  rewrite bind_Ok. repeat arr_step. rewrite ?bind_Ok.
  rewrite nabs_Fin. rewrite !map_replicate.
  change (Fin h * Fin h)%num with (Fin (h * h)).
  change (two * Fin (qabs c))%num with (Fin (qc 2 1 * qabs c)).
  rewrite ndiv_Fin.
  - destruct N as [|n]; [lia|]. apply np_min_replicate.
  - intros E. apply Qcmult_integral in E as [E|E];
      [by apply Qc_two_nonzero | by apply (qabs_nonzero c)].
Qed.



Lemma step_adv_burgers_dt xx u a cfl_cut ddx dt rhs c :
  cfl_adv_burger a xx = Ok c →
  step_adv_burgers xx u a cfl_cut ddx = Ok (dt, rhs) → dt = (c * cfl_cut)%num.
Proof.
  intros Hc. unfold step_adv_burgers. rewrite Hc, bind_Ok.
  destruct (coef_v _ _ _) as [rhs'|e]; [|discriminate].
  rewrite bind_Ok. by intros [= <- _].
Qed.

(** X8.  The time axis of [evolv_adv_burgers] is uniform: every step
    advances the time by the same amount, [cfl_adv_burger(a, xx) * cfl_cut],
    which depends on the grid and the coefficient and not on the field. *)
Theorem evolv_adv_burgers_uniform_time
    (xx hh : array) (nt : nat) (a : coef) (cfl_cut : num) (ddx : deriv_op)
    (bnd_type : bnd_type) (l r : nat) :
  2 ≤ length xx → length hh = length xx → coef_fits (length xx) a →
  well_shaped ddx → l + r < length xx → 1 ≤ nt →
  ∃ t unnt c,
    evolv_adv_burgers xx hh nt a cfl_cut ddx bnd_type (l, r) = Ok (t, unnt) ∧
    cfl_adv_burger a xx = Ok c ∧
    t !! 0 = Some zero ∧
    ∀ i, i + 1 < nt →
      ∃ ti, t !! i = Some ti ∧ t !! (i + 1) = Some (ti + c * cfl_cut)%num.
Proof.
  intros Hn Hh Ha Hd Hlr Hnt.
  destruct (march_spec (length xx) nt bnd_type l r (adv_u_next xx a cfl_cut ddx)
              Hlr (fun u => adv_u_next_ok xx a cfl_cut ddx u Hn Ha Hd) hh Hh Hnt)
    as (t & unnt & Hrun & Ht & Hu & Hall & Ht0 & Hu0 & Hrec).
  destruct (cfl_adv_burger_ok a xx Hn Ha) as (c & Hc).
  exists t, unnt, c. repeat split; try done.
  intros i Hi.
  destruct (Hrec i Hi) as (u & dt & v & p & ti & H1 & H2 & H3 & H4 & H5 & H6).
  destruct (adv_u_next_inv _ _ _ _ _ _ _ H2) as (rhs & Hs & Hv).
  exists ti. split; [done|].
  by rewrite <- (step_adv_burgers_dt _ _ _ _ _ _ _ _ Hc Hs).
Qed.

Lemma evolv_adv_burgers_uniform_time_witness :
  ∃ t unnt c,
    evolv_adv_burgers grid3 field3 3 (Scalar (fin (-1) 1)) (fin 49 50)
                      deriv_dnw Wrap (0, 1) = Ok (t, unnt) ∧
    cfl_adv_burger (Scalar (fin (-1) 1)) grid3 = Ok c ∧
    t !! 0 = Some zero ∧
    ∀ i, i + 1 < 3 →
      ∃ ti, t !! i = Some ti ∧ t !! (i + 1) = Some (ti + c * fin 49 50)%num.
Proof.
  apply (evolv_adv_burgers_uniform_time grid3 field3 3 (Scalar (fin (-1) 1))
           (fin 49 50) deriv_dnw Wrap 0 1).
  - simpl; lia.
  - reflexivity.
  - exact I.
  - apply deriv_dnw_well_shaped.
  - simpl; lia.
  - lia.
Defined.

(** ** Steady states *)

Lemma np_roll_replicate {A} (x : A) n s : np_roll (replicate n x) s = replicate n x.
Proof. unfold np_roll. apply rotate_replicate. Qed.

Lemma finite_array_lookup_total (xx : array) i :
  finite_array xx = true → i < length xx → ∃ p, xx !!! i = Fin p.
Proof.
  intros Hf Hi. destruct (lookup_lt_is_Some_2 xx i Hi) as [a Ha].
  rewrite (list_lookup_total_correct _ _ _ Ha).
  pose proof (finite_array_lookup _ _ _ Hf Ha). destruct a; try discriminate.
  by eexists.
Qed.

Lemma np_gradient_finite (xx : array) :
  finite_array xx = true → 2 ≤ length xx →
  ∃ qs, np_gradient xx = Ok (map Fin qs) ∧ length qs = length xx.
Proof.
  intros Hf Hn. unfold np_gradient.
  destruct (length xx <? 2) eqn:E; [apply Nat.ltb_lt in E; lia|].
  match goal with |- ∃ qs, Ok ?g = _ ∧ _ =>
    assert (Hg : finite_array g = true) end.
  { apply forallb_forall. intros v (i & <- & Hi%in_seq)%in_map_iff.
    destruct (finite_array_lookup_total xx 0 Hf) as (p0 & ->); [lia|].
    destruct (finite_array_lookup_total xx 1 Hf) as (p1 & ->); [lia|].
    destruct (finite_array_lookup_total xx (length xx - 1) Hf) as (pl & ->); [lia|].
    destruct (finite_array_lookup_total xx (length xx - 2) Hf) as (pm & ->); [lia|].
    destruct (i =? 0); [done|]. destruct (i =? length xx - 1) eqn:E1; [done|].
    apply Nat.eqb_neq in E1.
    destruct (finite_array_lookup_total xx (i + 1) Hf) as (pa & ->); [lia|].
    destruct (finite_array_lookup_total xx (i - 1) Hf) as (pb & ->); [lia|].
    change (Fin pa - Fin pb)%num with (Fin (pa + - pb)).
    unfold two, fin. by rewrite ndiv_Fin by apply Qc_two_nonzero. }
  destruct (finite_array_Fin _ Hg) as (qs & Hqs). exists qs. split; [by rewrite Hqs|].
  apply (f_equal length) in Hqs. rewrite !length_map, length_seq in Hqs. lia.
Qed.

Lemma np_min_Fin (qs : list Qc) :
  qs ≠ [] → ∃ q, np_min (map Fin qs) = Ok (Fin q).
Proof.
  destruct qs as [|p qs]; [done|]. intros _. simpl. revert p.
  induction qs as [|p' qs IH]; intros p; simpl; [by eexists|].
  assert (∃ m, nminimum (Fin p) (Fin p') = Fin m) as (m & ->).
  { unfold nminimum. destruct (nle _ _); by eexists. }
  apply IH.
Qed.

Lemma cfl_adv_burger_finite (xx : array) (a0 : Qc) :
  finite_array xx = true → 2 ≤ length xx → a0 ≠ Q2Qc 0 →
  ∃ q, cfl_adv_burger (Scalar (Fin a0)) xx = Ok (Fin q).
Proof.
  intros Hf Hn Ha. unfold cfl_adv_burger.
  destruct (np_gradient_finite xx Hf Hn) as (qs & -> & Hl).
  rewrite bind_Ok. repeat arr_step. rewrite ?bind_Ok. rewrite nabs_Fin.
  rewrite (map_Fin _ (fun q => (q / qabs a0)%Qc))
    by (intros; by apply ndiv_Fin, qabs_nonzero).
  apply np_min_Fin. destruct qs; [simpl in Hl; lia | done].
Qed.

Lemma slice_margins_replicate (x : num) N l r :
  slice_margins (replicate N x) (l, r) = replicate (N - r - l) x.
Proof.
  unfold slice_margins. simpl. rewrite length_replicate. destruct (0 <? r) eqn:E.
  - rewrite take_replicate, drop_replicate. f_equal. lia.
  - apply Nat.ltb_ge in E. rewrite drop_replicate. f_equal. lia.
Qed.

Lemma last_replicate (x d : num) n : List.last (replicate (S n) x) d = x.
Proof. induction n as [|n IH]; [done|]. exact IH. Qed.

Lemma fix_boundaries_replicate (x : num) N l r mode :
  l + r < N → mode ≠ Constant →
  fix_boundaries (replicate N x) (l, r) mode = Ok (replicate N x).
Proof.
  intros Hlr Hmode. unfold fix_boundaries. rewrite slice_margins_replicate.
  destruct (N - r - l) as [|n] eqn:En; [lia|]. destruct mode; [| |done].
  - destruct (np_pad_wrap_spec (replicate (S n) x) l r) as (v & -> & Hl & Hk); [done|].
    f_equal. rewrite length_replicate in Hl, Hk. apply list_eq. intros k.
    destruct (decide (k < N)) as [Hlt|Hge].
    + rewrite Hk by lia. rewrite !lookup_replicate_2; [done | lia |].
      apply wrap_index_lt. lia.
    + rewrite !lookup_ge_None_2; [done | rewrite length_replicate; lia | lia].
  - change (replicate (S n) x) with (x :: replicate n x) at 1.
    rewrite np_pad_edge_cons. f_equal.
    change (x :: replicate n x) with (replicate (S n) x).
    rewrite last_replicate, <- !replicate_add. f_equal. lia.
Qed.

Section Steady.
Variables (N nt : nat) (bnd_type : bnd_type) (l r : nat).
Variable step : array → res (num * array).
Variables (hh : array) (dt : num).
Hypothesis margins_fit : l + r < N.
Hypothesis step_total :
  ∀ u, length u = N → ∃ dt v, step u = Ok (dt, v) ∧ length v = N.
Hypothesis field_length : length hh = N.
Hypothesis step_fixes : step hh = Ok (dt, hh).
Hypothesis bnd_fixes : fix_boundaries hh (l, r) bnd_type = Ok hh.

(** A field that the step and the boundary fix leave alone fills every
    column, and the time advances by the same [dt] in every step. *)
Lemma march_steady :
  1 ≤ nt →
  ∃ t unnt,
    (s ← init_series N nt hh; march N nt bnd_type (l, r) step s) = Ok (t, unnt) ∧
    length unnt = nt ∧
    (∀ i, i < nt → unnt !! i = Some hh) ∧
    (∀ i, i + 1 < nt →
          ∃ ti, t !! i = Some ti ∧ t !! (i + 1) = Some (ti + dt)%num).
Proof.
  intros Hnt.
  destruct (march_spec N nt bnd_type l r step margins_fit step_total hh
              field_length Hnt)
    as (t & unnt & Hrun & Ht & Hu & Hall & Ht0 & Hu0 & Hrec).
  exists t, unnt. split; [done|]. split; [done|].
  assert (Hcols : ∀ i, i < nt → unnt !! i = Some hh).
  { induction i as [|i IH]; intros Hi; [done|].
    destruct (Hrec i) as (u & dt' & v & p & ti & H1 & H2 & H3 & H4 & H5 & H6); [lia|].
    rewrite IH in H1 by lia. injection H1 as <-.
    rewrite step_fixes in H2. injection H2 as <- <-.
    rewrite bnd_fixes in H3. injection H3 as <-.
    by rewrite <- Nat.add_1_r. }
  split; [done|]. intros i Hi.
  destruct (Hrec i Hi) as (u & dt' & v & p & ti & H1 & H2 & H3 & H4 & H5 & H6).
  rewrite Hcols in H1 by lia. injection H1 as <-.
  rewrite step_fixes in H2. injection H2 as <- <-.
  by exists ti.
Qed.
End Steady.

Lemma deriv_of_constant (xx : array) (d : Qc) :
  finite_array xx = true → increasing xx = true → 2 ≤ length xx →
  deriv_dnw xx (replicate (length xx) (Fin d)) = Ok (replicate (length xx) zero) ∧
  deriv_upw xx (replicate (length xx) (Fin d)) = Ok (replicate (length xx) zero).
Proof.
  intros Hf Hi Hn.
  assert (Hentry : ∀ i j, i < length xx → j < length xx → i ≠ j →
            ((Fin d - Fin d) / (xx !!! j - xx !!! i))%num = zero).
  { intros i j Hli Hlj Hne.
    destruct (grid_distinct xx i j Hf Hi Hli Hlj Hne) as (p & q & -> & -> & Hpq).
    change ((Fin d - Fin d) / (Fin q - Fin p))%num
      with (Fin (d + - d) / Fin (q + - p))%num.
    assert (Hd : (q + - p)%Qc ≠ Q2Qc 0).
    { intros E. apply Hpq. symmetry.
      replace q with ((q + - p) + p)%Qc by ring. rewrite E. ring. }
    rewrite ndiv_Fin by done. unfold zero, fin, qc. f_equal. field. done. }
  unfold deriv_dnw, deriv_upw. rewrite !np_roll_replicate. repeat arr_step.
  split; f_equal.
  - match goal with |- ?l = _ =>
      transitivity (replicate (length l) zero); [|f_equal; solve_len] end.
    apply replicate_from_entries. intros i Hlt.
    assert (Hlt' : i < length xx) by solve_len.
    rewrite !arr_lookup_zip_with by solve_len.
    rewrite !lookup_total_replicate_2 by lia. rewrite np_roll_next by lia.
    pose proof (next_index (length xx) i Hlt') as E.
    apply Hentry; [done | apply Nat.mod_upper_bound; lia |].
    rewrite E. case_decide; lia.
  - match goal with |- ?l = _ =>
      transitivity (replicate (length l) zero); [|f_equal; solve_len] end.
    apply replicate_from_entries. intros i Hlt.
    assert (Hlt' : i < length xx) by solve_len.
    rewrite !arr_lookup_zip_with by solve_len.
    rewrite !lookup_total_replicate_2 by lia. rewrite np_roll_prev by lia.
    pose proof (prev_index (length xx) i Hlt') as E.
    apply Hentry; [apply Nat.mod_upper_bound; lia | done |].
    rewrite E. case_decide; lia.
Qed.

Lemma is_finite_nmul (x y : num) :
  is_finite (x * y) = true → ∃ p q, x = Fin p ∧ y = Fin q.
Proof.
  destruct x as [p| | |], y as [q| | |]; try done; [by eexists _, _|..];
    unfold nmul, signed_inf; intros H.
  - by destruct (p ?= 0)%Qc.
  - by destruct (- p ?= 0)%Qc.
  - by destruct (q ?= 0)%Qc.
  - by destruct (- q ?= 0)%Qc.
Qed.

Lemma in_float_range_finite (v : num) :
  in_float_range v = true → is_finite v = true.
Proof. by destruct v. Qed.

(** X9.  A constant field is a steady state of [evolv_adv_burgers], in
    float64 as in exact arithmetic: on a finite, strictly increasing grid
    whose differences do not overflow, with a constant coefficient for which
    [cfl_adv_burger(a, xx)] and the step size [cfl_adv_burger(a, xx) * cfl_cut]
    are of magnitude at most [2^1023] (so the coefficient is not zero), the
    downwind or the upwind stencil and 'wrap' or 'edge' boundaries, every
    column of the result is the initial constant field.  (The derivative of
    the constant field is [0/dx = 0], the right-hand side is zero, and zero
    times a finite step size is zero; with an infinite step size the product
    is a NaN.) *)
Theorem evolv_adv_burgers_constant_field
    (xx : array) (d a0 : Qc) (cfl_cut c : num) (nt : nat) (ddx : deriv_op)
    (bnd_type : bnd_type) (l r : nat) :
  finite_array xx = true → increasing xx = true → 2 ≤ length xx →
  grid_in_float_range xx = true →
  cfl_adv_burger (Scalar (Fin a0)) xx = Ok c →
  in_float_range c = true →
  in_float_range (c * cfl_cut) = true →
  ddx = deriv_dnw ∨ ddx = deriv_upw →
  bnd_type ≠ Constant → l + r < length xx → 1 ≤ nt →
  ∃ t unnt,
    evolv_adv_burgers xx (replicate (length xx) (Fin d)) nt (Scalar (Fin a0))
                      cfl_cut ddx bnd_type (l, r) = Ok (t, unnt) ∧
    length unnt = nt ∧
    ∀ i, i < nt → unnt !! i = Some (replicate (length xx) (Fin d)).
Proof.
  intros Hf Hi Hn _ Hq _ Hc%in_float_range_finite Hddx Hmode Hlr Hnt.
  destruct (is_finite_nmul c cfl_cut Hc) as (q & k & -> & ->).
  assert (Hshape : well_shaped ddx).
  { destruct Hddx as [-> | ->];
      [apply deriv_dnw_well_shaped | apply deriv_upw_well_shaped]. }
  assert (Hder : ddx xx (replicate (length xx) (Fin d))
                 = Ok (replicate (length xx) zero)).
  { destruct (deriv_of_constant xx d Hf Hi Hn) as [H1 H2].
    by destruct Hddx as [-> | ->]. }
  assert (Hstep : adv_u_next xx (Scalar (Fin a0)) (Fin k) ddx
                    (replicate (length xx) (Fin d))
                  = Ok (Fin q * Fin k, replicate (length xx) (Fin d))%num).
  { unfold adv_u_next, step_adv_burgers. rewrite Hq, bind_Ok, Hder.
    repeat arr_step. rewrite ?bind_Ok. repeat arr_step.
    rewrite !map_replicate, zip_with_replicate. do 3 f_equal.
    unfold zero, fin, qc, nmul, nadd, nopp. f_equal. ring. }
  destruct (march_steady (length xx) nt bnd_type l r
              (adv_u_next xx (Scalar (Fin a0)) (Fin k) ddx)
              (replicate (length xx) (Fin d)) (Fin q * Fin k)%num Hlr)
    as (t & unnt & Hrun & Hlen & Hcols & _); try done.
  - intros u Hu. by apply adv_u_next_ok.
  - apply length_replicate.
  - by apply fix_boundaries_replicate.
  - by exists t, unnt.
Qed.

Lemma evolv_adv_burgers_constant_field_witness :
  ∃ t unnt,
    evolv_adv_burgers grid3 (replicate (length grid3) (Fin (qc 5 2))) 4
                      (Scalar (Fin (qc (-1) 1))) (fin 49 50) deriv_dnw Wrap (0, 1)
      = Ok (t, unnt) ∧
    length unnt = 4 ∧
    ∀ i, i < 4 → unnt !! i = Some (replicate (length grid3) (Fin (qc 5 2))).
Proof.
  apply (evolv_adv_burgers_constant_field grid3 (qc 5 2) (qc (-1) 1) (fin 49 50)
           one 4 deriv_dnw Wrap 0 1).
  - reflexivity.
  - reflexivity.
  - simpl; lia.
  - vm_compute. reflexivity.
  - vm_compute. reflexivity.
  - vm_compute. reflexivity.
  - vm_compute. reflexivity.
  - by left.
  - discriminate.
  - simpl; lia.
  - lia.
Defined.

(** ** Short runs and shape errors *)

Lemma init_series_no_steps (N : nat) (hh : array) :
  init_series N 0 hh = Raise IndexError.
Proof. reflexivity. Qed.

Lemma init_series_bad_shape (N nt : nat) (hh : array) :
  1 ≤ nt → length hh ≠ N → length hh ≠ 1 →
  init_series N nt hh = Raise ValueError.
Proof.
  intros Hnt HN H1. unfold init_series, set_col, np_zeros2.
  rewrite length_replicate.
  destruct (0 <? nt) eqn:E; [|apply Nat.ltb_ge in E; lia].
  unfold broadcast_to. destruct (length hh =? N) eqn:E1;
    [apply Nat.eqb_eq in E1; lia|].
  destruct hh as [|x [|y hh]]; simpl in *; try done.
Qed.

Lemma init_series_one_step (N : nat) (hh : array) :
  length hh = N ∨ length hh = 1 →
  init_series N 1 hh
  = Ok ([zero], [if length hh =? N then hh else replicate N (hh !!! 0)]).
Proof.
  intros H. unfold init_series, set_col, np_zeros2, broadcast_to. simpl.
  destruct (length hh =? N) eqn:E; [done|].
  apply Nat.eqb_neq in E. destruct H as [H|H]; [done|].
  destruct hh as [|x [|y hh]]; simpl in *; try done.
Qed.

(** X10.  Short runs of the five steppers with the plain loop.  With
    [nt = 0] each of them raises [IndexError] (column 0 of a matrix without
    columns is assigned); with a field whose length is neither that of the
    grid nor one, each raises [ValueError]; with [nt = 1] each returns the
    time axis [[0]] and the initial field as the only column, a one-entry
    field being repeated over the grid, without looking at the grid, the
    coefficient or the derivative operator. *)
Theorem steppers_short_runs
    (xx hh : array) (a : coef) (cfl_cut : num) (ddx : deriv_op)
    (bnd_type : bnd_type) (bnd_limits : nat * nat)
    (run : nat → res (array * list array)) :
  In run [ (fun nt => evolv_adv_burgers xx hh nt a cfl_cut ddx bnd_type bnd_limits);
           (fun nt => evolv_uadv_burgers xx hh nt cfl_cut ddx bnd_type bnd_limits);
           (fun nt => evolv_Lax_uadv_burgers xx hh nt cfl_cut ddx bnd_type bnd_limits);
           (fun nt => evolv_Lax_adv_burgers xx hh nt a cfl_cut ddx bnd_type bnd_limits);
           (fun nt => evolve xx hh a nt cfl_cut bnd_type bnd_limits) ] →
  run 0 = Raise IndexError ∧
  (∀ nt, 1 ≤ nt → length hh ≠ length xx → length hh ≠ 1 →
         run nt = Raise ValueError) ∧
  (length hh = length xx → run 1 = Ok ([zero], [hh])) ∧
  (∀ x, hh = [x] → run 1 = Ok ([zero], [replicate (length xx) x])).
Proof.
  intros Hrun.
  assert (Hone : ∀ x, hh = [x] →
            init_series (length xx) 1 hh
            = Ok ([zero], [replicate (length xx) x])).
  { intros x ->. rewrite init_series_one_step; [|right; reflexivity].
    change (length [x]) with 1. change ([x] !!! 0) with x.
    destruct (1 =? length xx) eqn:E; [|done].
    apply Nat.eqb_eq in E. by rewrite <- E. }
  assert (Hsame : length hh = length xx →
            init_series (length xx) 1 hh = Ok ([zero], [hh])).
  { intros E. rewrite init_series_one_step; [|left; exact E].
    by rewrite E, Nat.eqb_refl. }
  simpl in Hrun.
  destruct Hrun as [<- | [<- | [<- | [<- | [<- | []]]]]];
    unfold evolv_adv_burgers, evolv_uadv_burgers, evolv_Lax_uadv_burgers,
           evolv_Lax_adv_burgers, evolve;
    (split; [by rewrite init_series_no_steps|]);
    (split; [intros nt Hnt H1 H2; by rewrite init_series_bad_shape|]);
    (split; [intros E; by rewrite Hsame | intros x E; by rewrite (Hone x E)]).
Qed.

Lemma steppers_short_runs_witness :
  evolve grid3 field3 (Scalar one) 0 (fin 49 50) Wrap (1, 0) = Raise IndexError ∧
  (∀ nt, 1 ≤ nt → length field3 ≠ length grid3 → length field3 ≠ 1 →
         evolve grid3 field3 (Scalar one) nt (fin 49 50) Wrap (1, 0)
         = Raise ValueError) ∧
  (length field3 = length grid3 →
   evolve grid3 field3 (Scalar one) 1 (fin 49 50) Wrap (1, 0)
   = Ok ([zero], [field3])) ∧
  (∀ x, field3 = [x] →
        evolve grid3 field3 (Scalar one) 1 (fin 49 50) Wrap (1, 0)
        = Ok ([zero], [replicate (length grid3) x])).
Proof.
  apply (steppers_short_runs grid3 field3 (Scalar one) (fin 49 50) deriv_cent
           Wrap (1, 0)
           (fun nt => evolve grid3 field3 (Scalar one) nt (fin 49 50) Wrap (1, 0))).
  simpl. tauto.
Defined.

(** ** A field that is zero everywhere *)

Section Absorbing.
Variables (N nt : nat) (bnd_type : bnd_type) (l r : nat).
Variable step : array → res (num * array).
Variables (hh z : array) (dt0 : num).
Hypothesis margins_fit : l + r < N.
Hypothesis step_total :
  ∀ u, length u = N → ∃ dt v, step u = Ok (dt, v) ∧ length v = N.
Hypothesis field_length : length hh = N.
Hypothesis first_step : step hh = Ok (dt0, z).
Hypothesis later_steps : ∃ dt, step z = Ok (dt, z).
Hypothesis bnd_fixes : fix_boundaries z (l, r) bnd_type = Ok z.

(** A column [z] that the first step produces, and that the step and the
    boundary fix then leave alone, fills every later column. *)
Lemma march_absorbing :
  2 ≤ nt →
  ∃ t unnt,
    (s ← init_series N nt hh; march N nt bnd_type (l, r) step s) = Ok (t, unnt) ∧
    t !! 1 = Some (zero + dt0)%num ∧
    ∀ i, 1 ≤ i < nt → unnt !! i = Some z.
Proof.
  intros Hnt.
  destruct (march_spec N nt bnd_type l r step margins_fit step_total hh
              field_length) as (t & unnt & Hrun & Ht & Hu & Hall & Ht0 & Hu0 & Hrec);
    [lia|].
  exists t, unnt. split; [done|].
  destruct (Hrec 0) as (u & dt' & v & p & ti & H1 & H2 & H3 & H4 & H5 & H6); [lia|].
  rewrite Hu0 in H1. injection H1 as <-.
  rewrite first_step in H2. injection H2 as <- <-.
  rewrite bnd_fixes in H3. injection H3 as <-.
  rewrite Ht0 in H5. injection H5 as <-.
  split; [done|].
  intros i [Hi1 Hi2]. induction i as [|i IH]; [lia|].
  destruct (decide (i = 0)) as [->|Hne]; [done|].
  destruct (Hrec i) as (u & dt' & v & p & ti & G1 & G2 & G3 & G4 & G5 & G6); [lia|].
  rewrite IH in G1 by lia. injection G1 as <-.
  destruct later_steps as (dt & Hz). rewrite Hz in G2. injection G2 as <- <-.
  rewrite bnd_fixes in G3. injection G3 as <-.
  by rewrite <- Nat.add_1_r.
Qed.
End Absorbing.

Lemma signed_inf_zero (q : Qc) : q = Q2Qc 0 → signed_inf q = NaN.
Proof. by intros ->. Qed.

Lemma zero_rhs_times_inf (g : num) : (zero + (- zero) * g * PInf)%num = NaN.
Proof. destruct g; vm_compute; reflexivity. Qed.

Lemma zero_quotient_times_inf (dx : num) :
  (zero - PInf * ((zero - zero) / dx))%num = NaN.
Proof.
  destruct dx as [q| | |]; try (vm_compute; reflexivity).
  change (zero - zero)%num with (Fin (Q2Qc 0 + - Q2Qc 0)).
  replace (Q2Qc 0 + - Q2Qc 0)%Qc with (Q2Qc 0) by ring.
  unfold ndiv. destruct (Qc_eq_bool q 0); [vm_compute; reflexivity|].
  unfold zero, fin, nsub, nmul, nadd, nopp.
  rewrite signed_inf_zero; [done|]. unfold Qcdiv. ring.
Qed.

Lemma zip_with_replicate_r_entries (op : num → num → num) (d : array) n y z :
  length d = n → (∀ g, op g y = z) → zip_with op d (replicate n y) = replicate n z.
Proof.
  intros <- H. induction d as [|g d IH]; simpl; [done|]. by rewrite H, IH.
Qed.

Lemma cfl_zero_field (xx : array) :
  finite_array xx = true → increasing xx = true → 2 ≤ length xx →
  cfl_adv_burger (PerPoint (replicate (length xx) zero)) xx = Ok PInf.
Proof.
  intros Hf Hi Hn. unfold cfl_adv_burger.
  destruct (np_gradient_pos xx Hf Hi Hn) as (dx & -> & Hdx & Hpos).
  rewrite bind_Ok. repeat arr_step. rewrite map_replicate, nabs_zero.
  apply np_min_all_PInf.
  - rewrite <- Hdx. destruct dx; simpl in *; [lia | done].
  - rewrite <- Hdx. clear Hdx Hn. induction Hpos as [|v dx Hv _ IH]; simpl; [done|].
    constructor; [by apply ndiv_pos_zero | done].
Qed.

Lemma cfl_nan_field (xx : array) :
  2 ≤ length xx →
  cfl_adv_burger (PerPoint (replicate (length xx) NaN)) xx = Ok NaN.
Proof.
  intros Hn. unfold cfl_adv_burger.
  destruct (np_gradient_ok xx Hn) as (dx & -> & Hdx).
  rewrite bind_Ok. repeat arr_step. rewrite map_replicate.
  rewrite (zip_with_replicate_r_entries ndiv dx (length xx) (nabs NaN) NaN);
    [|done | by intros []].
  destruct (length xx) as [|n]; [lia|]. apply np_min_replicate.
Qed.

Lemma uadv_u_next_ok xx cfl_cut ddx u :
  2 ≤ length xx → well_shaped ddx → length u = length xx →
  ∃ dt v, uadv_u_next xx cfl_cut ddx u = Ok (dt, v) ∧ length v = length xx.
Proof.
  intros Hn Hd Hu. unfold uadv_u_next, step_uadv_burgers.
  destruct (cfl_adv_burger_ok (PerPoint u) xx Hn Hu) as (c & ->).
  rewrite bind_Ok. destruct (Hd xx u Hu) as (d & -> & Hld).
  repeat arr_step. rewrite ?bind_Ok. repeat arr_step.
  eexists _, _; split; [reflexivity | solve_len].
Qed.

Lemma uadv_u_next_zero xx cfl_cut ddx :
  finite_array xx = true → increasing xx = true → 2 ≤ length xx →
  well_shaped ddx →
  uadv_u_next xx cfl_cut ddx (replicate (length xx) zero)
  = Ok (PInf, replicate (length xx) NaN).
Proof.
  intros Hf Hi Hn Hd. unfold uadv_u_next, step_uadv_burgers.
  rewrite cfl_zero_field by done. rewrite bind_Ok.
  destruct (Hd xx (replicate (length xx) zero)) as (d & -> & Hld); [solve_len|].
  repeat arr_step. rewrite ?bind_Ok. repeat arr_step.
  do 2 f_equal. rewrite map_replicate.
  match goal with |- ?l = _ =>
    transitivity (replicate (length l) NaN); [|f_equal; solve_len] end.
  apply replicate_from_entries. intros i Hlt.
  rewrite arr_lookup_zip_with, arr_lookup_map, arr_lookup_zip_with by solve_len.
  rewrite !lookup_total_replicate_2 by solve_len.
  apply zero_rhs_times_inf.
Qed.

Lemma uadv_u_next_nan xx cfl_cut ddx :
  2 ≤ length xx → well_shaped ddx →
  uadv_u_next xx cfl_cut ddx (replicate (length xx) NaN)
  = Ok (NaN, replicate (length xx) NaN).
Proof.
  intros Hn Hd. unfold uadv_u_next, step_uadv_burgers.
  rewrite cfl_nan_field by done. rewrite bind_Ok.
  destruct (Hd xx (replicate (length xx) NaN)) as (d & -> & Hld); [solve_len|].
  repeat arr_step. rewrite ?bind_Ok. repeat arr_step.
  do 2 f_equal.
  match goal with |- ?l = _ =>
    transitivity (replicate (length l) NaN); [|f_equal; solve_len] end.
  apply replicate_from_entries. intros i Hlt.
  rewrite arr_lookup_zip_with by solve_len.
  by rewrite !lookup_total_replicate_2 by solve_len.
Qed.

Lemma Lax_uadv_step_zero xx cfl_cut ddx :
  finite_array xx = true → increasing xx = true → 2 ≤ length xx →
  well_shaped ddx →
  Lax_uadv_step xx cfl_cut ddx (replicate (length xx) zero)
  = Ok (PInf, replicate (length xx) NaN).
Proof.
  intros Hf Hi Hn Hd. unfold Lax_uadv_step.
  destruct (step_uadv_burgers_ok xx (replicate (length xx) zero) cfl_cut ddx)
    as (dt & rhs & -> & Hdt); [done | solve_len | done |].
  rewrite cfl_zero_field in Hdt by done. injection Hdt as <-.
  rewrite bind_Ok.
  destruct (Lax_u_next_ok xx (replicate (length xx) zero) PInf)
    as (v & -> & Hlv & Hv); [solve_len|].
  rewrite bind_Ok. do 2 f_equal. rewrite length_replicate in Hlv, Hv.
  rewrite <- Hlv. apply replicate_from_entries. intros i Hlt.
  rewrite Hv by lia.
  rewrite !lookup_total_replicate_2 by (try apply Nat.mod_upper_bound; lia).
  generalize (xx !!! ((i + 1) `mod` length xx)
              - xx !!! ((i + length xx - 1) `mod` length xx))%num.
  intros g. destruct g; vm_compute; reflexivity.
Qed.

Lemma Lax_uadv_step_nan xx cfl_cut ddx :
  2 ≤ length xx → well_shaped ddx →
  ∃ dt, Lax_uadv_step xx cfl_cut ddx (replicate (length xx) NaN)
        = Ok (dt, replicate (length xx) NaN).
Proof.
  intros Hn Hd. unfold Lax_uadv_step.
  destruct (step_uadv_burgers_ok xx (replicate (length xx) NaN) cfl_cut ddx)
    as (dt & rhs & -> & Hdt); [done | solve_len | done |].
  rewrite bind_Ok.
  destruct (Lax_u_next_ok xx (replicate (length xx) NaN) dt)
    as (v & -> & Hlv & Hv); [solve_len|].
  rewrite bind_Ok. exists dt. do 2 f_equal. rewrite length_replicate in Hlv, Hv.
  rewrite <- Hlv. apply replicate_from_entries. intros i Hlt.
  rewrite Hv by lia.
  rewrite !lookup_total_replicate_2 by (try apply Nat.mod_upper_bound; lia).
  generalize (xx !!! ((i + 1) `mod` length xx)
              - xx !!! ((i + length xx - 1) `mod` length xx))%num.
  intros g. destruct dt, g; vm_compute; reflexivity.
Qed.

Lemma Rie_u_next_zero xx dx :
  finite_array xx = true → increasing xx = true → 2 ≤ length xx →
  Rie_u_next xx dx (replicate (length xx) zero)
  = Ok (PInf, replicate (length xx) NaN).
Proof.
  intros Hf Hi Hn. unfold Rie_u_next. rewrite !np_roll_replicate.
  repeat arr_step. rewrite ?bind_Ok.
  rewrite !map_replicate, !zip_with_replicate, ?np_roll_replicate.
  repeat (repeat arr_step; rewrite ?bind_Ok;
          rewrite ?map_replicate, ?zip_with_replicate, ?np_roll_replicate).
  replace (nmaximum (nabs zero) (nabs zero)) with zero by num_refl.
  rewrite cfl_zero_field by done. rewrite bind_Ok.
  repeat (repeat arr_step; rewrite ?bind_Ok;
          rewrite ?map_replicate, ?zip_with_replicate, ?np_roll_replicate).
  do 3 f_equal.
  replace (half * (half * (zero * zero) + half * (zero * zero))
           - half * zero * (zero - zero))%num with zero by num_refl.
  apply zero_quotient_times_inf.
Qed.

Lemma Rie_u_next_nan xx dx :
  2 ≤ length xx →
  Rie_u_next xx dx (replicate (length xx) NaN)
  = Ok (NaN, replicate (length xx) NaN).
Proof.
  intros Hn. unfold Rie_u_next. rewrite !np_roll_replicate.
  repeat (repeat arr_step; rewrite ?bind_Ok;
          rewrite ?map_replicate, ?zip_with_replicate, ?np_roll_replicate).
  change (nmaximum (nabs NaN) (nabs NaN)) with NaN.
  rewrite cfl_nan_field by done. rewrite bind_Ok.
  repeat (repeat arr_step; rewrite ?bind_Ok;
          rewrite ?map_replicate, ?zip_with_replicate, ?np_roll_replicate).
  done.
Qed.

(** X11.  The three steppers that take the field as its own speed have no
    guard for a field that is zero everywhere: on a finite, strictly
    increasing grid, with 'wrap' or 'edge' boundaries, the first step size
    is [+inf] and every column after the initial one is NaN throughout. *)
Theorem zero_field_turns_into_nan
    (xx : array) (nt : nat) (cfl_cut : num) (ddx : deriv_op)
    (bnd_type : bnd_type) (l r : nat) (run : res (array * list array)) :
  finite_array xx = true → increasing xx = true → 2 ≤ length xx →
  well_shaped ddx → bnd_type ≠ Constant → l + r < length xx → 2 ≤ nt →
  In run [ evolv_uadv_burgers xx (replicate (length xx) zero) nt cfl_cut ddx
                              bnd_type (l, r);
           evolv_Lax_uadv_burgers xx (replicate (length xx) zero) nt cfl_cut ddx
                                  bnd_type (l, r);
           evolv_Rie_uadv_burgers xx (replicate (length xx) zero) nt cfl_cut ddx
                                  bnd_type (l, r) ] →
  ∃ t unnt,
    run = Ok (t, unnt) ∧
    t !! 1 = Some PInf ∧
    ∀ i, 1 ≤ i < nt → unnt !! i = Some (replicate (length xx) NaN).
Proof.
  intros Hf Hi Hn Hd Hmode Hlr Hnt Hrun.
  assert (Hbnd : fix_boundaries (replicate (length xx) NaN) (l, r) bnd_type
                 = Ok (replicate (length xx) NaN))
    by (by apply fix_boundaries_replicate).
  assert (Hlen : length (replicate (length xx) zero) = length xx)
    by apply length_replicate.
  simpl in Hrun. destruct Hrun as [<- | [<- | [<- | []]]].
  - destruct (march_absorbing (length xx) nt bnd_type l r
                (uadv_u_next xx cfl_cut ddx)
                (replicate (length xx) zero) (replicate (length xx) NaN) PInf Hlr)
      as (t & unnt & Hrun & Ht & Hcols); try done.
    + intros u Hu. by apply uadv_u_next_ok.
    + by apply uadv_u_next_zero.
    + exists NaN. by apply uadv_u_next_nan.
    + by exists t, unnt.
  - destruct (march_absorbing (length xx) nt bnd_type l r
                (Lax_uadv_step xx cfl_cut ddx)
                (replicate (length xx) zero) (replicate (length xx) NaN) PInf Hlr)
      as (t & unnt & Hrun & Ht & Hcols); try done.
    + intros u Hu. by apply Lax_uadv_step_ok.
    + by apply Lax_uadv_step_zero.
    + by apply Lax_uadv_step_nan.
    + by exists t, unnt.
  - destruct (march_absorbing (length xx) nt bnd_type l r
                (Rie_u_next xx (xx !!! 1 - xx !!! 0)%num)
                (replicate (length xx) zero) (replicate (length xx) NaN) PInf Hlr)
      as (t & unnt & Hrun & Ht & Hcols); try done.
    + intros u Hu. by apply Rie_u_next_ok.
    + by apply Rie_u_next_zero.
    + exists NaN. by apply Rie_u_next_nan.
    + exists t, unnt. split; [|done]. unfold evolv_Rie_uadv_burgers.
      destruct (init_series (length xx) nt _) as [s|e]; [|discriminate].
      rewrite bind_Ok in *. rewrite !getitem_ok by lia. by rewrite !bind_Ok.
Qed.

Lemma zero_field_turns_into_nan_witness :
  ∃ t unnt,
    evolv_Rie_uadv_burgers grid3 (replicate (length grid3) zero) 3 (fin 49 50)
                           deriv_dnw Wrap (0, 1) = Ok (t, unnt) ∧
    t !! 1 = Some PInf ∧
    ∀ i, 1 ≤ i < 3 → unnt !! i = Some (replicate (length grid3) NaN).
Proof.
  apply (zero_field_turns_into_nan grid3 3 (fin 49 50) deriv_dnw Wrap 0 1).
  - reflexivity.
  - reflexivity.
  - simpl; lia.
  - apply deriv_dnw_well_shaped.
  - discriminate.
  - simpl; lia.
  - lia.
  - simpl. tauto.
Defined.

(** ** Diffusion *)

Lemma Qc_add_nonneg (a b : Qc) : (0 <= a → 0 <= b → 0 <= a + b)%Qc.
Proof.
  intros Ha Hb. replace (Q2Qc 0) with (Q2Qc 0 + Q2Qc 0)%Qc by ring.
  by apply Qcplus_le_compat.
Qed.

Lemma Qc_mul_nonneg (a b : Qc) : (0 <= a → 0 <= b → 0 <= a * b)%Qc.
Proof.
  intros Ha Hb. replace (Q2Qc 0) with (Q2Qc 0 * b)%Qc by ring.
  by apply Qcmult_le_compat_r.
Qed.

Lemma Qc_half_nonneg (a : Qc) : (0 <= a → 0 <= a / qc 2 1)%Qc.
Proof. intros Ha. apply Qc_mul_nonneg; [done|]. by vm_compute. Qed.

(** A convex combination of three numbers of an interval lies in it. *)
Lemma Qc_convex_bounds (m M a b c k : Qc) :
  (m <= a → a <= M → m <= b → b <= M → m <= c → c <= M → 0 <= k → k <= 1 →
   m <= (1 - k) * a + k * ((b + c) / qc 2 1) ∧
   (1 - k) * a + k * ((b + c) / qc 2 1) <= M)%Qc.
Proof.
  intros Ha1 Ha2 Hb1 Hb2 Hc1 Hc2 Hk0 Hk1.
  apply Qcle_minus_iff in Ha1, Ha2, Hb1, Hb2, Hc1, Hc2, Hk1.
  split; apply Qcle_minus_iff.
  - replace ((1 - k) * a + k * ((b + c) / qc 2 1) + - m)%Qc
      with ((1 + - k) * (a + - m) + k * (((b + - m) + (c + - m)) / qc 2 1))%Qc.
    + apply Qc_add_nonneg; apply Qc_mul_nonneg; try done.
      apply Qc_half_nonneg. by apply Qc_add_nonneg.
    + rewrite Qc_two_sum. field. intros H. discriminate H.
  - replace (M + - ((1 - k) * a + k * ((b + c) / qc 2 1)))%Qc
      with ((1 + - k) * (M + - a) + k * (((M + - b) + (M + - c)) / qc 2 1))%Qc.
    + apply Qc_add_nonneg; apply Qc_mul_nonneg; try done.
      apply Qc_half_nonneg. by apply Qc_add_nonneg.
    + rewrite Qc_two_sum. field. intros H. discriminate H.
Qed.

Lemma within_spec (m M : Qc) (u : array) :
  within m M u = true ↔
  Forall (fun v => ∃ q, v = Fin q ∧ (m <= q)%Qc ∧ (q <= M)%Qc) u.
Proof.
  unfold within. rewrite forallb_forall, Forall_forall.
  split; intros H v Hv.
  - apply list_elem_of_In in Hv. specialize (H v Hv).
    apply andb_prop in H as [H1 H2].
    destruct v as [q| | |]; try discriminate. exists q. split; [done|].
    unfold nle in H1, H2. split; apply Qcle_alt; intros E.
    + by rewrite E in H1.
    + by rewrite E in H2.
  - apply (proj2 (list_elem_of_In _ _)) in Hv. destruct (H v Hv) as (q & -> & H1 & H2).
    apply Qcle_alt in H1, H2. unfold nle.
    destruct (m ?= q)%Qc eqn:E1, (q ?= M)%Qc eqn:E2; try done; congruence.
Qed.

Lemma within_lookup (m M : Qc) (u : array) i :
  within m M u = true → i < length u →
  ∃ q, u !!! i = Fin q ∧ (m <= q)%Qc ∧ (q <= M)%Qc.
Proof.
  intros H Hi. apply within_spec in H.
  destruct (lookup_lt_is_Some_2 u i Hi) as [v Hv].
  rewrite (list_lookup_total_correct _ _ _ Hv).
  exact (Forall_lookup_1 _ _ _ _ H Hv).
Qed.

Lemma within_from_entries (m M : Qc) (u : array) :
  (∀ i, i < length u → ∃ q, u !!! i = Fin q ∧ (m <= q)%Qc ∧ (q <= M)%Qc) →
  within m M u = true.
Proof.
  intros H. apply within_spec, Forall_lookup_2. intros i v Hv.
  rewrite <- (list_lookup_total_correct _ _ _ Hv).
  apply H. by apply lookup_lt_Some in Hv.
Qed.

(** The boundary fix only copies entries of its argument, or, in
    'constant' mode, writes zeros. *)
Lemma fix_boundaries_entries (u v : array) l r mode x :
  fix_boundaries u (l, r) mode = Ok v → x ∈ v →
  x ∈ u ∨ (mode = Constant ∧ x = zero).
Proof.
  unfold fix_boundaries.
  assert (Hsub : ∀ y, y ∈ slice_margins u (l, r) → y ∈ u).
  { intros y. unfold slice_margins. simpl. destruct (0 <? r).
    - intros Hy%subseteq_drop. by apply subseteq_take in Hy.
    - by intros Hy%subseteq_drop. }
  revert Hsub. generalize (slice_margins u (l, r)). intros a Hsub.
  destruct mode.
  - unfold np_pad.
    destruct a as [|y a];
      [destruct (l + r =? 0); [|done]; intros [= <-]; by intros ?%elem_of_nil|].
    intros [= <-] Hx. left.
    apply (list_elem_of_fmap_1 (fun k => (y :: a) !!! wrap_index l (length (y :: a)) k))
      in Hx as (k & -> & Hk).
    apply Hsub, list_elem_of_lookup_total_2, wrap_index_lt. simpl. lia.
  - destruct a as [|y a].
    { unfold np_pad. destruct (l + r =? 0); [|done].
      intros [= <-]. by intros ?%elem_of_nil. }
    rewrite np_pad_edge_cons. intros Hv Hx. left. apply Hsub.
    assert (E : v = replicate l y ++ (y :: a)
                    ++ replicate r (List.last (y :: a) y)) by congruence.
    rewrite E in Hx. clear E Hv.
    apply elem_of_app in Hx as [Hx|Hx].
    { apply elem_of_replicate_inv in Hx as ->. by left. }
    apply elem_of_app in Hx as [Hx|Hx]; [done|].
    apply elem_of_replicate_inv in Hx as ->.
    assert (Hne : y :: a ≠ []) by done.
    pose proof (last_lookup (y :: a) y Hne) as Hl.
    by apply list_elem_of_lookup_2 in Hl.
  - rewrite np_pad_constant. intros Hv Hx.
    assert (E : v = replicate l zero ++ a ++ replicate r zero) by congruence.
    rewrite E in Hx. clear E Hv.
    apply elem_of_app in Hx as [Hx|Hx].
    { apply elem_of_replicate_inv in Hx as ->. by right. }
    apply elem_of_app in Hx as [Hx|Hx]; [left; by apply Hsub|].
    apply elem_of_replicate_inv in Hx as ->. by right.
Qed.

Lemma fix_boundaries_within (m M : Qc) (u v : array) l r mode :
  (mode = Constant → (m <= 0)%Qc ∧ (0 <= M)%Qc) →
  within m M u = true → fix_boundaries u (l, r) mode = Ok v →
  within m M v = true.
Proof.
  intros Hzero Hu Hv. apply within_spec. apply within_spec in Hu.
  rewrite Forall_forall in *. intros x Hx.
  destruct (fix_boundaries_entries u v l r mode x Hv Hx) as [Hin|[Hm ->]].
  - by apply Hu.
  - exists (Q2Qc 0). split; [reflexivity|]. by apply Hzero.
Qed.

Section Invariant.
Variables (N nt : nat) (bnd_type : bnd_type) (l r : nat).
Variable step : array → res (num * array).
Variable hh : array.
Variable P : array → Prop.
Hypothesis margins_fit : l + r < N.
Hypothesis step_total :
  ∀ u, length u = N → ∃ dt v, step u = Ok (dt, v) ∧ length v = N.
Hypothesis field_length : length hh = N.
Hypothesis field_good : P hh.
Hypothesis step_keeps :
  ∀ u dt v, length u = N → P u → step u = Ok (dt, v) → P v.
Hypothesis bnd_keeps :
  ∀ v p, P v → fix_boundaries v (l, r) bnd_type = Ok p → P p.

(** A property of the initial field that the step and the boundary fix
    preserve holds of every column; every step is recorded in the result. *)
Lemma march_invariant_steps :
  1 ≤ nt →
  ∃ t unnt,
    (s ← init_series N nt hh; march N nt bnd_type (l, r) step s) = Ok (t, unnt) ∧
    length unnt = nt ∧
    (∀ i col, unnt !! i = Some col → length col = N ∧ P col) ∧
    (∀ i, i + 1 < nt → step_recorded step bnd_type (l, r) t unnt i).
Proof.
  intros Hnt.
  destruct (march_spec N nt bnd_type l r step margins_fit step_total hh
              field_length Hnt)
    as (t & unnt & Hrun & Ht & Hu & Hall & Ht0 & Hu0 & Hrec).
  exists t, unnt. split; [done|]. split; [done|]. split; [|done].
  intros i col Hcol. split.
  { exact (Forall_lookup_1 (fun c : array => length c = N) unnt i col Hall Hcol). }
  revert col Hcol. induction i as [|i IH]; intros col Hcol.
  - rewrite Hu0 in Hcol. by injection Hcol as <-.
  - assert (Hi : i + 1 < nt).
    { apply lookup_lt_Some in Hcol. lia. }
    destruct (Hrec i Hi) as (u & dt & v & p & ti & H1 & H2 & H3 & H4 & H5 & H6).
    rewrite Nat.add_1_r, Hcol in H4. injection H4 as ->.
    apply (bnd_keeps v p); [|done].
    apply (step_keeps u dt v); [|by apply IH|done].
    exact (Forall_lookup_1 (fun c : array => length c = N) unnt i u Hall H1).
Qed.

Lemma march_invariant :
  1 ≤ nt →
  ∃ t unnt,
    (s ← init_series N nt hh; march N nt bnd_type (l, r) step s) = Ok (t, unnt) ∧
    length unnt = nt ∧
    ∀ i col, unnt !! i = Some col → P col.
Proof.
  intros Hnt.
  destruct (march_invariant_steps Hnt) as (t & unnt & Hrun & Hlen & Hcols & _).
  exists t, unnt. split; [done|]. split; [done|].
  intros i col Hcol. by apply (Hcols i).
Qed.
End Invariant.

Lemma cfl_diff_burger_ok (a : coef) (x : array) :
  2 ≤ length x → coef_fits (length x) a → ∃ c, cfl_diff_burger a x = Ok c.
Proof.
  intros Hn Ha. unfold cfl_diff_burger.
  destruct (np_gradient_ok x Hn) as (dx & -> & Hdx). rewrite bind_Ok.
  destruct a as [c|cs]; simpl in Ha; repeat arr_step.
  - apply np_min_ok. destruct dx; [simpl in Hdx; lia | done].
  - apply np_min_ok. destruct dx, cs; simpl in *; try lia; done.
Qed.

(** The right-hand side of the diffusion step, entry by entry. *)
Lemma step_diff_burgers_ok (xx u : array) (c : num) (ddx : deriv_op) :
  2 ≤ length xx →
  ∃ rhs, step_diff_burgers xx u (Scalar c) ddx = Ok rhs ∧
    length rhs = length u ∧
    ∀ i, i < length u →
      rhs !!! i =
        (c * (u !!! ((i + 1) mod length u) - two * u !!! i
              + u !!! ((i + length u - 1) mod length u))
         / ((xx !!! 1 - xx !!! 0) * (xx !!! 1 - xx !!! 0)))%num.
Proof.
  intros Hn. unfold step_diff_burgers.
  rewrite !getitem_ok by lia. rewrite !bind_Ok. repeat arr_step.
  eexists; split; [reflexivity|]. split; [solve_len|].
  intros i Hi.
  repeat first [ rewrite arr_lookup_zip_with by solve_len
               | rewrite arr_lookup_map by solve_len ].
  by rewrite np_roll_next, np_roll_prev by lia.
Qed.

Lemma diff_u_next_ok (xx : array) (c cfl_cut : num) (u : array) :
  2 ≤ length xx → length u = length xx →
  ∃ dt0 v, cfl_diff_burger (Scalar c) xx = Ok dt0 ∧
    diff_u_next xx (Scalar c) cfl_cut u = Ok ((dt0 * cfl_cut)%num, v) ∧
    length v = length xx ∧
    ∀ i, i < length u →
      v !!! i =
        (u !!! i
         + c * (u !!! ((i + 1) mod length u) - two * u !!! i
                + u !!! ((i + length u - 1) mod length u))
           / ((xx !!! 1 - xx !!! 0) * (xx !!! 1 - xx !!! 0))
           * (dt0 * cfl_cut))%num.
Proof.
  intros Hn Hu. unfold diff_u_next.
  rewrite !getitem_ok by lia. rewrite !bind_Ok.
  destruct (step_diff_burgers_ok xx u c deriv_cent Hn) as (rhs & -> & Hlr & Hrhs).
  rewrite bind_Ok.
  destruct (cfl_diff_burger_ok (Scalar c) xx Hn I) as (dt0 & Hdt).
  rewrite Hdt, bind_Ok. repeat arr_step. rewrite ?bind_Ok.
  exists dt0. eexists. split; [done|]. split; [reflexivity|].
  split; [solve_len|]. intros i Hi.
  rewrite arr_lookup_zip_with, arr_lookup_map by solve_len.
  by rewrite Hrhs.
Qed.

(** Sums, differences and products of finite numbers. *)
Ltac fin_arith :=
  repeat first
    [ progress change (Fin ?a - Fin ?b)%num with (Fin (a + - b))
    | progress change (Fin ?a * Fin ?b)%num with (Fin (a * b))
    | progress change (Fin ?a + Fin ?b)%num with (Fin (a + b)) ].

Lemma qabs_pos (c : Qc) : (0 < c)%Qc → qabs c = c.
Proof. intros Hc. unfold qabs. by rewrite Qc_pos_compare. Qed.

Lemma Qc_pos_nonzero (c : Qc) : (0 < c)%Qc → c ≠ Q2Qc 0.
Proof. intros Hc ->. by apply Qclt_not_eq in Hc. Qed.

(** With a positive constant coefficient on a uniform grid, the candidate of
    the diffusion step is the convex combination
    [(1 - k) u_j + k (u_(j+1) + u_(j-1)) / 2] of neighbouring entries, [k]
    being the safety factor. *)
Lemma diff_u_next_entries (x0 h c k : Qc) (N : nat) (u : array) (m M : Qc) :
  2 ≤ N → h ≠ Q2Qc 0 → (0 < c)%Qc → length u = N → within m M u = true →
  ∃ v, diff_u_next (uniform_grid x0 h N) (Scalar (Fin c)) (Fin k) u
       = Ok ((Fin (h * h / (qc 2 1 * qabs c)) * Fin k)%num, v) ∧
       length v = N ∧
       ∀ i, i < N → ∃ q p s,
         u !!! i = Fin q ∧ u !!! ((i + 1) mod N) = Fin p ∧
         u !!! ((i + N - 1) mod N) = Fin s ∧
         v !!! i = Fin ((1 - k) * q + k * ((p + s) / qc 2 1))%Qc.
Proof.
  intros HN Hh Hc Hu Hw.
  pose proof (Qc_pos_nonzero c Hc) as Hc0.
  destruct (diff_u_next_ok (uniform_grid x0 h N) (Fin c) (Fin k) u)
    as (dt0 & v & Hdt & Hrun & Hlen & Hent);
    [by rewrite uniform_grid_length..|].
  rewrite cfl_diff_burger_uniform in Hdt by done. injection Hdt as <-.
  rewrite uniform_grid_length in Hlen. rewrite Hu in Hent.
  exists v. split; [done|]. split; [done|]. intros i Hi.
  destruct (within_lookup m M u i Hw) as (q & Hq & _); [lia|].
  destruct (within_lookup m M u ((i + 1) mod N) Hw) as (p & Hp & _);
    [rewrite Hu; apply Nat.mod_upper_bound; lia|].
  destruct (within_lookup m M u ((i + N - 1) mod N) Hw) as (s & Hs & _);
    [rewrite Hu; apply Nat.mod_upper_bound; lia|].
  exists q, p, s. do 3 (split; [done|]).
  rewrite Hent by done. rewrite Hq, Hp, Hs.
  rewrite !uniform_grid_lookup by lia. simpl nat_to_Qc.
  unfold two, fin. fin_arith.
  replace ((x0 + (Q2Qc 0 + Q2Qc 1) * h + - (x0 + Q2Qc 0 * h))
           * (x0 + (Q2Qc 0 + Q2Qc 1) * h + - (x0 + Q2Qc 0 * h)))%Qc
    with (h * h)%Qc by ring.
  rewrite ndiv_Fin.
  2:{ intros E. by apply Qcmult_integral in E as [E|E]. }
  fin_arith.
  f_equal. rewrite qabs_pos by done. rewrite Qc_two_sum. field.
  repeat split; try done; intros H; discriminate H.
Qed.

(** X12.  In exact arithmetic (the rounding, overflow and underflow of
    float64 set aside): discrete maximum principle of the explicit diffusion
    solver [evolve].  On a uniform grid with a positive constant coefficient
    and a safety factor between 0 and 1, every column of the result stays
    within the bounds [m <= u <= M] of the initial field ('constant'
    boundaries write zeros, so then the bounds have to include zero).  A
    float64 run can leave the bounds by the rounding error of a step. *)
Theorem evolve_maximum_principle
    (x0 h c k m M : Qc) (N nt : nat) (hh : array)
    (bnd_type : bnd_type) (l r : nat) :
  2 ≤ N → h ≠ Q2Qc 0 → (0 < c)%Qc → (0 <= k)%Qc → (k <= 1)%Qc →
  length hh = N → within m M hh = true →
  (bnd_type = Constant → (m <= 0)%Qc ∧ (0 <= M)%Qc) →
  l + r < N → 1 ≤ nt →
  ∃ t unnt,
    evolve (uniform_grid x0 h N) hh (Scalar (Fin c)) nt (Fin k) bnd_type (l, r)
      = Ok (t, unnt) ∧
    length unnt = nt ∧
    ∀ i col, unnt !! i = Some col → within m M col = true.
Proof.
  intros HN Hh Hc Hk0 Hk1 Hlen Hw Hzero Hlr Hnt. unfold evolve.
  rewrite uniform_grid_length.
  apply (march_invariant N nt bnd_type l r
           (diff_u_next (uniform_grid x0 h N) (Scalar (Fin c)) (Fin k)) hh
           (fun u => within m M u = true)); try done.
  - intros u Hu.
    destruct (diff_u_next_ok (uniform_grid x0 h N) (Fin c) (Fin k) u)
      as (dt0 & v & _ & Hrun & Hlv & _); [by rewrite uniform_grid_length..|].
    rewrite uniform_grid_length in Hlv. by eexists _, v.
  - intros u dt v Hu Hwu Hstep.
    destruct (diff_u_next_entries x0 h c k N u m M HN Hh Hc Hu Hwu)
      as (v' & Hrun & Hlv & Hent).
    rewrite Hrun in Hstep. injection Hstep as _ <-.
    apply within_from_entries. rewrite Hlv. intros i Hi.
    destruct (Hent i Hi) as (q & p & s & Hq & Hp & Hs & ->).
    destruct (within_lookup m M u i Hwu) as (q' & Hq' & Hq1 & Hq2); [lia|].
    destruct (within_lookup m M u ((i + 1) mod N) Hwu) as (p' & Hp' & Hp1 & Hp2);
      [rewrite Hu; apply Nat.mod_upper_bound; lia|].
    destruct (within_lookup m M u ((i + N - 1) mod N) Hwu) as (s' & Hs' & Hs1 & Hs2);
      [rewrite Hu; apply Nat.mod_upper_bound; lia|].
    rewrite Hq in Hq'. rewrite Hp in Hp'. rewrite Hs in Hs'.
    injection Hq' as <-. injection Hp' as <-. injection Hs' as <-.
    eexists; split; [reflexivity|]. by apply Qc_convex_bounds.
  - intros v p Hv Hp. by apply (fix_boundaries_within m M v p l r bnd_type).
Qed.

Lemma evolve_maximum_principle_witness :
  ∃ t unnt,
    evolve (uniform_grid (qc 0 1) (qc 1 2) 4) [one; three; two; one]
           (Scalar (Fin (qc 2 1))) 5 (Fin (qc 1 2)) Wrap (1, 0)
      = Ok (t, unnt) ∧
    length unnt = 5 ∧
    ∀ i col, unnt !! i = Some col → within (qc 1 1) (qc 3 1) col = true.
Proof.
  apply (evolve_maximum_principle (qc 0 1) (qc 1 2) (qc 2 1) (qc 1 2)
           (qc 1 1) (qc 3 1) 4 5 [one; three; two; one] Wrap 1 0).
  - lia.
  - intros H; discriminate H.
  - reflexivity.
  - intros H; discriminate H.
  - intros H; discriminate H.
  - reflexivity.
  - reflexivity.
  - intros H; discriminate H.
  - lia.
  - lia.
Defined.

(** ** Step sizes of the self-advecting steppers *)

Lemma qabs_pos_of_nonzero (q : Qc) : q ≠ Q2Qc 0 → (0 < qabs q)%Qc.
Proof.
  intros Hq. unfold qabs. destruct (q ?= 0)%Qc eqn:E.
  - by apply Qceq_alt in E.
  - apply Qclt_alt in E. apply Qclt_minus_iff in E.
    by rewrite Qcplus_0_l in E.
  - by apply Qcgt_alt in E.
Qed.

Lemma qabs_zero_iff (q : Qc) : qabs q = Q2Qc 0 ↔ q = Q2Qc 0.
Proof.
  split; [|by intros ->].
  intros E. destruct (Qcanon.Qc_eq_dec q (Q2Qc 0)) as [|Hne]; [done|].
  by apply qabs_nonzero in Hne.
Qed.

(** A positive spacing over the size of a finite speed. *)
Lemma quotient_entry (d q : Qc) :
  (0 < d)%Qc →
  npos (Fin d / nabs (Fin q)) = true ∧
  ((Fin d / nabs (Fin q))%num = PInf ↔ q = Q2Qc 0).
Proof.
  intros Hd. rewrite nabs_Fin. unfold ndiv, Qc_eq_bool.
  destruct (Qcanon.Qc_eq_dec (qabs q) (Q2Qc 0)) as [E|E].
  - unfold signed_inf. rewrite Qc_pos_compare by done.
    split; [done|]. split; [|done]. intros _. by apply qabs_zero_iff.
  - assert (Hq : q ≠ Q2Qc 0) by (intros ->; by apply E).
    split; [|split; [done | intros Hz; by destruct (Hq Hz)]].
    apply npos_Fin, Qc_div_pos; [done | by apply qabs_pos_of_nonzero].
Qed.

Lemma nminimum_pos (a b : num) :
  npos a = true → npos b = true →
  npos (nminimum a b) = true ∧ (nminimum a b = PInf ↔ a = PInf ∧ b = PInf).
Proof.
  intros Ha Hb.
  destruct (npos_cases a Ha) as [->|(p & -> & Hp)],
           (npos_cases b Hb) as [->|(q & -> & Hq)]; simpl.
  - split; [done|]. by split.
  - split; [done|]. split; [done | by intros [_ ?]].
  - split; [done|]. split; [done | by intros [? _]].
  - unfold nminimum. destruct (nle (Fin p) (Fin q));
      (split; [done|]); (split; [done | by intros [? _]]).
Qed.

Lemma fold_nminimum_pos (l : array) (x : num) :
  npos x = true → Forall (fun v => npos v = true) l →
  npos (fold_left nminimum l x) = true ∧
  (fold_left nminimum l x = PInf ↔ x = PInf ∧ Forall (fun v => v = PInf) l).
Proof.
  intros Hx Hl. revert x Hx. induction Hl as [|y l Hy _ IH]; intros x Hx; simpl.
  - split; [done|]. split; [by intros -> | by intros [-> _]].
  - destruct (nminimum_pos x y Hx Hy) as [Hm Hiff].
    destruct (IH _ Hm) as [Hpos Hinf]. split; [done|].
    rewrite Hinf, Hiff, Forall_cons. tauto.
Qed.

Lemma quotients_pos (qs cs : list Qc) :
  Forall (fun q => (0 < q)%Qc) qs → length qs = length cs →
  Forall (fun v => npos v = true)
         (zip_with ndiv (map Fin qs) (map nabs (map Fin cs))) ∧
  (Forall (fun v => v = PInf)
          (zip_with ndiv (map Fin qs) (map nabs (map Fin cs)))
   ↔ Forall (fun c => c = Q2Qc 0) cs).
Proof.
  intros Hqs. revert cs. induction Hqs as [|q qs Hq _ IH]; intros [|c cs] Hl;
    simpl in *; try lia.
  - split; [done|]. by split.
  - destruct (IH cs) as [H1 H2]; [lia|].
    destruct (quotient_entry q c Hq) as [G1 G2].
    split; [by constructor|]. rewrite !Forall_cons, H2, G2. tauto.
Qed.

Lemma np_gradient_finite_pos (xx : array) :
  finite_array xx = true → increasing xx = true → 2 ≤ length xx →
  ∃ qs, np_gradient xx = Ok (map Fin qs) ∧ length qs = length xx ∧
        Forall (fun q => (0 < q)%Qc) qs.
Proof.
  intros Hf Hi Hn.
  destruct (np_gradient_finite xx Hf Hn) as (qs & Hg & Hl).
  destruct (np_gradient_pos xx Hf Hi Hn) as (dx & Hg' & _ & Hpos).
  rewrite Hg in Hg'. injection Hg' as <-.
  exists qs. split; [done|]. split; [done|].
  apply Forall_forall. intros q Hq. apply npos_Fin.
  apply (proj1 (Forall_forall _ _) Hpos). by apply (list_elem_of_fmap_2 Fin).
Qed.

(** The step-size estimate for a finite per-point speed is positive, and
    infinite exactly when the speed vanishes everywhere. *)
Lemma cfl_adv_burger_pos (xx : array) (cs : list Qc) :
  finite_array xx = true → increasing xx = true → 2 ≤ length xx →
  length cs = length xx →
  ∃ c, cfl_adv_burger (PerPoint (map Fin cs)) xx = Ok c ∧ npos c = true ∧
       (c = PInf ↔ Forall (fun q => q = Q2Qc 0) cs).
Proof.
  intros Hf Hi Hn Hl. unfold cfl_adv_burger.
  destruct (np_gradient_finite_pos xx Hf Hi Hn) as (qs & -> & Hlq & Hpos).
  rewrite bind_Ok. repeat arr_step.
  destruct (quotients_pos qs cs Hpos) as [H1 H2]; [lia|].
  destruct (zip_with ndiv (map Fin qs) (map nabs (map Fin cs))) as [|x l] eqn:E.
  { apply (f_equal length) in E. rewrite length_zip_with, !length_map in E.
    simpl in E. lia. }
  apply Forall_cons in H1 as [Hx Hl'].
  destruct (fold_nminimum_pos l x Hx Hl') as [G1 G2].
  eexists; split; [reflexivity|]. split; [done|].
  by rewrite G2, <- H2, Forall_cons.
Qed.

Lemma all_zero_replicate (cs : list Qc) :
  Forall (fun q => q = Q2Qc 0) cs ↔ map Fin cs = replicate (length cs) zero.
Proof.
  induction cs as [|c cs IH]; simpl; [by split|].
  rewrite Forall_cons, IH. split.
  - by intros [-> ->].
  - intros [= -> E]. by split.
Qed.

Lemma qmax_zero_iff (p q : Qc) :
  qmax (qabs p) (qabs q) = Q2Qc 0 ↔ p = Q2Qc 0 ∧ q = Q2Qc 0.
Proof.
  split; [|by intros [-> ->]].
  unfold qmax. destruct (qabs p ?= qabs q)%Qc eqn:E; intros H.
  - apply Qceq_alt in E. rewrite <- E in H.
    split; apply qabs_zero_iff; [done | by rewrite <- E].
  - apply Qclt_alt in E. rewrite H in E.
    destruct (Qcanon.Qc_eq_dec p (Q2Qc 0)) as [->|Hp].
    + split; [done | by apply qabs_zero_iff].
    + apply qabs_pos_of_nonzero in Hp.
      exfalso. apply (Qclt_not_eq (Q2Qc 0) (Q2Qc 0)); [|done]. by apply (Qclt_trans _ (qabs p)).
  - apply Qcgt_alt in E. rewrite H in E.
    destruct (Qcanon.Qc_eq_dec q (Q2Qc 0)) as [->|Hq].
    + split; [by apply qabs_zero_iff | done].
    + apply qabs_pos_of_nonzero in Hq.
      exfalso. apply (Qclt_not_eq (Q2Qc 0) (Q2Qc 0)); [|done]. by apply (Qclt_trans _ (qabs q)).
Qed.

Lemma Rie_v_a_q_zero_iff (us : list Qc) :
  Forall (fun q => q = Q2Qc 0) (Rie_v_a_q us) ↔ Forall (fun q => q = Q2Qc 0) us.
Proof.
  unfold Rie_v_a_q. rewrite !Forall_lookup. split.
  - intros H i q Hq.
    assert (Hi : i < length us) by (by apply lookup_lt_Some in Hq).
    destruct (lookup_lt_is_Some_2 (np_roll us (-1)) i) as [q' Hq'];
      [by rewrite length_np_roll|].
    specialize (H i (qmax (qabs q) (qabs q'))).
    rewrite lookup_zip_with, !list_lookup_fmap, Hq, Hq' in H.
    by destruct (proj1 (qmax_zero_iff q q') (H eq_refl)).
  - intros H i v Hv.
    apply lookup_zip_with_Some in Hv as (a & b & -> & Ha & Hb).
    apply list_lookup_fmap_Some in Ha as (p & -> & Hp).
    apply list_lookup_fmap_Some in Hb as (q & -> & Hq).
    apply qmax_zero_iff. split; [by apply (H i)|].
    apply list_elem_of_lookup_2 in Hq. unfold np_roll in Hq.
    apply elem_of_rotate in Hq.
    apply list_elem_of_lookup_1 in Hq as (j & Hj). by apply (H j).
Qed.

Lemma finite_array_map_Fin (qs : list Qc) : finite_array (map Fin qs) = true.
Proof. induction qs as [|q qs IH]; simpl; [done | exact IH]. Qed.

Lemma npos_nle_zero (v : num) : npos v = true → nle zero v = true.
Proof.
  intros [->|(q & -> & Hq)]%npos_cases; [done|].
  apply nle_Fin. by apply Qclt_le_weak.
Qed.

(** X13.  Step size of the steppers that take the field as its own speed.
    For a finite field on a finite, strictly increasing grid,
    [step_uadv_burgers] and the Rusanov step return a step size that is
    neither a NaN nor negative ([+inf] included), and that is [+inf] when the
    field is zero everywhere. *)
Theorem self_advection_step_size
    (xx u : array) (cfl_cut : num) (ddx : deriv_op) :
  finite_array xx = true → increasing xx = true → 2 ≤ length xx →
  length u = length xx → finite_array u = true → well_shaped ddx →
  (∃ dt rhs, step_uadv_burgers xx u cfl_cut ddx = Ok (dt, rhs) ∧
     nle zero dt = true ∧ (u = replicate (length xx) zero → dt = PInf)) ∧
  (∃ dt v, Rie_u_next xx (xx !!! 1 - xx !!! 0)%num u = Ok (dt, v) ∧
     nle zero dt = true ∧ (u = replicate (length xx) zero → dt = PInf)).
Proof.
  intros Hf Hi Hn Hu Hfu Hd.
  destruct (finite_array_Fin u Hfu) as (us & ->). rewrite length_map in Hu.
  rewrite <- Hu. split.
  - destruct (step_uadv_burgers_ok xx (map Fin us) cfl_cut ddx)
      as (dt & rhs & Hstep & Hdt); [done | by rewrite length_map | done |].
    destruct (cfl_adv_burger_pos xx us Hf Hi Hn Hu) as (c & Hc & Hpos & Hinf).
    rewrite Hc in Hdt. injection Hdt as <-.
    exists c, rhs. split; [done|]. split; [by apply npos_nle_zero|].
    intros Hz. by apply Hinf, all_zero_replicate.
  - destruct (grid_spacing xx Hf Hi Hn) as (d0 & -> & Hd0).
    rewrite (Rie_u_next_finite xx d0 us Hd0 Hu).
    assert (Hlv : length (Rie_v_a_q us) = length xx).
    { unfold Rie_v_a_q. solve_len. }
    destruct (cfl_adv_burger_pos xx (Rie_v_a_q us) Hf Hi Hn Hlv)
      as (c & -> & Hpos & Hinf).
    rewrite bind_Ok. eexists _, _. split; [reflexivity|].
    split; [by apply npos_nle_zero|].
    intros Hz. by apply Hinf, Rie_v_a_q_zero_iff, all_zero_replicate.
Qed.

Lemma self_advection_step_size_witness :
  (∃ dt rhs, step_uadv_burgers grid3 field3 (fin 49 50) deriv_dnw = Ok (dt, rhs) ∧
     nle zero dt = true ∧ (field3 = replicate (length grid3) zero → dt = PInf)) ∧
  (∃ dt v, Rie_u_next grid3 (grid3 !!! 1 - grid3 !!! 0)%num field3 = Ok (dt, v) ∧
     nle zero dt = true ∧ (field3 = replicate (length grid3) zero → dt = PInf)).
Proof.
  apply (self_advection_step_size grid3 field3 (fin 49 50) deriv_dnw).
  - reflexivity.
  - reflexivity.
  - simpl; lia.
  - reflexivity.
  - reflexivity.
  - apply deriv_dnw_well_shaped.
Defined.

(** ** Hyman predictor-corrector *)

(** The right-hand side does not depend on the safety factor. *)
Lemma step_adv_burgers_rhs {B} xx f a c1 c2 ddx (k : array → res B) :
  ('(dt, rhs) ← step_adv_burgers xx f a c1 ddx; k rhs)
  = ('(dt, rhs) ← step_adv_burgers xx f a c2 ddx; k rhs).
Proof.
  unfold step_adv_burgers.
  destruct (cfl_adv_burger a xx) as [c|e]; [|done]. rewrite !bind_Ok.
  by destruct (coef_v nmul (coef_map nopp a) (ddx xx f)) as [rhs|e].
Qed.

Lemma hyman_ignores_cfl_cut numpy xx f dth a fold dtold c1 c2 ddx bnd_type
    bnd_limits :
  hyman numpy xx f dth a fold dtold c1 ddx bnd_type bnd_limits
  = hyman numpy xx f dth a fold dtold c2 ddx bnd_type bnd_limits.
Proof.
  unfold hyman.
  destruct (step_adv_burgers xx f a (fin 49 50) ddx) as [[dt u1]|e]; [|done].
  cbv zeta; rewrite ?bind_Ok. destruct fold as [fold|]; [|done].
  destruct dtold as [dtold|]; [|done]. cbv zeta; rewrite ?bind_Ok.
  destruct (py_div dth dtold) as [ratio|e]; [|done]. cbv zeta; rewrite ?bind_Ok.
  destruct (py_square ratio) as [a1|e]; [|done]. cbv zeta; rewrite ?bind_Ok.
  destruct (py_div _ _) as [a2|e]; [|done]. cbv zeta; rewrite ?bind_Ok.
  destruct (py_div _ _) as [b2|e]; [|done]. cbv zeta; rewrite ?bind_Ok.
  destruct (py_div _ _) as [c2'|e]; [|done]. cbv zeta; rewrite ?bind_Ok.
  destruct (hyman_pred _ _ _ _ _ _ _) as [[[f1 fold1] fsav]|e]; [|done].
  cbv zeta; rewrite ?bind_Ok.
  destruct (fix_boundaries f1 bnd_limits bnd_type) as [f2|e]; [|done].
  cbv zeta; rewrite ?bind_Ok.
  match goal with
  | |- context [hyman_corr f2 fsav _ ?c] =>
      pose proof (step_adv_burgers_rhs xx f2 a c1 c2 ddx
                    (fun u1_temp => f ← hyman_corr f2 fsav u1_temp c; Ok (f, fold1)))
        as E
  end.
  cbv beta in E. by rewrite E.
Qed.

Lemma hyman_pred_fold f fold dfdt a1 b1 a2 b2 f' fold' fsav :
  hyman_pred f fold dfdt a1 b1 a2 b2 = Ok (f', fold', fsav) → fold' = f.
Proof.
  unfold hyman_pred.
  destruct (vadd (vadd _ _) _) as [tempvar|e]; [|done]. rewrite bind_Ok.
  destruct (vadd (vadd _ _) _) as [fsav'|e]; [|done]. rewrite bind_Ok.
  by intros [= _ <- _].
Qed.

(** Evaluate the first pending call of a monadic computation that is assumed
    to return. *)
Ltac bind_step :=
  cbv zeta;
  lazymatch goal with
  | |- (Ok _ = Ok _ → _) => fail
  | |- (?t = Ok _ → _) =>
      let rec go t :=
        lazymatch t with
        | mbind _ ?m => go m
        | ?m => destruct m eqn:?; [rewrite ?bind_Ok | cbn; discriminate]
        end in
      go t;
      repeat match goal with p : (_ * _)%type |- _ => destruct p end
  end.

(** X14.  What [hyman] hands back as history.  Whenever it returns, with or
    without a history passed in and on either numpy, its second result is
    the field it was given and its third the step size [dth]; and the safety
    factor [cfl_cut] has no influence on the result. *)
Theorem hyman_history
    (numpy : numpy_version)
    (xx f : array) (dth : num) (a : coef) (fold : option array)
    (dtold : option num) (cfl_cut : num) (ddx : deriv_op)
    (bnd_type : bnd_type) (bnd_limits : nat * nat)
    (f' fold' : array) (dtold' : num) :
  hyman numpy xx f dth a fold dtold cfl_cut ddx bnd_type bnd_limits
    = Ok (f', fold', dtold') →
  fold' = f ∧ dtold' = dth ∧
  ∀ c, hyman numpy xx f dth a fold dtold c ddx bnd_type bnd_limits
       = Ok (f', fold', dtold').
Proof.
  intros H.
  assert (Hc : ∀ c, hyman numpy xx f dth a fold dtold c ddx bnd_type bnd_limits
                    = Ok (f', fold', dtold')).
  { intros c.
    by rewrite (hyman_ignores_cfl_cut numpy xx f dth a fold dtold c cfl_cut). }
  split; [|split; [|done]]; clear Hc; revert H; unfold hyman.
  - destruct fold as [fold|]; [destruct dtold as [dtold|] | destruct numpy];
      repeat bind_step; try (intros; discriminate).
    + match goal with
      | Hp : hyman_pred _ _ _ _ _ _ _ = Ok _ |- _ =>
          apply hyman_pred_fold in Hp as ->
      end.
      by intros [= _ <- _].
    + by intros [= _ <- _].
  - destruct (step_adv_burgers xx f a (fin 49 50) ddx) as [[dt u1]|e]; [|done].
    rewrite bind_Ok.
    destruct (_ : res (array * array)) as [[f1 fold1]|e]; [|done].
    rewrite bind_Ok.
    destruct (fix_boundaries f1 _ _) as [f2|e]; [|done]. rewrite bind_Ok.
    by intros [= _ _ <-].
Qed.

Lemma hyman_history_witness :
  ∃ f',
    hyman Numpy_1 grid3 field3 (fin 1 10) (Scalar (fin (-1) 1)) (Some grid3)
          (Some (fin 1 5)) (fin 4 5) deriv_dnw Wrap (0, 1)
      = Ok (f', field3, fin 1 10) ∧
    (field3 = field3 ∧ fin 1 10 = fin 1 10 ∧
     ∀ c, hyman Numpy_1 grid3 field3 (fin 1 10) (Scalar (fin (-1) 1)) (Some grid3)
                (Some (fin 1 5)) c deriv_dnw Wrap (0, 1)
          = Ok (f', field3, fin 1 10)).
Proof.
  eexists. split.
  - cbv. reflexivity.
  - apply (hyman_history Numpy_1 grid3 field3 (fin 1 10) (Scalar (fin (-1) 1))
             (Some grid3) (Some (fin 1 5)) (fin 4 5) deriv_dnw Wrap (0, 1)).
    cbv. reflexivity.
Defined.

(** ** Operator splitting *)

Lemma array_ext (a b : array) :
  length a = length b → (∀ i, i < length a → a !!! i = b !!! i) → a = b.
Proof.
  intros Hl H. apply list_eq. intros i.
  destruct (decide (i < length a)) as [Hi|Hi].
  - rewrite (list_lookup_lookup_total_lt a i Hi).
    rewrite (list_lookup_lookup_total_lt b i) by lia. by rewrite H.
  - rewrite !lookup_ge_None_2 by lia. done.
Qed.

Lemma finite_array_from_entries (u : array) :
  (∀ i, i < length u → ∃ q, u !!! i = Fin q) → finite_array u = true.
Proof.
  intros H. apply forallb_forall. intros v Hv.
  apply (proj2 (list_elem_of_In _ _)) in Hv.
  apply list_elem_of_lookup_1 in Hv as (i & Hi).
  destruct (H i) as (q & Hq); [by apply lookup_lt_Some in Hi|].
  rewrite (list_lookup_total_correct _ _ _ Hi) in Hq. by rewrite Hq.
Qed.

(** The hand-written Lax update, entry by entry. *)
Lemma LL_half_step_ok (c dt den : num) (u : array) :
  ∃ w, LL_half_step (Scalar c) dt den u = Ok w ∧ length w = length u ∧
    ∀ i, i < length u →
      w !!! i =
        (half * (u !!! ((i + 1) mod length u)
                 + u !!! ((i + length u - 1) mod length u))
         - c * dt / den
           * (u !!! ((i + 1) mod length u)
              - u !!! ((i + length u - 1) mod length u)))%num.
Proof.
  unfold LL_half_step. repeat arr_step.
  eexists; split; [reflexivity|]. split; [solve_len|].
  intros i Hi.
  repeat first [ rewrite arr_lookup_zip_with by solve_len
               | rewrite arr_lookup_map by solve_len ].
  by rewrite !np_roll_next, !np_roll_prev by lia.
Qed.

Lemma step_adv_burgers_scalar_ok xx u (c cfl_cut : num) ddx :
  2 ≤ length xx → length u = length xx → well_shaped ddx →
  ∃ c0 rhs, cfl_adv_burger (Scalar c) xx = Ok c0 ∧
            step_adv_burgers xx u (Scalar c) cfl_cut ddx
            = Ok ((c0 * cfl_cut)%num, rhs).
Proof.
  intros Hn Hu Hd. unfold step_adv_burgers.
  destruct (cfl_adv_burger_ok (Scalar c) xx Hn I) as (c0 & Hc).
  rewrite Hc, bind_Ok. destruct (Hd xx u Hu) as (d & -> & Hld).
  repeat arr_step. by eexists _, _.
Qed.

Lemma Add_u_next_ok (xx : array) (a b cfl_cut : num) (ddx : deriv_op) (u : array) :
  2 ≤ length xx → length u = length xx → well_shaped ddx →
  ∃ ca cb w,
    cfl_adv_burger (Scalar a) xx = Ok ca ∧
    cfl_adv_burger (Scalar b) xx = Ok cb ∧
    Add_u_next xx (Scalar a) (Scalar b) cfl_cut ddx u
    = Ok ((nminimum (cb * cfl_cut) (ca * cfl_cut) * half)%num, w) ∧
    length w = length xx ∧
    ∀ unn vnn,
      LL_half_step (Scalar a) (nminimum (cb * cfl_cut) (ca * cfl_cut) * half)
                   (two * (xx !!! 1 - xx !!! 0)) u = Ok unn →
      LL_half_step (Scalar b) (nminimum (cb * cfl_cut) (ca * cfl_cut) * half)
                   (two * (xx !!! 1 - xx !!! 0)) u = Ok vnn →
      ∀ i, i < length u →
        w !!! i =
          (unn !!! i + vnn !!! i
           - (half * u !!! ((i + 1) mod length u)
              + half * u !!! ((i + length u - 1) mod length u)))%num.
Proof.
  intros Hn Hu Hd. unfold Add_u_next.
  destruct (step_adv_burgers_scalar_ok xx u a cfl_cut ddx Hn Hu Hd)
    as (ca & rhs_u & Hca & ->).
  destruct (step_adv_burgers_scalar_ok xx u b cfl_cut ddx Hn Hu Hd)
    as (cb & rhs_v & Hcb & ->).
  rewrite !bind_Ok. change (np_min [?x; ?y]) with (Ok (nminimum x y)).
  rewrite bind_Ok. cbv zeta. rewrite !getitem_ok by lia. rewrite !bind_Ok.
  set (dt := (nminimum (cb * cfl_cut) (ca * cfl_cut) * half)%num).
  set (den := (two * (xx !!! 1 - xx !!! 0))%num).
  destruct (LL_half_step_ok a dt den u) as (unn & Hunn & Hlu & _).
  destruct (LL_half_step_ok b dt den u) as (vnn & Hvnn & Hlv & _).
  rewrite Hunn, Hvnn, !bind_Ok. repeat arr_step. rewrite ?bind_Ok.
  exists ca, cb. eexists. do 2 (split; [done|]). split; [reflexivity|].
  split; [solve_len|].
  intros unn' vnn' H1 H2 i Hi. fold dt den in H1, H2.
  rewrite Hunn in H1. rewrite Hvnn in H2. injection H1 as <-. injection H2 as <-.
  repeat first [ rewrite arr_lookup_zip_with by solve_len
               | rewrite arr_lookup_map by solve_len ].
  by rewrite !np_roll_next, !np_roll_prev by lia.
Qed.

Lemma fix_boundaries_finite (u v : array) l r mode :
  finite_array u = true → fix_boundaries u (l, r) mode = Ok v →
  finite_array v = true.
Proof.
  intros Hu Hv. apply forallb_forall. intros x Hx.
  apply (proj2 (list_elem_of_In _ _)) in Hx.
  destruct (fix_boundaries_entries u v l r mode x Hv Hx) as [Hin|[_ ->]]; [|done].
  unfold finite_array in Hu. rewrite forallb_forall in Hu.
  by apply Hu, list_elem_of_In.
Qed.

Lemma uniform_grid_spacing (x0 h : Qc) (N : nat) :
  2 ≤ N → (uniform_grid x0 h N !!! 1 - uniform_grid x0 h N !!! 0)%num = Fin h.
Proof.
  intros HN. rewrite !uniform_grid_lookup by lia. simpl nat_to_Qc.
  change (Fin ?a - Fin ?b)%num with (Fin (a + - b)). f_equal. ring.
Qed.

(** With constant speeds [p] and [q] on a uniform grid, the candidate of
    [ops_Lax_LL_Add] is the Lax update with the speed [p + q]. *)
Lemma Add_u_next_is_Lax (x0 h p q k : Qc) (N : nat) (ddx : deriv_op) (u : array) :
  2 ≤ N → h ≠ Q2Qc 0 → p ≠ Q2Qc 0 → q ≠ Q2Qc 0 → well_shaped ddx →
  length u = N → finite_array u = true →
  ∃ D w,
    Add_u_next (uniform_grid x0 h N) (Scalar (Fin p)) (Scalar (Fin q)) (Fin k) ddx u
    = Ok (Fin D, w) ∧
    Fin D = (nminimum (Fin (h / qabs q) * Fin k) (Fin (h / qabs p) * Fin k)
             * half)%num ∧
    LL_half_step (Scalar (Fin (p + q))) (Fin D) (two * Fin h) u = Ok w ∧
    length w = N ∧ finite_array w = true.
Proof.
  intros HN Hh Hp Hq Hd Hu Hfu.
  destruct (Add_u_next_ok (uniform_grid x0 h N) (Fin p) (Fin q) (Fin k) ddx u)
    as (ca & cb & w & Hca & Hcb & Hrun & Hlw & Hent);
    [by rewrite uniform_grid_length.. | done |].
  rewrite cfl_adv_burger_uniform in Hca, Hcb by done.
  injection Hca as <-. injection Hcb as <-.
  rewrite uniform_grid_length in Hlw. rewrite uniform_grid_spacing in Hent by done.
  assert (∃ D, (nminimum (Fin (h / qabs q) * Fin k) (Fin (h / qabs p) * Fin k)
                * half)%num = Fin D) as (D & HD).
  { fin_arith. unfold nminimum, half, fin. destruct (nle _ _); by eexists. }
  rewrite HD in Hrun, Hent. exists D, w. split; [done|]. split; [done|].
  destruct (LL_half_step_ok (Fin p) (Fin D) (two * Fin h) u) as (unn & Hunn & _ & Eu).
  destruct (LL_half_step_ok (Fin q) (Fin D) (two * Fin h) u) as (vnn & Hvnn & _ & Ev).
  destruct (LL_half_step_ok (Fin (p + q)) (Fin D) (two * Fin h) u)
    as (wpq & Hwpq & Hlpq & Ew).
  specialize (Hent unn vnn Hunn Hvnn).
  assert (Hentry : ∀ i, i < N → ∃ z, w !!! i = Fin z ∧ wpq !!! i = Fin z).
  { intros i Hi. rewrite Hent, Eu, Ev, Ew by lia. rewrite Hu.
    destruct (finite_array_lookup_total u ((i + 1) mod N) Hfu) as (y1 & ->);
      [rewrite Hu; apply Nat.mod_upper_bound; lia|].
    destruct (finite_array_lookup_total u ((i + N - 1) mod N) Hfu) as (y2 & ->);
      [rewrite Hu; apply Nat.mod_upper_bound; lia|].
    unfold two, half, fin. fin_arith.
    assert (H2h : (qc 2 1 * h)%Qc ≠ Q2Qc 0).
    { intros E. apply Qcmult_integral in E as [E|E]; [by apply Qc_two_nonzero | done]. }
    rewrite !ndiv_Fin by done. fin_arith.
    eexists; split; [reflexivity|]. f_equal. field. done. }
  assert (w = wpq) as <-.
  { apply array_ext; [lia|]. intros i Hi.
    destruct (Hentry i) as (z & -> & ->); [lia | done]. }
  split; [done|]. split; [done|].
  apply finite_array_from_entries. intros i Hi.
  destruct (Hentry i) as (z & -> & _); [lia | by eexists].
Qed.

(** X15.  In exact arithmetic (the rounding, overflow and underflow of
    float64 set aside): additive splitting is exact for constant speeds.  On
    a uniform grid, with non-zero finite speeds [p] and [q] and a finite
    initial field, [ops_Lax_LL_Add] returns, and in every step the candidate
    that goes through the boundary fix into the next column is the single
    Lax update with the speed [p + q] and the step size
    [min(h/|q| * cfl_cut, h/|p| * cfl_cut) / 2].  The two sides are equal by
    distributivity, which float64 does not have: a run rounds the two
    updates it adds one by one. *)
Theorem ops_Lax_LL_Add_is_Lax_of_sum
    (x0 h p q k : Qc) (N nt : nat) (hh : array) (ddx : deriv_op)
    (bnd_type : bnd_type) (l r : nat) :
  2 ≤ N → h ≠ Q2Qc 0 → p ≠ Q2Qc 0 → q ≠ Q2Qc 0 → well_shaped ddx →
  length hh = N → finite_array hh = true → l + r < N → 1 ≤ nt →
  ∃ t unnt dt,
    ops_Lax_LL_Add (uniform_grid x0 h N) hh nt (Scalar (Fin p)) (Scalar (Fin q))
                   (Fin k) ddx bnd_type (l, r) = Ok (t, unnt) ∧
    dt = (nminimum (Fin (h / qabs q) * Fin k) (Fin (h / qabs p) * Fin k)
          * half)%num ∧
    ∀ i, i + 1 < nt →
      ∃ u w padded,
        unnt !! i = Some u ∧
        LL_half_step (Scalar (Fin (p + q))) dt (two * Fin h) u = Ok w ∧
        fix_boundaries w (l, r) bnd_type = Ok padded ∧
        unnt !! (i + 1) = Some padded ∧
        (∃ ti, t !! i = Some ti ∧ t !! (i + 1) = Some (ti + dt)%num).
Proof.
  intros HN Hh Hp Hq Hd Hlen Hfin Hlr Hnt. unfold ops_Lax_LL_Add.
  rewrite uniform_grid_length.
  destruct (march_invariant_steps N nt bnd_type l r
              (Add_u_next (uniform_grid x0 h N) (Scalar (Fin p)) (Scalar (Fin q))
                          (Fin k) ddx)
              hh (fun u => finite_array u = true) Hlr)
    as (t & unnt & Hrun & _ & Hcols & Hrec); try done.
  - intros u Hu.
    destruct (Add_u_next_ok (uniform_grid x0 h N) (Fin p) (Fin q) (Fin k) ddx u)
      as (ca & cb & w & _ & _ & Hw & Hlw & _);
      [by rewrite uniform_grid_length.. | done |].
    rewrite uniform_grid_length in Hlw. by eexists _, w.
  - intros u dt w Hu Hfu Hstep.
    destruct (Add_u_next_is_Lax x0 h p q k N ddx u) as (D & w' & Hw' & _ & _ & _ & Hfw);
      try done.
    rewrite Hw' in Hstep. by injection Hstep as _ <-.
  - intros v p' Hv Hp'. by apply (fix_boundaries_finite v p' l r bnd_type).
  - exists t, unnt. eexists. split; [done|]. split; [reflexivity|].
    intros i Hi.
    destruct (Hrec i Hi) as (u & dt & w & padded & ti & H1 & H2 & H3 & H4 & H5 & H6).
    destruct (Hcols i u H1) as [Hlu Hfu].
    destruct (Add_u_next_is_Lax x0 h p q k N ddx u)
      as (D & w' & Hw' & HD & HLax & _ & _); try done.
    rewrite Hw' in H2. injection H2 as <- <-.
    exists u, w', padded. rewrite <- HD. do 4 (split; [done|]). by exists ti.
Qed.

Lemma ops_Lax_LL_Add_is_Lax_of_sum_witness :
  ∃ t unnt dt,
    ops_Lax_LL_Add (uniform_grid (qc 0 1) (qc 1 2) 4) [one; three; two; one] 3
                   (Scalar (Fin (qc 1 1))) (Scalar (Fin (qc (-2) 1)))
                   (Fin (qc 1 2)) deriv_dnw Wrap (0, 1) = Ok (t, unnt) ∧
    dt = (nminimum (Fin (qc 1 2 / qabs (qc (-2) 1)) * Fin (qc 1 2))
                   (Fin (qc 1 2 / qabs (qc 1 1)) * Fin (qc 1 2)) * half)%num ∧
    ∀ i, i + 1 < 3 →
      ∃ u w padded,
        unnt !! i = Some u ∧
        LL_half_step (Scalar (Fin (qc 1 1 + qc (-2) 1))) dt
                     (two * Fin (qc 1 2)) u = Ok w ∧
        fix_boundaries w (0, 1) Wrap = Ok padded ∧
        unnt !! (i + 1) = Some padded ∧
        (∃ ti, t !! i = Some ti ∧ t !! (i + 1) = Some (ti + dt)%num).
Proof.
  apply (ops_Lax_LL_Add_is_Lax_of_sum (qc 0 1) (qc 1 2) (qc 1 1) (qc (-2) 1)
           (qc 1 2) 4 3 [one; three; two; one] deriv_dnw Wrap 0 1).
  - lia.
  - intros H; discriminate H.
  - intros H; discriminate H.
  - intros H; discriminate H.
  - apply deriv_dnw_well_shaped.
  - reflexivity.
  - reflexivity.
  - lia.
  - lia.
Defined.

Lemma LL_half_step_shape (c : coef) (dt den : num) (u : array) :
  coef_fits (length u) c →
  ∃ w, LL_half_step c dt den u = Ok w ∧ length w = length u.
Proof.
  intros Hc. unfold LL_half_step.
  destruct c as [c|cs]; simpl in Hc; repeat arr_step;
    (eexists; split; [reflexivity | solve_len]).
Qed.

Lemma Lie_u_next_shape (a b : coef) (dt den : num) (v : array) :
  coef_fits (length v) a → coef_fits (length v) b →
  ∃ vn, Lie_u_next a b dt den v = Ok vn ∧ length vn = length v.
Proof.
  intros Ha Hb. unfold Lie_u_next.
  destruct (LL_half_step_shape a dt den v Ha) as (un & -> & Hun). rewrite bind_Ok.
  rewrite <- Hun in Hb.
  destruct (LL_half_step_shape b dt den un Hb) as (vn & -> & Hvn).
  exists vn. split; [done | lia].
Qed.

Lemma set_col_ok (N : nat) (unnt : list array) (i : nat) (v : array) :
  i < length unnt → length v = N → set_col N unnt i v = Ok (<[i := v]> unnt).
Proof.
  intros Hi Hv. unfold set_col.
  destruct (i <? length unnt) eqn:E; [|apply Nat.ltb_ge in E; lia].
  by rewrite broadcast_to_same.
Qed.

Lemma get_col_ok (unnt : list array) (i : nat) (c : array) :
  unnt !! i = Some c → get_col unnt i = Ok c.
Proof. intros H. unfold get_col. by rewrite H. Qed.

Lemma get_col_insert (unnt : list array) (i : nat) (v : array) :
  i < length unnt → get_col (<[i := v]> unnt) i = Ok v.
Proof. intros Hi. unfold get_col. by rewrite list_lookup_insert_eq. Qed.

Section Lie.
Variables (xx hh : array) (a b : coef) (cfl_cut : num).
Variables (bnd_type : bnd_type) (l r nt : nat).
Variables (ca cb : num).
Hypothesis grid_size : 2 ≤ length xx.
Hypothesis field_length : length hh = length xx.
Hypothesis a_fits : coef_fits (length xx) a.
Hypothesis b_fits : coef_fits (length xx) b.
Hypothesis margins_fit : l + r < length xx.
Hypothesis cfl_a : cfl_adv_burger a xx = Ok ca.
Hypothesis cfl_b : cfl_adv_burger b xx = Ok cb.

Let dt : num := (nminimum (ca * cfl_cut) (cb * cfl_cut) * half)%num.
Let den : num := (two * (xx !!! 1 - xx !!! 0))%num.

(** Step [i] of the true sequence of states [vs], and where the returned
    matrix keeps its outcome. *)
Let recorded (t : array) (vnnt vs : list array) (i : nat) : Prop :=
  ∃ v vn p ti,
    vs !! i = Some v ∧ Lie_u_next a b dt den v = Ok vn ∧
    fix_boundaries vn (l, r) bnd_type = Ok p ∧ vs !! (i + 1) = Some p ∧
    vnnt !! i = Some vn ∧
    t !! i = Some ti ∧ t !! (i + 1) = Some (ti + dt)%num.

Let Lie_inv (k : nat) (s : array * list array * list array) : Prop :=
  let '(t, unnt, vnnt) := s in
  length t = nt ∧ length unnt = nt ∧ length vnnt = nt ∧
  ∃ vs, length vs = k + 1 ∧ vs !! 0 = Some hh ∧
        Forall (fun c => length c = length xx) vs ∧
        vnnt !! k = vs !! k ∧
        ∀ i, i < k → recorded t vnnt vs i.

Lemma Lie_body_spec k s :
  k + 1 < nt → Lie_inv k s →
  ∃ s', Lie_body xx a b cfl_cut bnd_type (l, r) k s = Ok s' ∧ Lie_inv (k + 1) s'.
Proof.
  intros Hk. destruct s as [[t unnt] vnnt].
  intros (Ht & Hu & Hv & vs & Hvs & Hvs0 & Hall & Hcur & Hrec).
  destruct (lookup_lt_is_Some_2 vs k) as [v Hvk]; [lia|].
  assert (Hlv : length v = length xx)
    by exact (Forall_lookup_1 (fun c : array => length c = length xx) vs k v Hall Hvk).
  rewrite Hvk in Hcur.
  unfold Lie_body. rewrite cfl_a, bind_Ok, cfl_b, bind_Ok. cbv zeta.
  change (np_min [?x; ?y]) with (Ok (nminimum x y)). rewrite bind_Ok.
  rewrite (getitem_ok xx 1), (getitem_ok xx 0) by lia. rewrite !bind_Ok.
  fold dt den.
  rewrite (get_col_ok vnnt k v Hcur), bind_Ok.
  destruct (Lie_u_next_shape a b dt den v) as (vn & Hvn & Hlvn);
    [by rewrite Hlv..|].
  unfold Lie_u_next in Hvn.
  destruct (LL_half_step a dt den v) as [un|e] eqn:Hun; [|discriminate].
  rewrite bind_Ok in Hvn. rewrite bind_Ok.
  assert (Hlun : length un = length xx).
  { destruct (LL_half_step_shape a dt den v) as (un' & Hun' & Hl');
      [by rewrite Hlv|]. rewrite Hun in Hun'. injection Hun' as <-. lia. }
  rewrite set_col_ok by lia. rewrite bind_Ok.
  rewrite get_col_insert by lia. rewrite bind_Ok, Hvn, bind_Ok.
  rewrite set_col_ok by lia. rewrite bind_Ok.
  rewrite get_col_insert by lia. rewrite bind_Ok.
  destruct (fix_boundaries_ok vn l r bnd_type) as (p & Hp & Hlp); [lia|].
  rewrite Hp, bind_Ok.
  rewrite set_col_ok by (rewrite ?length_insert; lia). rewrite bind_Ok.
  destruct (lookup_lt_is_Some_2 t k) as [tk Htk]; [lia|].
  unfold getitem. rewrite Htk, bind_Ok. unfold setitem.
  destruct (k + 1 <? length t) eqn:E; [|apply Nat.ltb_ge in E; lia].
  rewrite bind_Ok. eexists; split; [reflexivity|].
  split; [by rewrite length_insert|]. split; [by rewrite length_insert|].
  split; [by rewrite !length_insert|].
  exists (vs ++ [p]). split; [rewrite length_app; simpl; lia|].
  split; [rewrite lookup_app_l by lia; done|].
  split; [apply Forall_app; split; [done|]; constructor; [lia | done]|].
  split.
  { rewrite list_lookup_insert_eq by (rewrite length_insert; lia).
    rewrite lookup_app_r by lia. by replace (k + 1 - length vs) with 0 by lia. }
  intros i Hi. destruct (decide (i = k)) as [->|Hne].
  - exists v, vn, p, tk. unfold Lie_u_next. rewrite Hun, bind_Ok.
    split; [by rewrite lookup_app_l by lia|]. split; [done|]. split; [done|].
    split.
    { rewrite lookup_app_r by lia. by replace (k + 1 - length vs) with 0 by lia. }
    split.
    { rewrite list_lookup_insert_ne by lia. by rewrite list_lookup_insert_eq by lia. }
    split; [by rewrite list_lookup_insert_ne by lia|].
    by rewrite list_lookup_insert_eq by lia.
  - destruct (Hrec i) as (v' & vn' & p' & ti & G1 & G2 & G3 & G4 & G5 & G6 & G7);
      [lia|].
    exists v', vn', p', ti.
    rewrite !lookup_app_l by lia. rewrite !list_lookup_insert_ne by lia. done.
Qed.

Lemma ops_Lax_LL_Lie_spec (ddx : deriv_op) :
  1 ≤ nt →
  ∃ t vnnt vs,
    ops_Lax_LL_Lie xx hh nt a b cfl_cut ddx bnd_type (l, r) = Ok (t, vnnt) ∧
    length vs = nt ∧ vs !! 0 = Some hh ∧
    (∀ i, i + 1 < nt → recorded t vnnt vs i) ∧
    vnnt !! (nt - 1) = vs !! (nt - 1).
Proof.
  intros Hnt. unfold ops_Lax_LL_Lie. cbv zeta.
  rewrite set_col_ok by (unfold np_zeros2; rewrite ?length_replicate; lia).
  rewrite !bind_Ok.
  destruct (for_range_seq Lie_inv (Lie_body xx a b cfl_cut bnd_type (l, r))
              0 (nt - 1)
              (np_zeros nt,
               <[0 := hh]> (np_zeros2 (length xx) nt),
               <[0 := hh]> (np_zeros2 (length xx) nt)))
    as ([[t unnt] vnnt] & Hrun & Hinv).
  - unfold np_zeros2, np_zeros. simpl.
    rewrite !length_insert, !length_replicate. do 3 (split; [done|]).
    exists [hh]. split; [done|]. split; [done|].
    split; [by constructor|]. split.
    { by rewrite list_lookup_insert_eq by (rewrite length_replicate; lia). }
    intros i Hi. lia.
  - intros i s Hi. apply Lie_body_spec. lia.
  - rewrite Hrun, bind_Ok. simpl in Hinv.
    destruct Hinv as (Ht & Hu & Hv & vs & Hvs & Hvs0 & Hall & Hcur & Hrec).
    exists t, vnnt, vs. split; [done|]. split; [lia|]. split; [done|].
    split; [intros i Hi; apply Hrec; lia | done].
Qed.
End Lie.

(** X16.  [ops_Lax_LL_Lie] stores every step one column early.  Let [vs] be
    the sequence of states of the run: [vs[0]] is the initial field and
    [vs[i+1]] is the boundary-fixed outcome of the two Lax updates applied to
    [vs[i]].  The function returns, but column [i] of the returned matrix,
    for [i < nt-1], is the outcome of step [i] before the boundary fix (so
    column 0 is overwritten with the outcome of the first step as soon as
    [nt >= 2]); only the last column is a state of the run, [vs[nt-1]]. *)
Theorem ops_Lax_LL_Lie_stores_steps_early
    (xx hh : array) (nt : nat) (a b : coef) (cfl_cut : num) (ddx : deriv_op)
    (bnd_type : bnd_type) (l r : nat) :
  2 ≤ length xx → length hh = length xx →
  coef_fits (length xx) a → coef_fits (length xx) b →
  l + r < length xx → 1 ≤ nt →
  ∃ t vnnt ca cb vs,
    ops_Lax_LL_Lie xx hh nt a b cfl_cut ddx bnd_type (l, r) = Ok (t, vnnt) ∧
    cfl_adv_burger a xx = Ok ca ∧ cfl_adv_burger b xx = Ok cb ∧
    length vs = nt ∧ vs !! 0 = Some hh ∧
    (∀ i, i + 1 < nt →
       ∃ v vn p,
         vs !! i = Some v ∧
         Lie_u_next a b (nminimum (ca * cfl_cut) (cb * cfl_cut) * half)%num
                    (two * (xx !!! 1 - xx !!! 0))%num v = Ok vn ∧
         fix_boundaries vn (l, r) bnd_type = Ok p ∧
         vs !! (i + 1) = Some p ∧
         vnnt !! i = Some vn) ∧
    vnnt !! (nt - 1) = vs !! (nt - 1).
Proof.
  intros Hn Hh Ha Hb Hlr Hnt.
  destruct (cfl_adv_burger_ok a xx Hn Ha) as (ca & Hca).
  destruct (cfl_adv_burger_ok b xx Hn Hb) as (cb & Hcb).
  destruct (ops_Lax_LL_Lie_spec xx hh a b cfl_cut bnd_type l r nt ca cb
              Hn Hh Ha Hb Hlr Hca Hcb ddx Hnt)
    as (t & vnnt & vs & Hrun & Hvs & Hvs0 & Hrec & Hlast).
  exists t, vnnt, ca, cb, vs. do 5 (split; [done|]). split; [|done].
  intros i Hi.
  destruct (Hrec i Hi) as (v & vn & p & ti & G1 & G2 & G3 & G4 & G5 & _).
  by exists v, vn, p.
Qed.

Lemma ops_Lax_LL_Lie_stores_steps_early_witness :
  ∃ t vnnt ca cb vs,
    ops_Lax_LL_Lie grid3 field3 3 (Scalar one) (Scalar (fin (-1) 2)) (fin 49 50)
                   deriv_dnw Wrap (0, 1) = Ok (t, vnnt) ∧
    cfl_adv_burger (Scalar one) grid3 = Ok ca ∧
    cfl_adv_burger (Scalar (fin (-1) 2)) grid3 = Ok cb ∧
    length vs = 3 ∧ vs !! 0 = Some field3 ∧
    (∀ i, i + 1 < 3 →
       ∃ v vn p,
         vs !! i = Some v ∧
         Lie_u_next (Scalar one) (Scalar (fin (-1) 2))
                    (nminimum (ca * fin 49 50) (cb * fin 49 50) * half)%num
                    (two * (grid3 !!! 1 - grid3 !!! 0))%num v = Ok vn ∧
         fix_boundaries vn (0, 1) Wrap = Ok p ∧
         vs !! (i + 1) = Some p ∧
         vnnt !! i = Some vn) ∧
    vnnt !! (3 - 1) = vs !! (3 - 1).
Proof.
  apply (ops_Lax_LL_Lie_stores_steps_early grid3 field3 3 (Scalar one)
           (Scalar (fin (-1) 2)) (fin 49 50) deriv_dnw Wrap 0 1).
  - simpl; lia.
  - reflexivity.
  - exact I.
  - exact I.
  - simpl; lia.
  - lia.
Defined.

(** ** The flux-limited scheme *)

Lemma fold_nminimum_nan_start (l : array) : fold_left nminimum l NaN = NaN.
Proof. induction l as [|y l IH]; simpl; [done | exact IH]. Qed.

Lemma fold_nmaximum_nan_start (l : array) : fold_left nmaximum l NaN = NaN.
Proof. induction l as [|y l IH]; simpl; [done | exact IH]. Qed.

Lemma nminimum_nan_r (x : num) : nminimum x NaN = NaN.
Proof. by destruct x. Qed.

Lemma nmaximum_nan_r (x : num) : nmaximum x NaN = NaN.
Proof. by destruct x. Qed.

Lemma np_min_nan (l : array) : NaN ∈ l → np_min l = Ok NaN.
Proof.
  destruct l as [|x l]; [by intros ?%elem_of_nil|]. simpl. intros H. f_equal.
  revert x H. induction l as [|y l IH]; intros x H.
  - apply list_elem_of_singleton in H as <-. done.
  - apply elem_of_cons in H as [<-|H]; [apply fold_nminimum_nan_start|].
    simpl. apply elem_of_cons in H as [<-|H].
    + rewrite nminimum_nan_r. apply fold_nminimum_nan_start.
    + apply IH. by right.
Qed.

Lemma np_max_nan (l : array) : NaN ∈ l → np_max l = Ok NaN.
Proof.
  destruct l as [|x l]; [by intros ?%elem_of_nil|]. simpl. intros H. f_equal.
  revert x H. induction l as [|y l IH]; intros x H.
  - apply list_elem_of_singleton in H as <-. done.
  - apply elem_of_cons in H as [<-|H]; [apply fold_nmaximum_nan_start|].
    simpl. apply elem_of_cons in H as [<-|H].
    + rewrite nmaximum_nan_r. apply fold_nmaximum_nan_start.
    + apply IH. by right.
Qed.

Lemma flux_limiter_row_ok (theta : num) (r : array) :
  r ≠ [] → ∃ m, flux_limiter_row theta r = Ok m.
Proof.
  intros Hr. unfold flux_limiter_row.
  destruct (np_min_ok (map (nmul theta) r)) as (m1 & ->); [by destruct r|].
  rewrite bind_Ok.
  destruct (np_min_ok (map (fun x => ((one + x) / two)%num) r)) as (m2 & ->);
    [by destruct r|].
  rewrite bind_Ok. by eexists.
Qed.

Lemma flux_limiter_ok (r : array) : r ≠ [] → ∃ phi, flux_limiter r = Ok phi.
Proof.
  intros Hr. unfold flux_limiter.
  destruct (flux_limiter_row_ok one r Hr) as (row0 & ->). rewrite bind_Ok.
  destruct (flux_limiter_row_ok two r Hr) as (row1 & ->). rewrite bind_Ok.
  destruct (np_max_ok (replicate (length r) row0 ++ replicate (length r) row1))
    as (mx & ->); [by destruct r|].
  rewrite bind_Ok. by eexists.
Qed.

(** One NaN among the ratios makes the limiter a NaN. *)
Lemma flux_limiter_nan (r : array) : NaN ∈ r → flux_limiter r = Ok NaN.
Proof.
  intros Hnan.
  assert (Hr : r ≠ []) by (intros ->; by apply elem_of_nil in Hnan).
  unfold flux_limiter.
  assert (Hrow : flux_limiter_row one r = Ok NaN).
  { unfold flux_limiter_row. rewrite (np_min_nan (map (nmul one) r)).
    - rewrite bind_Ok.
      destruct (np_min_ok (map (fun x => ((one + x) / two)%num) r)) as (m2 & ->);
        [by destruct r|].
      rewrite bind_Ok. apply np_min_nan. by left.
    - by apply (list_elem_of_fmap_2' (nmul one) r NaN). }
  rewrite Hrow, bind_Ok.
  destruct (flux_limiter_row_ok two r Hr) as (row1 & ->). rewrite bind_Ok.
  rewrite (np_max_nan (replicate (length r) NaN ++ replicate (length r) row1)).
  - rewrite bind_Ok. apply np_max_nan. right. by left.
  - apply elem_of_app. left. apply elem_of_replicate. split; [done|].
    by destruct r.
Qed.

(** The pass of [evolve_Lax_Rie_uadv_burgers] up to the limiter: everything
    before it returns, and the ratios are
    [(u[j] - u[j-1]) / (u[j+1] + u[j])]. *)
Lemma Lax_Rie_u_next_unfold (xx : array) (dx : num) (u : array) :
  2 ≤ length xx → length u = length xx →
  ∃ dt F_Rie F_Lax r,
    length F_Rie = length xx ∧ length F_Lax = length xx ∧ length r = length xx ∧
    (∀ j, j < length xx →
          r !!! j = ((u !!! j - u !!! ((j + length xx - 1) mod length xx))
                     / (u !!! ((j + 1) mod length xx) + u !!! j))%num) ∧
    Lax_Rie_u_next xx dx u
    = (phi ← flux_limiter r;
       F_Lax_Rie ← vadd (Ok F_Rie) (sv nmul phi (vsub (Ok F_Lax) (Ok F_Rie)));
       u_next ← vsub (Ok u)
                  (vs ndiv (sv nmul dt (vsub (Ok F_Lax_Rie)
                                             (Ok (np_roll F_Lax_Rie 1)))) dx);
       Ok (dt, u_next)).
Proof.
  intros Hn Hu. unfold Lax_Rie_u_next. cbv zeta. rewrite np_roll_0.
  repeat arr_step.
  match goal with
  | |- context [cfl_adv_burger (PerPoint ?va) xx] =>
      destruct (cfl_adv_burger_ok (PerPoint va) xx Hn) as (dt & ->);
        [simpl; solve_len|]
  end.
  rewrite bind_Ok. repeat arr_step.
  destruct (Lax_u_next_ok xx u dt Hu) as (F_Lax & -> & HlF & _).
  rewrite !bind_Ok.
  eexists dt, _, F_Lax, _.
  split; [|split; [|split; [|split; [|reflexivity]]]];
    [solve_len | lia | solve_len |].
  intros j Hj. rewrite !arr_lookup_zip_with by solve_len.
  rewrite np_roll_next, np_roll_prev by lia. by rewrite Hu.
Qed.

Lemma Lax_Rie_u_next_ok (xx : array) (dx : num) (u : array) :
  2 ≤ length xx → length u = length xx →
  ∃ dt v, Lax_Rie_u_next xx dx u = Ok (dt, v) ∧ length v = length xx.
Proof.
  intros Hn Hu.
  destruct (Lax_Rie_u_next_unfold xx dx u Hn Hu)
    as (dt & F_Rie & F_Lax & r & H1 & H2 & H3 & _ & ->).
  destruct (flux_limiter_ok r) as (phi & ->); [destruct r; simpl in *; [lia|done]|].
  rewrite bind_Ok. repeat arr_step. rewrite ?bind_Ok. repeat arr_step.
  eexists _, _. split; [reflexivity | solve_len].
Qed.

(** A NaN among the ratios spreads over the whole candidate. *)
Lemma Lax_Rie_u_next_nan (xx : array) (dx : num) (u : array) (j : nat) :
  2 ≤ length xx → length u = length xx → j < length xx →
  ((u !!! j - u !!! ((j + length xx - 1) mod length xx))
   / (u !!! ((j + 1) mod length xx) + u !!! j))%num = NaN →
  ∃ dt, Lax_Rie_u_next xx dx u = Ok (dt, replicate (length xx) NaN).
Proof.
  intros Hn Hu Hj Hnan.
  destruct (Lax_Rie_u_next_unfold xx dx u Hn Hu)
    as (dt & F_Rie & F_Lax & r & H1 & H2 & H3 & Hr & ->).
  rewrite (flux_limiter_nan r).
  2:{ rewrite <- Hnan, <- (Hr j Hj).
      apply list_elem_of_lookup_total_2. lia. }
  rewrite bind_Ok. repeat arr_step. rewrite ?bind_Ok. repeat arr_step.
  exists dt. do 2 f_equal.
  match goal with |- ?l = _ =>
    transitivity (replicate (length l) NaN); [|f_equal; solve_len] end.
  apply replicate_from_entries. intros i Hi.
  assert (Hi' : i < length xx) by solve_len.
  repeat first [ rewrite arr_lookup_zip_with by solve_len
               | rewrite arr_lookup_map by solve_len ].
  rewrite np_roll_prev by solve_len.
  repeat first [ rewrite arr_lookup_zip_with
                   by (try apply Nat.mod_upper_bound; solve_len)
               | rewrite arr_lookup_map
                   by (try apply Nat.mod_upper_bound; solve_len) ].
  generalize (u !!! i). intros x. destruct x, dt; destruct dx;
    by repeat match goal with |- context [(?a + NaN * ?b)%num] =>
                replace (a + NaN * b)%num with NaN
                  by (by destruct a, b) end.
Qed.

(** X17.  A flat zero stretch destroys a run of
    [evolve_Lax_Rie_uadv_burgers].  If the initial field is zero at three
    neighbouring grid points (neighbours taken around the periodic grid),
    the ratio [(u[j] - u[j-1]) / (u[j+1] + u[j])] at the middle one is
    [0/0], the limiter is a NaN, and with 'wrap' or 'edge' boundaries every
    column after the initial one is NaN throughout. *)
Theorem evolve_Lax_Rie_flat_zero_turns_into_nan
    (xx hh : array) (nt : nat) (cfl_cut : num) (ddx : deriv_op)
    (bnd_type : bnd_type) (l r j : nat) :
  2 ≤ length xx → length hh = length xx → j < length xx →
  hh !!! j = zero →
  hh !!! ((j + 1) mod length xx) = zero →
  hh !!! ((j + length xx - 1) mod length xx) = zero →
  bnd_type ≠ Constant → l + r < length xx → 2 ≤ nt →
  ∃ t unnt,
    evolve_Lax_Rie_uadv_burgers xx hh nt cfl_cut ddx bnd_type (l, r)
      = Ok (t, unnt) ∧
    ∀ i, 1 ≤ i < nt → unnt !! i = Some (replicate (length xx) NaN).
Proof.
  intros Hn Hh Hj H0 H1 H2 Hmode Hlr Hnt.
  destruct (Lax_Rie_u_next_nan xx (xx !!! 1 - xx !!! 0)%num hh j Hn Hh Hj)
    as (dt0 & Hfirst).
  { rewrite H0, H1, H2. vm_compute. reflexivity. }
  destruct (march_absorbing (length xx) nt bnd_type l r
              (Lax_Rie_u_next xx (xx !!! 1 - xx !!! 0)%num)
              hh (replicate (length xx) NaN) dt0 Hlr)
    as (t & unnt & Hrun & _ & Hcols); try done.
  - intros u Hu. by apply Lax_Rie_u_next_ok.
  - apply (Lax_Rie_u_next_nan xx _ (replicate (length xx) NaN) 0);
      [done | apply length_replicate | lia |].
    by rewrite !lookup_total_replicate_2 by (try apply Nat.mod_upper_bound; lia).
  - by apply fix_boundaries_replicate.
  - exists t, unnt. split; [|done]. unfold evolve_Lax_Rie_uadv_burgers.
    destruct (init_series (length xx) nt hh) as [s|e]; [|discriminate].
    rewrite bind_Ok in *. rewrite !getitem_ok by lia. by rewrite !bind_Ok.
Qed.

Lemma evolve_Lax_Rie_flat_zero_turns_into_nan_witness :
  ∃ t unnt,
    evolve_Lax_Rie_uadv_burgers (uniform_grid (qc 0 1) (qc 1 2) 5)
                                [one; zero; zero; zero; two] 3 (fin 49 50)
                                deriv_upw Wrap (1, 0) = Ok (t, unnt) ∧
    ∀ i, 1 ≤ i < 3 →
         unnt !! i
         = Some (replicate (length (uniform_grid (qc 0 1) (qc 1 2) 5)) NaN).
Proof.
  apply (evolve_Lax_Rie_flat_zero_turns_into_nan
           (uniform_grid (qc 0 1) (qc 1 2) 5) [one; zero; zero; zero; two]
           3 (fin 49 50) deriv_upw Wrap 1 0 2).
  - simpl; lia.
  - reflexivity.
  - simpl; lia.
  - reflexivity.
  - reflexivity.
  - reflexivity.
  - discriminate.
  - simpl; lia.
  - lia.
Defined.

(** *** Range of the limiter *)

Lemma nan_free_spec (u : array) :
  nan_free u = true ↔ Forall (fun v => v ≠ NaN) u.
Proof.
  unfold nan_free. induction u as [|x u IH]; simpl; [by split|].
  rewrite andb_true_iff, IH, Forall_cons.
  assert (negb (num_eqb x NaN) = true ↔ x ≠ NaN) as ->; [|done].
  destruct x; simpl; split; done.
Qed.

Lemma nan_free_false (u : array) : nan_free u = false → NaN ∈ u.
Proof.
  unfold nan_free. induction u as [|x u IH]; simpl; [done|].
  intros [H|H]%andb_false_iff.
  - destruct x; try discriminate. by left.
  - right. by apply IH.
Qed.

Lemma nle_refl (x : num) : x ≠ NaN → nle x x = true.
Proof.
  destruct x as [q| | |]; try done. intros _. apply nle_Fin, Qcle_refl.
Qed.

Lemma nle_trans (x y z : num) :
  nle x y = true → nle y z = true → nle x z = true.
Proof.
  destruct x as [a| | |], y as [b| | |], z as [c| | |]; try done.
  rewrite !nle_Fin. apply Qcle_trans.
Qed.

Lemma nle_total (x y : num) :
  x ≠ NaN → y ≠ NaN → nle x y = false → nle y x = true.
Proof.
  destruct x as [a| | |], y as [b| | |]; try done.
  intros _ _ H. apply nle_Fin.
  destruct (Qclt_le_dec b a) as [Hlt|Hle]; [by apply Qclt_le_weak|].
  apply nle_Fin in Hle. congruence.
Qed.

Lemma nminimum_spec (x y : num) :
  x ≠ NaN → y ≠ NaN →
  nminimum x y ≠ NaN ∧ nle (nminimum x y) x = true ∧ nle (nminimum x y) y = true.
Proof.
  intros Hx Hy.
  assert (nminimum x y = if nle x y then x else y) as -> by (by destruct x, y).
  destruct (nle x y) eqn:E.
  - split; [done|]. split; [by apply nle_refl | done].
  - split; [done|]. split; [by apply nle_total | by apply nle_refl].
Qed.

Lemma nmaximum_spec (x y : num) :
  x ≠ NaN → y ≠ NaN →
  nmaximum x y ≠ NaN ∧ nle x (nmaximum x y) = true ∧ nle y (nmaximum x y) = true ∧
  (nmaximum x y = x ∨ nmaximum x y = y).
Proof.
  intros Hx Hy.
  assert (nmaximum x y = if nle x y then y else x) as -> by (by destruct x, y).
  destruct (nle x y) eqn:E.
  - split; [done|]. split; [done|]. split; [by apply nle_refl | by right].
  - split; [done|]. split; [by apply nle_refl|].
    split; [by apply nle_total | by left].
Qed.

Lemma np_min_nan_free (l : array) :
  l ≠ [] → Forall (fun v => v ≠ NaN) l → ∃ m, np_min l = Ok m ∧ m ≠ NaN.
Proof.
  destruct l as [|x l]; [done|]. intros _ [Hx Hl]%Forall_cons. simpl.
  eexists; split; [reflexivity|]. revert x Hx.
  induction Hl as [|y l Hy _ IH]; intros x Hx; simpl; [done|].
  apply IH. by apply nminimum_spec.
Qed.

(** A maximum over entries that share a bound. *)
Lemma np_max_bounded (l : array) (b : num) :
  l ≠ [] → Forall (fun v => v ≠ NaN ∧ nle v b = true) l →
  ∃ m, np_max l = Ok m ∧ m ≠ NaN ∧ nle m b = true.
Proof.
  destruct l as [|x l]; [done|]. intros _ [Hx Hl]%Forall_cons. simpl.
  eexists; split; [reflexivity|]. revert x Hx.
  induction Hl as [|y l [Hy1 Hy2] _ IH]; intros x [Hx1 Hx2]; simpl; [done|].
  apply IH. destruct (nmaximum_spec x y Hx1 Hy1) as (H1 & _ & _ & [-> | ->]); done.
Qed.

Lemma limiter_maps_nan_free (theta : Qc) (r : array) :
  theta ≠ Q2Qc 0 → Forall (fun v => v ≠ NaN) r →
  Forall (fun v => v ≠ NaN) (map (nmul (Fin theta)) r) ∧
  Forall (fun v => v ≠ NaN) (map (fun x => ((one + x) / two)%num) r).
Proof.
  intros Ht Hr. split; apply Forall_fmap; eapply Forall_impl; try exact Hr;
    intros x Hx; simpl.
  - destruct x as [q| | |]; try done; unfold nmul, signed_inf.
    + destruct (theta ?= 0)%Qc eqn:E; try done. by apply Qceq_alt in E.
    + destruct (- theta ?= 0)%Qc eqn:E; try done.
      apply Qceq_alt in E. destruct Ht.
      rewrite <- (Qcopp_involutive theta), E. ring.
  - by destruct x.
Qed.

Lemma flux_limiter_row_bounded (theta : Qc) (r : array) :
  theta ≠ Q2Qc 0 → r ≠ [] → Forall (fun v => v ≠ NaN) r →
  ∃ m, flux_limiter_row (Fin theta) r = Ok m ∧ m ≠ NaN ∧
       nle m (Fin theta) = true.
Proof.
  intros Ht Hne Hr. unfold flux_limiter_row.
  destruct (limiter_maps_nan_free theta r Ht Hr) as [H1 H2].
  destruct (np_min_nan_free (map (nmul (Fin theta)) r)) as (m1 & -> & Hm1);
    [by destruct r | done |].
  rewrite bind_Ok.
  destruct (np_min_nan_free (map (fun x => ((one + x) / two)%num) r))
    as (m2 & -> & Hm2); [by destruct r | done |].
  rewrite bind_Ok. simpl. eexists; split; [reflexivity|].
  destruct (nminimum_spec m1 m2 Hm1 Hm2) as (Hm & _ & _).
  destruct (nminimum_spec (nminimum m1 m2) (Fin theta) Hm) as (H & _ & Hle); done.
Qed.

(** X18.  Range of [flux_limiter].  It raises ([ValueError]) exactly on an
    empty array of ratios.  On a non-empty array it returns one number for
    the whole grid: a NaN as soon as one ratio is a NaN, and otherwise a
    value between 0 and 2, infinite ratios included. *)
Theorem flux_limiter_range (r : array) :
  (flux_limiter r = Raise ValueError ↔ r = []) ∧
  (r ≠ [] →
   ∃ phi, flux_limiter r = Ok phi ∧
          if nan_free r then nle zero phi && nle phi two = true
          else phi = NaN).
Proof.
  split.
  - split; [|by intros ->].
    intros H. destruct r as [|x r]; [done|].
    destruct (flux_limiter_ok (x :: r)) as (phi & Hphi); [done|]. congruence.
  - intros Hne. destruct (nan_free r) eqn:Hfree.
    + apply nan_free_spec in Hfree. unfold flux_limiter.
      change (flux_limiter_row one r) with (flux_limiter_row (Fin (qc 1 1)) r).
      change (flux_limiter_row two r) with (flux_limiter_row (Fin (qc 2 1)) r).
      destruct (flux_limiter_row_bounded (qc 1 1) r) as (row0 & -> & Hn0 & Hle0);
        [by intros H; discriminate H | done | done |].
      rewrite bind_Ok.
      destruct (flux_limiter_row_bounded (qc 2 1) r) as (row1 & -> & Hn1 & Hle1);
        [apply Qc_two_nonzero | done | done |].
      rewrite bind_Ok.
      assert (Hle0' : nle row0 two = true).
      { apply (nle_trans _ (Fin (qc 1 1))); [done|]. by vm_compute. }
      destruct (np_max_bounded
                  (replicate (length r) row0 ++ replicate (length r) row1) two)
        as (mx & -> & Hnx & Hlex).
      { by destruct r. }
      { apply Forall_app. split; apply Forall_replicate; done. }
      rewrite bind_Ok. simpl. eexists; split; [reflexivity|].
      assert (Hz : zero ≠ NaN) by done.
      destruct (nmaximum_spec zero mx Hz Hnx) as (_ & H1 & _ & [E | E]);
        rewrite E in *.
      * by vm_compute.
      * by rewrite H1, Hlex.
    + exists NaN. split; [|done]. by apply flux_limiter_nan, nan_free_false.
Qed.

(** ** Steady states of the other steppers *)






